(** * Fish: the hexagonal board, the turn engine and the minimax search

    A shallow embedding of [Fish_game.py], the complete version of the
    game (the files [fish.py], [fish1.py], [fish2.py] and [fish_ui.py] are
    earlier drafts of the same classes).

    - Python dictionaries keyed by [(row, col)] are [gmap (Z * Z) _].
    - Python lists are lists; [player.penguins] is a list whose order is
      observable, because the search iterates it by index while the
      temporary moves edit it in place.
    - The game object is mutated in place and exceptions leave the writes
      made before them: every method is a function from the state to an
      [outcome], which carries the state in both cases.
    - Python floats ([float('-inf')], the evaluation) are extended
      rationals: exact arithmetic, rounding is not modelled.
    - Drawing, particles, texts, timers and the move history are left out. *)

From Stdlib Require Import ZArith QArith Qcanon Lia String.
From stdpp Require Import gmap list strings sorting.

Local Open Scope Z_scope.

(** ** Data model *)

Inductive GameState := SETUP | PLACING_PENGUINS | PLAYING | GAME_OVER.

Record Player := mkPlayer {
  name : string;
  color : string;
  age : Z;
  is_ai : bool;
  fish_count : Z;
  penguins : list (Z * Z)
}.

Record Tile := mkTile {
  row : Z;
  col : Z;
  fish : Z;
  exists_ : bool
}.

(** [Tile(row, col, fish)]: the dataclass default [exists=True]. *)
Definition Tile_ (r c f : Z) : Tile := mkTile r c f true.

Record HexGrid := mkHexGrid {
  rows : Z;
  cols : Z;
  tiles : gmap (Z * Z) Tile
}.

(** The attributes of [FishGame] that the game logic reads or writes.
    An animation is [(from_pos, to_pos, player_index)]; its progress is a
    pacing float and is left out. *)
Record FishGame := mkFishGame {
  game_state : GameState;
  players : list Player;
  current_player_index : nat;
  selected_penguin : option (Z * Z);
  valid_moves : list (Z * Z);
  grid : HexGrid;
  penguin_positions : gmap (Z * Z) nat;
  minimax_depth : nat;
  animation_queue : list ((Z * Z) * (Z * Z) * nat);
  current_animation : option ((Z * Z) * (Z * Z) * nat)
}.

Global Instance GameState_eq_dec : EqDecision GameState.
Proof. solve_decision. Defined.

(** Attribute assignment. *)
Definition set_game_state (v : GameState) (g : FishGame) : FishGame :=
  mkFishGame v (players g) (current_player_index g) (selected_penguin g)
    (valid_moves g) (grid g) (penguin_positions g) (minimax_depth g)
    (animation_queue g) (current_animation g).
Definition set_players (v : list Player) (g : FishGame) : FishGame :=
  mkFishGame (game_state g) v (current_player_index g) (selected_penguin g)
    (valid_moves g) (grid g) (penguin_positions g) (minimax_depth g)
    (animation_queue g) (current_animation g).
Definition set_current_player_index (v : nat) (g : FishGame) : FishGame :=
  mkFishGame (game_state g) (players g) v (selected_penguin g)
    (valid_moves g) (grid g) (penguin_positions g) (minimax_depth g)
    (animation_queue g) (current_animation g).
Definition set_selected_penguin (v : option (Z * Z)) (g : FishGame) : FishGame :=
  mkFishGame (game_state g) (players g) (current_player_index g) v
    (valid_moves g) (grid g) (penguin_positions g) (minimax_depth g)
    (animation_queue g) (current_animation g).
Definition set_valid_moves (v : list (Z * Z)) (g : FishGame) : FishGame :=
  mkFishGame (game_state g) (players g) (current_player_index g)
    (selected_penguin g) v (grid g) (penguin_positions g) (minimax_depth g)
    (animation_queue g) (current_animation g).
Definition set_grid (v : HexGrid) (g : FishGame) : FishGame :=
  mkFishGame (game_state g) (players g) (current_player_index g)
    (selected_penguin g) (valid_moves g) v (penguin_positions g)
    (minimax_depth g) (animation_queue g) (current_animation g).
Definition set_penguin_positions (v : gmap (Z * Z) nat) (g : FishGame) : FishGame :=
  mkFishGame (game_state g) (players g) (current_player_index g)
    (selected_penguin g) (valid_moves g) (grid g) v (minimax_depth g)
    (animation_queue g) (current_animation g).
Definition set_minimax_depth (v : nat) (g : FishGame) : FishGame :=
  mkFishGame (game_state g) (players g) (current_player_index g)
    (selected_penguin g) (valid_moves g) (grid g) (penguin_positions g)
    v (animation_queue g) (current_animation g).
Definition set_animation_queue (v : list ((Z * Z) * (Z * Z) * nat)) (g : FishGame) : FishGame :=
  mkFishGame (game_state g) (players g) (current_player_index g)
    (selected_penguin g) (valid_moves g) (grid g) (penguin_positions g)
    (minimax_depth g) v (current_animation g).
Definition set_current_animation (v : option ((Z * Z) * (Z * Z) * nat)) (g : FishGame) : FishGame :=
  mkFishGame (game_state g) (players g) (current_player_index g)
    (selected_penguin g) (valid_moves g) (grid g) (penguin_positions g)
    (minimax_depth g) (animation_queue g) v.

Definition set_tiles (v : gmap (Z * Z) Tile) (h : HexGrid) : HexGrid :=
  mkHexGrid (rows h) (cols h) v.
Definition set_fish_count (v : Z) (p : Player) : Player :=
  mkPlayer (name p) (color p) (age p) (is_ai p) v (penguins p).
Definition set_penguins (v : list (Z * Z)) (p : Player) : Player :=
  mkPlayer (name p) (color p) (age p) (is_ai p) (fish_count p) v.

(** ** Exceptions and the state monad of the game object *)

(** [OutOfFuel] is not a Python exception: it marks a run of the model
    that stopped a loop it could not bound. *)
Inductive exn := KeyError | ValueError | IndexError | ZeroDivisionError | OutOfFuel.

Inductive outcome (A : Type) :=
| Ok (a : A) (g : FishGame)
| Raise (e : exn) (g : FishGame).
Arguments Ok {A} a g.
Arguments Raise {A} e g.

Definition M (A : Type) : Type := FishGame -> outcome A.

Definition ret {A} (a : A) : M A := fun g => Ok a g.
Definition raise {A} (e : exn) : M A := fun g => Raise e g.
Definition bind {A B} (m : M A) (k : A -> M B) : M B :=
  fun g => match m g with
           | Ok a g' => k a g'
           | Raise e g' => Raise e g'
           end.
Definition get : M FishGame := fun g => Ok g g.
Definition modify (f : FishGame -> FishGame) : M unit := fun g => Ok tt (f g).

Declare Scope py_scope.
Delimit Scope py_scope with py.
Notation "'let*' x ':=' m 'in' k" := (bind m (fun x => k))
  (at level 10, x binder, m at level 100, k at level 200) : py_scope.
Notation "'do' m 'then' k" := (bind m (fun _ => k))
  (at level 10, m at level 100, k at level 200) : py_scope.

(** The state an outcome leaves behind. *)
Definition final {A} (o : outcome A) : FishGame :=
  match o with Ok _ g => g | Raise _ g => g end.

(** ** HexGrid *)

(** [HexGrid.remove_tile]: a dataclass instance is always truthy, so
    [if tile:] tests for [None] only. *)
Definition remove_tile (r c : Z) (h : HexGrid) : Z * HexGrid :=
  match tiles h !! (r, c) with
  | Some tile => (fish tile, set_tiles (delete (r, c) (tiles h)) h)
  | None => (0, h)
  end.

(** ** Direction labels and the move generator *)

Inductive direction := E | NE | NW | W | SW | SE.

Global Instance direction_eq_dec : EqDecision direction.
Proof. solve_decision. Defined.

(** [_get_hex_neighbors_with_direction]: the dictionary, in insertion
    order. *)
Definition _get_hex_neighbors_with_direction (r c : Z) : list (direction * (Z * Z)) :=
  if decide (c mod 2 = 0) then
    [ (E, (r, c + 1)); (NE, (r - 1, c + 1)); (NW, (r - 1, c));
      (W, (r, c - 1)); (SW, (r + 1, c)); (SE, (r + 1, c + 1)) ]
  else
    [ (E, (r, c + 1)); (NE, (r - 1, c)); (NW, (r - 1, c - 1));
      (W, (r, c - 1)); (SW, (r + 1, c - 1)); (SE, (r + 1, c)) ].

(** [dict.get]: the first binding of the key. *)
Fixpoint dict_get {V} (d : direction) (l : list (direction * V)) : option V :=
  match l with
  | [] => None
  | (k, v) :: l' => if decide (k = d) then Some v else dict_get d l'
  end.

Definition _get_next_in_direction (r c : Z) (direction_id : direction) : option (Z * Z) :=
  dict_get direction_id (_get_hex_neighbors_with_direction r c).

(** The [while True] loop of [_get_valid_moves] for one direction. Every
    turn of the loop but the last stands on a tile, and no tile is passed
    twice, so the loop makes at most one turn more than there are tiles:
    [fuel] counts the turns. *)
Fixpoint trace (g : FishGame) (direction_id : direction) (fuel : nat)
    (current : Z * Z) : list (Z * Z) :=
  match fuel with
  | O => []
  | S fuel' =>
    match tiles (grid g) !! current with
    | None => []
    | Some _ =>
      match penguin_positions g !! current with
      | Some _ => []
      | None =>
        current ::
        match _get_next_in_direction current.1 current.2 direction_id with
        | None => []
        | Some next_pos => trace g direction_id fuel' next_pos
        end
      end
    end
  end.

Definition _get_valid_moves (g : FishGame) (start : Z * Z) : list (Z * Z) :=
  flat_map (fun '(direction_id, first) =>
              trace g direction_id (S (size (tiles (grid g)))) first)
           (_get_hex_neighbors_with_direction start.1 start.2).

(** ** Players and tokens *)

(** [self.players[i]] for an index that is never negative. *)
Definition player_at (i : nat) : M Player :=
  fun g => match players g !! i with
           | Some p => Ok p g
           | None => Raise IndexError g
           end.

(** Writing an attribute of the [Player] object at index [i]: the object
    is shared by everything that holds it, the list keeps its length. *)
Definition set_player (i : nat) (p : Player) (g : FishGame) : FishGame :=
  set_players (<[i := p]> (players g)) g.

(** [list.remove(x)]: drops the first occurrence, [None] for
    [ValueError]. *)
Fixpoint list_remove (x : Z * Z) (l : list (Z * Z)) : option (list (Z * Z)) :=
  match l with
  | [] => None
  | y :: l' => if decide (y = x) then Some l' else cons y <$> list_remove x l'
  end.

(** [player.penguins.remove(a); player.penguins.append(b)] on the player
    at index [i]. *)
Definition relocate (i : nat) (a b : Z * Z) : M unit :=
  (let* player := player_at i in
   match list_remove a (penguins player) with
   | None => raise ValueError
   | Some l => modify (set_player i (set_penguins (l ++ [b]) player))
   end)%py.

(** [self.players[i].fish_count += n] *)
Definition add_fish (i : nat) (n : Z) : M unit :=
  (let* player := player_at i in
   modify (set_player i (set_fish_count (fish_count player + n) player)))%py.

(** [self.penguin_positions.pop(pos)] *)
Definition pop_penguin (pos : Z * Z) : M nat :=
  fun g => match penguin_positions g !! pos with
           | Some player_index =>
             Ok player_index
                (set_penguin_positions (delete pos (penguin_positions g)) g)
           | None => Raise KeyError g
           end.

(** [self.grid.remove_tile(row, col)] on the grid of the game. *)
Definition grid_remove_tile (pos : Z * Z) : M Z :=
  fun g => let '(n, h) := remove_tile pos.1 pos.2 (grid g) in Ok n (set_grid h g).

(** [(i + k) % len(self.players)], Python's floored remainder. *)
Definition rotate (k : Z) : M unit :=
  fun g => match players g with
           | [] => Raise ZeroDivisionError g
           | _ => Ok tt (set_current_player_index
                           (Z.to_nat ((Z.of_nat (current_player_index g) + k)
                                      mod Z.of_nat (length (players g)))) g)
           end.

(** ** Moves *)

(** [_move_penguin], without the particles, the floating number and the
    move history. *)
Definition _move_penguin (from_pos to_pos : Z * Z) : M unit :=
  (let* player_index := pop_penguin from_pos in
   let* fish_collected := grid_remove_tile from_pos in
   do add_fish player_index fish_collected then
   do modify (fun g => set_penguin_positions
                      (<[to_pos := player_index]> (penguin_positions g)) g) then
   relocate player_index from_pos to_pos)%py.

Definition _make_temp_move (from_pos to_pos : Z * Z) : M Z :=
  (let* player_index := pop_penguin from_pos in
   let* fish_collected := grid_remove_tile from_pos in
   do add_fish player_index fish_collected then
   do modify (fun g => set_penguin_positions
                      (<[to_pos := player_index]> (penguin_positions g)) g) then
   do relocate player_index from_pos to_pos then
   ret fish_collected)%py.

Definition _undo_temp_move (from_pos to_pos : Z * Z) (fish_collected : Z) : M unit :=
  (let* player_index := pop_penguin to_pos in
   do modify (fun g => set_grid
                      (set_tiles (<[from_pos := Tile_ from_pos.1 from_pos.2 fish_collected]>
                                    (tiles (grid g))) (grid g)) g) then
   do add_fish player_index (- fish_collected) then
   do modify (fun g => set_penguin_positions
                      (<[from_pos := player_index]> (penguin_positions g)) g) then
   relocate player_index to_pos from_pos)%py.

(** ** Turn engine *)

(** The test [if self._get_valid_moves(...)]: a list is true when it is
    not empty. *)
Definition can_move (g : FishGame) (penguin_pos : Z * Z) : bool :=
  match _get_valid_moves g penguin_pos with
  | [] => false
  | _ :: _ => true
  end.

Definition _is_game_over (g : FishGame) : bool :=
  forallb (fun player => forallb (fun penguin_pos => negb (can_move g penguin_pos))
                                 (penguins player))
          (players g).

(** [_end_game]: [max] of an empty sequence raises [ValueError]; the
    game-over view is left out. *)
Definition _end_game : M unit :=
  (do modify (set_game_state GAME_OVER) then
   let* g := get in
   match players g with
   | [] => raise ValueError
   | _ => ret tt
   end)%py.

(** The [while attempts < len(self.players)] loop of [_next_turn]:
    [remaining] is [len(self.players) - attempts]. *)
Fixpoint next_turn_loop (remaining : nat) : M unit :=
  match remaining with
  | O => _end_game
  | S remaining' =>
    (do rotate 1 then
     let* g := get in
     let* player := player_at (current_player_index g) in
     if existsb (can_move g) (penguins player) then ret tt
     else next_turn_loop remaining')%py
  end.

Definition _next_turn : M unit :=
  fun g => next_turn_loop (length (players g)) g.

Definition total_penguins (g : FishGame) : Z :=
  Z.of_nat (list_sum (map (fun p => length (penguins p)) (players g))).

Definition expected_penguins (g : FishGame) : Z :=
  Z.of_nat (length (players g)) * (6 - Z.of_nat (length (players g))).

Definition _place_penguin_at (r c : Z) : M unit :=
  (let* g := get in
   do modify (set_penguin_positions
             (<[(r, c) := current_player_index g]> (penguin_positions g))) then
   let* player := player_at (current_player_index g) in
   do modify (set_player (current_player_index g)
             (set_penguins (penguins player ++ [(r, c)]) player)) then
   do rotate 1 then
   let* g' := get in
   if decide (total_penguins g' >= expected_penguins g') then
     do modify (set_game_state PLAYING) then
     modify (set_current_player_index 0)
   else ret tt)%py.

Definition _handle_penguin_placement (r c : Z) : M unit :=
  fun g =>
    match tiles (grid g) !! (r, c) with
    | None => Ok tt g
    | Some _ =>
      match penguin_positions g !! (r, c) with
      | Some _ => Ok tt g
      | None => _place_penguin_at r c g
      end
    end.

(** Tuples [(fish, row, col)] in the order Python compares them. *)
Definition tuple_ge (a b : Z * Z * Z) : Prop :=
  a.1.1 > b.1.1 \/
  (a.1.1 = b.1.1 /\ (a.1.2 > b.1.2 \/ (a.1.2 = b.1.2 /\ a.2 >= b.2))).

Global Instance tuple_ge_dec a b : Decision (tuple_ge a b).
Proof. unfold tuple_ge. apply _. Defined.

(** The tiles that hold no token, as [(fish, row, col)]. No two of them
    are equal, so the sorted list does not depend on the order in which
    the dictionary is read. *)
Definition available_tiles (g : FishGame) : list (Z * Z * Z) :=
  (fun '(pos, tile) => (fish tile, pos.1, pos.2)) <$>
  filter (fun '(pos, _) => penguin_positions g !! pos = None)
         (map_to_list (tiles (grid g))).

(** [_ai_place_penguin]; [choice] is the draw of [random.choice] among
    the (at most three) best tiles. *)
Definition _ai_place_penguin (choice : nat) : M unit :=
  fun g =>
    match available_tiles g with
    | [] => Ok tt g
    | _ =>
      let top_tiles := take 3 (merge_sort tuple_ge (available_tiles g)) in
      match top_tiles !! (choice mod length top_tiles)%nat with
      | Some (_, r, c) => _place_penguin_at r c g
      | None => Ok tt g
      end
    end.

(** [_start_animation]: a tuple is true, [None] is false. *)
Definition _start_animation (from_pos to_pos : Z * Z) : M unit :=
  fun g =>
    match penguin_positions g !! from_pos with
    | None => Raise KeyError g
    | Some player_index =>
      match current_animation g with
      | None => Ok tt (set_current_animation (Some (from_pos, to_pos, player_index)) g)
      | Some _ => Ok tt (set_animation_queue
                           (animation_queue g ++ [(from_pos, to_pos, player_index)]) g)
      end
    end.

Definition _complete_move (from_pos to_pos : Z * Z) (player_index : nat) : M unit :=
  (do _move_penguin from_pos to_pos then _next_turn)%py.

(** The branch of [on_update] taken when the progress of the current
    animation reaches 1: the move is applied, the turn passes, and the
    next queued animation, if any, starts. *)
Definition complete_animation : M unit :=
  (let* g := get in
   match current_animation g with
   | None => ret tt
   | Some (start_pos, end_pos, player_index) =>
     do _complete_move start_pos end_pos player_index then
     do modify (set_current_animation None) then
     let* g' := get in
     match animation_queue g' with
     | [] => ret tt
     | next_anim :: rest =>
       do modify (set_animation_queue rest) then
       modify (set_current_animation (Some next_anim))
     end
   end)%py.

Definition _handle_gameplay_click (r c : Z) : M unit :=
  fun g =>
    match penguin_positions g !! (r, c) with
    | Some owner =>
      if decide (owner = current_player_index g) then
        Ok tt (set_valid_moves (_get_valid_moves g (r, c))
                 (set_selected_penguin (Some (r, c)) g))
      else Ok tt g
    | None =>
      match selected_penguin g with
      | Some selected =>
        if decide ((r, c) ∈ valid_moves g) then
          (do _start_animation selected (r, c) then
           do modify (set_selected_penguin None) then
           modify (set_valid_moves []))%py g
        else Ok tt g
      | None => Ok tt g
      end
    end.

(** ** Scores of the search *)

(** A Python number of the search: [float('-inf')], a finite value,
    [float('inf')]. *)
Inductive score := neg_inf | fin (q : Qc) | pos_inf.

Definition of_Z (z : Z) : Qc := Q2Qc (inject_Z z).
Definition of_nat (n : nat) : Qc := of_Z (Z.of_nat n).

(** [a <= b] and [a < b] on Python numbers. *)
Definition score_le (a b : score) : bool :=
  match a, b with
  | neg_inf, _ => true
  | _, pos_inf => true
  | fin x, fin y => Qle_bool x y
  | _, _ => false
  end.
Definition score_lt (a b : score) : bool := negb (score_le b a).

(** [max(a, b)] keeps its first argument unless the second is greater;
    [min(a, b)] unless the second is smaller. *)
Definition score_max (a b : score) : score := if score_lt a b then b else a.
Definition score_min (a b : score) : score := if score_lt b a then b else a.

(** [enumerate(self.players)] without the entry of index [i]. *)
Definition opponents (i : nat) (ps : list Player) : list Player :=
  (filter (fun ip => ip.1 <> i) (imap pair ps)).*2.

(** [sum(len(self._get_valid_moves(p)) for p in player.penguins)] *)
Definition mobility_of (g : FishGame) (player : Player) : nat :=
  list_sum (map (fun penguin_pos => length (_get_valid_moves g penguin_pos))
                (penguins player)).

Definition _evaluate_board : M score :=
  (let* g := get in
   let* current_player := player_at (current_player_index g) in
   let others := opponents (current_player_index g) (players g) in
   let opponent_fish_total := foldr Z.add 0 (map fish_count others) in
   let opponent_count := length others in
   let score0 := of_Z (fish_count current_player) in
   let score1 := if decide (0 < opponent_count)%nat
                 then (score0 - of_Z opponent_fish_total / of_nat opponent_count)%Qc
                 else score0 in
   let mobility := mobility_of g current_player in
   let score2 := (score1 + of_nat mobility * Q2Qc (1 # 2))%Qc in
   let opponent_mobility := list_sum (map (mobility_of g) others) in
   let score3 := if decide (0 < opponent_count)%nat
                 then (score2 - of_nat opponent_mobility / of_nat opponent_count
                                * Q2Qc (3 # 10))%Qc
                 else score2 in
   ret (fin score3))%py.

(** ** The minimax search *)

(** [for penguin_pos in player.penguins: ...] for the player object at
    index [owner]. The iterator reads position [i] of the list as it is
    when the turn of the loop starts, so it sees what the body did to the
    list. The list keeps its length while temporary moves are made and
    undone; [fuel] is that length. *)
Fixpoint for_penguins {A} (body : Z * Z -> A -> M A) (owner : nat)
    (fuel i : nat) (acc : A) : M A :=
  fun g =>
    match players g !! owner with
    | None => Raise IndexError g
    | Some player =>
      match penguins player !! i with
      | None => Ok acc g
      | Some penguin_pos =>
        match fuel with
        | O => Raise OutOfFuel g
        | S fuel' =>
          match body penguin_pos acc g with
          | Ok acc' g' => for_penguins body owner fuel' (S i) acc' g'
          | Raise e g' => Raise e g'
          end
        end
      end
    end.

(** One child of a node of [_minimax]: make the move, pass the turn,
    search, take the turn back, undo the move. *)
Definition explore (rec : M score) (penguin_pos move_pos : Z * Z) : M score :=
  (let* fish_collected := _make_temp_move penguin_pos move_pos in
   do rotate 1 then
   let* eval_score := rec in
   do rotate (-1) then
   do _undo_temp_move penguin_pos move_pos fish_collected then
   ret eval_score)%py.

(** [for move_pos in valid_moves: ...] of the maximizing branch; the
    state of the loop is [(max_eval, alpha)], [break] leaves this loop
    only. *)
Fixpoint max_moves (rec : score -> score -> M score) (penguin_pos : Z * Z)
    (beta : score) (moves : list (Z * Z)) (st : score * score) : M (score * score) :=
  match moves with
  | [] => ret st
  | move_pos :: moves' =>
    (let* eval_score := explore (rec st.2 beta) penguin_pos move_pos in
     let max_eval := score_max st.1 eval_score in
     let alpha := score_max st.2 eval_score in
     if score_le beta alpha then ret (max_eval, alpha)
     else max_moves rec penguin_pos beta moves' (max_eval, alpha))%py
  end.

(** The same loop of the minimizing branch, on [(min_eval, beta)]. *)
Fixpoint min_moves (rec : score -> score -> M score) (penguin_pos : Z * Z)
    (alpha : score) (moves : list (Z * Z)) (st : score * score) : M (score * score) :=
  match moves with
  | [] => ret st
  | move_pos :: moves' =>
    (let* eval_score := explore (rec alpha st.2) penguin_pos move_pos in
     let min_eval := score_min st.1 eval_score in
     let beta := score_min st.2 eval_score in
     if score_le beta alpha then ret (min_eval, beta)
     else min_moves rec penguin_pos alpha moves' (min_eval, beta))%py
  end.

(** [_minimax]. The depth is a natural number: the settings view offers
    the depths 1 to 5. *)
Fixpoint _minimax (depth : nat) (alpha beta : score) (maximizing_player : bool)
    : M score :=
  match depth with
  | O => _evaluate_board
  | S depth' =>
    (let* g := get in
     if _is_game_over g then _evaluate_board
     else
       let* current_player := player_at (current_player_index g) in
       let owner := current_player_index g in
       let n := length (penguins current_player) in
       if maximizing_player then
         let* st := for_penguins
                      (fun penguin_pos st =>
                         let* g' := get in
                         max_moves (fun a b => _minimax depth' a b false)
                                   penguin_pos beta
                                   (_get_valid_moves g' penguin_pos) st)
                      owner n 0%nat (neg_inf, alpha) in
         ret st.1
       else
         let* st := for_penguins
                      (fun penguin_pos st =>
                         let* g' := get in
                         min_moves (fun a b => _minimax depth' a b true)
                                   penguin_pos alpha
                                   (_get_valid_moves g' penguin_pos) st)
                      owner n 0%nat (pos_inf, beta) in
         ret st.1)%py
  end.

(** ** The move of the computer *)

(** The state of the loops of [_ai_make_move]. *)
Record search := mkSearch {
  best_score : score;
  best_move : option ((Z * Z) * (Z * Z));
  alpha_ : score
}.

(** [for move_pos in valid_moves: ...] of [_ai_make_move]: the turn is
    not passed before the recursive call, and there is no [break]. *)
Fixpoint root_moves (depth : nat) (penguin_pos : Z * Z)
    (moves : list (Z * Z)) (st : search) : M search :=
  match moves with
  | [] => ret st
  | move_pos :: moves' =>
    (let* fish_collected := _make_temp_move penguin_pos move_pos in
     let* s := _minimax (depth - 1) (alpha_ st) pos_inf false in
     do _undo_temp_move penguin_pos move_pos fish_collected then
     let st1 := if score_lt (best_score st) s
                then mkSearch s (Some (penguin_pos, move_pos)) (alpha_ st)
                else st in
     root_moves depth penguin_pos moves'
       (mkSearch (best_score st1) (best_move st1)
                 (score_max (alpha_ st1) (best_score st1))))%py
  end.

(** [_ai_make_move] up to the choice of [best_move]: the search, then the
    four attributes saved with [copy.deepcopy] are put back. *)
Definition ai_search : M search :=
  (let* original := get in
   let* current_player := player_at (current_player_index original) in
   let* st := for_penguins
                (fun penguin_pos st =>
                   let* g := get in
                   root_moves (minimax_depth original) penguin_pos
                              (_get_valid_moves g penguin_pos) st)
                (current_player_index original)
                (length (penguins current_player)) 0%nat
                (mkSearch neg_inf None neg_inf) in
   do modify (fun g =>
                set_current_player_index (current_player_index original)
                  (set_players (players original)
                     (set_penguin_positions (penguin_positions original)
                        (set_grid (grid original) g)))) then
   ret st)%py.

Definition _ai_make_move : M unit :=
  (let* st := ai_search in
   match best_move st with
   | Some (from_pos, to_pos) => _start_animation from_pos to_pos
   | None => _next_turn
   end)%py.

(** ** The handlers of the view *)

(** [on_mouse_press] for a click that [pixel_to_hex] maps to [(r, c)];
    the conversion of the pixel is float geometry and is left out, as is
    the settings button. *)
Definition on_mouse_press (r c : Z) : M unit :=
  (let* g := get in
   let* current_player := player_at (current_player_index g) in
   if is_ai current_player then ret tt
   else
     match game_state g with
     | PLACING_PENGUINS => _handle_penguin_placement r c
     | PLAYING => _handle_gameplay_click r c
     | _ => ret tt
     end)%py.

(** [on_update]. The progress of an animation and the timer of the
    computer are floats that pace the game, and they are not part of the
    game object here: [finished] says whether this call brings the
    progress of the current animation to 1, [due] whether it brings
    [ai_move_timer] over the threshold of the phase, and [choice] is the
    draw of [random.choice]. The player to move is read once, before
    the animation is looked at, as in the code. *)
Definition on_update (finished due : bool) (choice : nat) : M unit :=
  (let* g := get in
   let* current_player := player_at (current_player_index g) in
   do (if finished then complete_animation else ret tt) then
   let* g' := get in
   match current_animation g' with
   | Some _ => ret tt
   | None =>
     if is_ai current_player && due then
       match game_state g' with
       | PLACING_PENGUINS => _ai_place_penguin choice
       | PLAYING => _ai_make_move
       | _ => ret tt
       end
     else ret tt
   end)%py.

(** ** The straight line of a direction label *)

(** The neighbour labelled [d]: one step of the walk. *)
Definition step (d : direction) (p : Z * Z) : Z * Z :=
  default p (_get_next_in_direction p.1 p.2 d).

(** The cell [n] steps away from [p], stepping by the label [d] each
    time. *)
Definition line (d : direction) (p : Z * Z) (n : nat) : Z * Z :=
  Nat.iter n (step d) p.

(** A cell a token can stand on: its tile is present and it holds no
    token. *)
Definition free (g : FishGame) (c : Z * Z) : Prop :=
  is_Some (tiles (grid g) !! c) /\ penguin_positions g !! c = None.

(** The coordinate that grows by one with every step by the label [d]. *)
Definition along (d : direction) (p : Z * Z) : Z :=
  match d with
  | E => p.2
  | W => - p.2
  | NE | NW => - p.1
  | SW | SE => p.1
  end.

Definition directions : list direction := [E; NE; NW; W; SW; SE].

(** ** The static evaluation, for a given player *)

(** The value of the position for the player [own] of index [i]: own
    score minus the mean score of the others, plus half the own mobility,
    minus three tenths of the mean mobility of the others. *)
Definition static_value (g : FishGame) (i : nat) (own : Player) : Qc :=
  let others := opponents i (players g) in
  let n := of_nat (length others) in
  let opponent_fish_total := foldr Z.add 0 (map fish_count others) in
  let opponent_mobility := list_sum (map (mobility_of g) others) in
  let score_term := (of_Z opponent_fish_total / n)%Qc in
  let mobility_term := (of_nat opponent_mobility / n)%Qc in
  match others with
  | [] => (of_Z (fish_count own) + of_nat (mobility_of g own) * Q2Qc (1 # 2))%Qc
  | _ => (of_Z (fish_count own) - score_term
          + of_nat (mobility_of g own) * Q2Qc (1 # 2)
          - mobility_term * Q2Qc (3 # 10))%Qc
  end.

(** ** Tokens and reachable states *)

(** The token of player [i] stands on [pos]: the dictionary of positions
    and the token list of the player both say so. *)
Definition token_at (g : FishGame) (pos : Z * Z) (i : nat) : Prop :=
  penguin_positions g !! pos = Some i /\
  exists p, players g !! i = Some p /\ pos ∈ penguins p.

(** The dictionary of positions and the token lists tell the same. *)
Definition consistent (g : FishGame) : Prop :=
  forall pos i,
    penguin_positions g !! pos = Some i <->
    exists p, players g !! i = Some p /\ pos ∈ penguins p.

(** No player holds a cell twice and no two players hold the same cell. *)
Definition tokens_disjoint (g : FishGame) : Prop :=
  (forall i p, players g !! i = Some p -> NoDup (penguins p)) /\
  (forall i j p q pos,
     players g !! i = Some p -> players g !! j = Some q ->
     pos ∈ penguins p -> pos ∈ penguins q -> i = j).

(** The invariant of the game object. *)
Definition well_formed (g : FishGame) : Prop :=
  consistent g /\
  (forall i p, players g !! i = Some p -> NoDup (penguins p)) /\
  (current_player_index g < length (players g))%nat.

(** The game object as [FishGame.__init__] and [_setup_game] leave it,
    on any board: no token, nothing selected, nothing animated, the
    depth of the search 3. *)
Definition initial (g : FishGame) : Prop :=
  players g <> [] /\
  Forall (fun p => penguins p = []) (players g) /\
  penguin_positions g = ∅ /\
  current_player_index g = O /\
  game_state g = PLACING_PENGUINS /\
  selected_penguin g = None /\
  valid_moves g = [] /\
  minimax_depth g = 3%nat /\
  animation_queue g = [] /\
  current_animation g = None.

(** The states of the program: what the handlers of the view make of the
    game object, call after call, as long as no call raises. A click is
    [on_mouse_press] at any cell; a frame is [on_update] with any pacing
    and any draw; at any time the settings view may set the depth of the
    search, from 1 to 5. Nothing is asked of a move but that the
    handlers apply it: a move that waits in [animation_queue] is applied
    by [on_update] as it was clicked. *)
Inductive reachable : FishGame -> Prop :=
| reach_initial g :
    initial g -> reachable g
| reach_click g r c g' :
    reachable g ->
    on_mouse_press r c g = Ok tt g' ->
    reachable g'
| reach_update g finished due choice g' :
    reachable g ->
    on_update finished due choice g = Ok tt g' ->
    reachable g'
| reach_set_depth g depth :
    reachable g -> (1 <= depth <= 5)%nat ->
    reachable (set_minimax_depth depth g).

(** The attributes a move or a search must not touch. *)
Definition untouched (g g' : FishGame) : Prop :=
  game_state g' = game_state g /\
  selected_penguin g' = selected_penguin g /\
  valid_moves g' = valid_moves g /\
  minimax_depth g' = minimax_depth g /\
  animation_queue g' = animation_queue g /\
  current_animation g' = current_animation g.

(** How many tokens each player has. *)
Definition shape (g : FishGame) : list nat :=
  map (fun p => length (penguins p)) (players g).

(** What every step of the search keeps: it leaves the attributes outside
    the search alone; when it returns, every player has as many tokens as
    before; when it raises, the exception is one of Python. *)
Definition steady {A} (m : M A) : Prop :=
  forall g,
    untouched g (final (m g)) /\
    match m g with
    | Ok _ g' => shape g' = shape g
    | Raise e _ => e <> OutOfFuel
    end.

(** The board, the tokens, the scores, the player to move and the phase. *)
Definition core (g : FishGame) :=
  (grid g, penguin_positions g, players g, current_player_index g, game_state g).

(** ** The move generator of the first draft

    [fish.py] follows a line by looking, among the existing neighbours of
    the current cell, for the one at the same [(dr, dc)] offset as the
    first step. It is kept here to compare it with the generator of the
    game. *)
Module Draft.

(** [HexGrid.get_neighbors]: the neighbours that have a tile. *)
Definition get_neighbors (h : HexGrid) (r c : Z) : list (Z * Z) :=
  let offsets :=
    if decide (c mod 2 = 0)
    then [(-1, 0); (-1, 1); (0, -1); (0, 1); (1, 0); (1, 1)]
    else [(-1, -1); (-1, 0); (0, -1); (0, 1); (1, -1); (1, 0)] in
  filter (fun pos => is_Some (tiles h !! pos))
         (map (fun '(dr, dc) => (r + dr, c + dc)) offsets).

(** The neighbour of [current] that continues the offset [(dr1, dc1)]. *)
Definition continue_line (h : HexGrid) (dr1 dc1 : Z) (current : Z * Z)
    : option (Z * Z) :=
  head (filter (fun pos => pos.1 - current.1 = dr1 /\ pos.2 - current.2 = dc1)
               (get_neighbors h current.1 current.2)).

(** The [while True] loop; [fuel] bounds its turns as in [trace]. *)
Fixpoint follow (g : FishGame) (dr1 dc1 : Z) (fuel : nat) (current : Z * Z)
    : list (Z * Z) :=
  match fuel with
  | O => []
  | S fuel' =>
    (if decide (is_Some (tiles (grid g) !! current)) then [current] else []) ++
    match continue_line (grid g) dr1 dc1 current with
    | None => []
    | Some next_pos =>
      if decide (is_Some (penguin_positions g !! next_pos)) then []
      else follow g dr1 dc1 fuel' next_pos
    end
  end.

Definition _get_valid_moves (g : FishGame) (start : Z * Z) : list (Z * Z) :=
  flat_map (fun neighbor =>
              if decide (is_Some (penguin_positions g !! neighbor)) then []
              else follow g (neighbor.1 - start.1) (neighbor.2 - start.2)
                          (S (size (tiles (grid g)))) neighbor)
           (get_neighbors (grid g) start.1 start.2).

End Draft.

(** ** Sample positions

    Two players on the board of 6 rows and 8 columns, four tokens each.
    Player 0 is at the keyboard, player 1 is the computer, as the landing
    page sets them up. *)

(** Tiles with one fish each. *)
Definition ones (l : list (Z * Z)) : list ((Z * Z) * Z) :=
  map (fun pos => (pos, 1)) l.

Definition board (l : list ((Z * Z) * Z)) : HexGrid :=
  mkHexGrid 6 8 (list_to_map (map (fun '(pos, f) => (pos, Tile_ pos.1 pos.2 f)) l)).

(** The tokens of player 0 in [human] and of player 1 in [computer],
    nothing selected, nothing animated. *)
Definition position (phase : GameState) (h : HexGrid)
    (human computer : list (Z * Z)) (scores : Z * Z) (turn depth : nat)
    : FishGame :=
  mkFishGame phase
    [mkPlayer "Player 1" "red" 25 false scores.1 human;
     mkPlayer "Player 2" "yellow" 26 true scores.2 computer]
    turn None [] h
    (list_to_map (map (fun pos => (pos, 0%nat)) human ++
                  map (fun pos => (pos, 1%nat)) computer))
    depth [] None.

(** Four cells of the last row, no two of them neighbours: where the
    tokens of player 0 end up. *)
Definition south : list (Z * Z) := [(5, 1); (5, 3); (5, 5); (5, 7)].

(** Three rich tiles of row 3, no two of them neighbours: where the
    computer puts three of its tokens. *)
Definition middle : list ((Z * Z) * Z) := [((3,6),3); ((3,3),3); ((3,0),3)].

(** The board of the corridor game as it is generated: six tiles in row
    0, the richest at its west end, rich tiles in row 3, and five tiles
    in the south-east. *)
Definition corridor_board : HexGrid :=
  board ([((0,0),3)] ++ ones [(0,1); (0,2); (0,3); (0,4); (0,5)] ++ middle
         ++ ones south ++ ones [(4,7)]).

(** The game object after [_setup_game]. *)
Definition opening (h : HexGrid) : FishGame :=
  position PLACING_PENGUINS h [] [] (0, 0) 0 3.

(** The corridor game after the eight placements and the first move, of
    player 0 from [(4, 7)] to [(5, 7)]: the computer is to move, its
    token at [(0, 0)] is the only token that can move. *)
Definition corridor : FishGame :=
  position PLAYING
    (board ([((0,0),3)] ++ ones [(0,1); (0,2); (0,3); (0,4); (0,5)] ++ middle
            ++ ones south))
    south [(3, 6); (0, 0); (3, 3); (3, 0)] (1, 0) 1 3.

(** The same game on a board whose row 0 has three tiles: the computer
    has two moves left, then the game is over. *)
Definition endgame_board : HexGrid :=
  board ([((0,0),3)] ++ ones [(0,1); (0,2)] ++ middle ++ ones south ++ ones [(4,7)]).

Definition endgame (depth : nat) : FishGame :=
  position PLAYING
    (board ([((0,0),3)] ++ ones [(0,1); (0,2)] ++ middle ++ ones south))
    south [(3, 6); (0, 0); (3, 3); (3, 0)] (1, 0) 1 depth.

(** [endgame] after the search has made both moves of the computer and
    passed the turn: the game is over and player 0 is to move. *)
Definition endgame_leaf (depth : nat) : FishGame :=
  position PLAYING
    (board (ones [(0,2)] ++ middle ++ ones south))
    south [(3, 6); (3, 3); (3, 0); (0, 2)] (1, 4) 0 depth.

(** The same game on a board where two tokens of the computer can move:
    the one at [(0, 0)], from a tile of 2 fish, and the next in its list,
    at [(3, 3)], from a tile of 3 fish. The search looks one move ahead. *)
Definition two_movers_board : HexGrid :=
  board ([((0,0),2)] ++ ones [(0,1)] ++ middle ++ ones [(3,4)]
         ++ ones south ++ ones [(4,7)]).

Definition two_movers : FishGame :=
  position PLAYING
    (board ([((0,0),2)] ++ ones [(0,1)] ++ middle ++ ones [(3,4)] ++ ones south))
    south [(3, 6); (0, 0); (3, 3); (3, 0)] (1, 0) 1 1.

(** A position to try single operations on: the first token of the
    computer can move to one tile. *)
Definition two_tokens : FishGame :=
  position PLAYING
    (board ([((0,0),3); ((0,1),1); ((2,2),2); ((3,0),1); ((3,6),1)] ++ ones south))
    south [(0, 0); (2, 2); (3, 0); (3, 6)] (20, 20) 1 3.

(** A token of player 0 in an even column with two tiles on its
    north-east line. *)
Definition north_east : FishGame :=
  position PLAYING
    (board (ones [(2,2); (1,3); (0,3); (5,3); (5,5); (5,7); (1,6)] ++ middle))
    [(2, 2); (5, 3); (5, 5); (5, 7)] [(1, 6); (3, 6); (3, 3); (3, 0)] (20, 20) 0 3.

(** A temporary move and its undo, as the search pairs them. *)
Definition temp_move_and_undo (from_pos to_pos : Z * Z) : M unit :=
  (let* fish_collected := _make_temp_move from_pos to_pos in
   _undo_temp_move from_pos to_pos fish_collected)%py.

(** The start of the three sample games, as the handlers make it:
    player 0 clicks on [(5, 1)], [(5, 3)], [(5, 5)] and [(4, 7)]; after
    each click a frame lets the computer draw, [(3, 6)], [(0, 0)],
    [(3, 3)] and [(3, 0)] among its best three tiles; then player 0
    clicks on the token at [(4, 7)] and on [(5, 7)], and a frame ends
    the animation. *)
Definition first_moves : M unit :=
  (do on_mouse_press 5 1 then
   do on_update false true 0 then
   do on_mouse_press 5 3 then
   do on_update false true 2 then
   do on_mouse_press 5 5 then
   do on_update false true 0 then
   do on_mouse_press 4 7 then
   do on_update false true 0 then
   do on_mouse_press 4 7 then
   do on_mouse_press 5 7 then
   on_update true false 0)%py.

(** ** A game with hasty clicks

    A board on which two tokens of player 0 can slide to the same cell,
    [(0, 1)], and a token of the computer can move along row 3. *)
Definition hasty_board : HexGrid :=
  board (ones [(0,0); (0,1); (0,2); (1,0); (1,1); (3,4); (3,5); (5,5); (5,7)]
         ++ middle ++ [((1,6),3)]).

(** The eight placements: player 0 clicks on [(0, 0)], [(0, 2)],
    [(5, 5)] and [(5, 7)], the computer draws its best tile each time. *)
Definition hasty_placements : M unit :=
  (do on_mouse_press 0 0 then
   do on_update false true 0 then
   do on_mouse_press 0 2 then
   do on_update false true 0 then
   do on_mouse_press 5 5 then
   do on_update false true 0 then
   do on_mouse_press 5 7 then
   on_update false true 0)%py.

(** Four clicks before the first animation ends: the token at [(0, 0)]
    and its destination [(0, 1)], the token at [(0, 2)] and the same
    destination. *)
Definition hasty_clicks : M unit :=
  (do on_mouse_press 0 0 then
   do on_mouse_press 0 1 then
   do on_mouse_press 0 2 then
   on_mouse_press 0 1)%py.

(** One more move of player 0, from [(0, 1)] to [(1, 1)]: two clicks and
    the frame that ends the animation. *)
Definition one_more_move : M unit :=
  (do on_mouse_press 0 1 then
   do on_mouse_press 1 1 then
   on_update true false 0)%py.

(** The game after the placements: player 0 is to move. *)
Definition hasty_start : FishGame :=
  position PLAYING hasty_board
    [(0, 0); (0, 2); (5, 5); (5, 7)] [(3, 6); (3, 3); (3, 0); (1, 6)] (0, 0) 0 3.

(** The game when the first animation has ended, and when both have. *)
Definition hasty_first : FishGame :=
  final ((do hasty_clicks then on_update true false 0)%py hasty_start).

Definition hasty_double : FishGame :=
  final (on_update true false 0 hasty_first).

(** The game after one more move of player 0: the computer is to
    move. *)
Definition hasty_stale : FishGame :=
  final (one_more_move hasty_double).

(** ** The cells of a line, in closed form *)

(** The cell [n] steps (one at least) from [p] by the label [d]. A
    diagonal label changes the column on its first step only, and only
    from an even column to the east or from an odd column to the west;
    after that the walk stays in one column. *)
Definition slide (d : direction) (p : Z * Z) (n : Z) : Z * Z :=
  match d with
  | E => (p.1, p.2 + n)
  | W => (p.1, p.2 - n)
  | NE => if decide (p.2 mod 2 = 0) then (p.1 - n, p.2 + 1) else (p.1 - n, p.2)
  | NW => if decide (p.2 mod 2 = 0) then (p.1 - n, p.2) else (p.1 - n, p.2 - 1)
  | SW => if decide (p.2 mod 2 = 0) then (p.1 + n, p.2) else (p.1 + n, p.2 - 1)
  | SE => if decide (p.2 mod 2 = 0) then (p.1 + n, p.2 + 1) else (p.1 + n, p.2)
  end.

(** ** Whose turn is next *)

(** The test of [_next_turn] on the player of index [i]: one of its
    tokens has a destination. *)
Definition movable (g : FishGame) (i : nat) : bool :=
  match players g !! i with
  | Some player => existsb (can_move g) (penguins player)
  | None => false
  end.

(** The first player with a destination among the [remaining] players
    that follow the index [i] in the round of [n] players. *)
Fixpoint first_movable (g : FishGame) (n i remaining : nat) : option nat :=
  match remaining with
  | O => None
  | S remaining' =>
    let j := ((i + 1) mod n)%nat in
    if movable g j then Some j else first_movable g n j remaining'
  end.

(** ** Placing in turn *)

(** The game object when [_place_penguin_at] has recorded the token of
    the player to move, [player], on [(r, c)] and passed the turn, before
    it compares the number of tokens with the quota. *)
Definition placed (r c : Z) (player : Player) (g : FishGame) : FishGame :=
  set_current_player_index
    ((current_player_index g + 1) mod length (players g))%nat
    (set_player (current_player_index g)
       (set_penguins (penguins player ++ [(r, c)]) player)
       (set_penguin_positions
          (<[(r, c) := current_player_index g]> (penguin_positions g)) g)).

(** While tokens are placed in turn, the players before the one to move
    have [k + 1] tokens and the others [k]. *)
Definition round_robin (g : FishGame) (k : nat) : Prop :=
  shape g = replicate (current_player_index g) (S k) ++
            replicate (length (players g) - current_player_index g) k.

(** What the phases say about the number of tokens, among at most five
    players: while placing, the tokens have been placed in turn and the
    quota of [6 - len(players)] tokens each is not yet reached; after
    that, every player has exactly the quota. *)
Definition quota_kept (g : FishGame) : Prop :=
  game_state g <> SETUP /\
  (game_state g = PLACING_PENGUINS ->
   exists k, (k < 6 - length (players g))%nat /\ round_robin g k) /\
  (game_state g <> PLACING_PENGUINS ->
   shape g = replicate (length (players g)) (6 - length (players g))%nat).

(** ** Tiles under the tokens, fish on the board *)

(** Every token stands on a tile. *)
Definition grounded (g : FishGame) : Prop :=
  forall pos i, penguin_positions g !! pos = Some i ->
                is_Some (tiles (grid g) !! pos).

(** The fish still on the board and the fish the players have taken. *)
Definition fish_on_board (h : HexGrid) : Z :=
  map_fold (fun _ tile acc => fish tile + acc) 0 (tiles h).

Definition fish_taken (g : FishGame) : Z :=
  foldr Z.add 0 (map fish_count (players g)).

(** ** The winners *)

(** [max(p.fish_count for p in self.players)]; [None] for the
    [ValueError] of an empty sequence. *)
Definition max_fish (ps : list Player) : option Z :=
  match ps with
  | [] => None
  | p :: ps' => Some (foldl Z.max (fish_count p) (map fish_count ps'))
  end.

(** The list [winners] that [_end_game] hands to the game-over view. *)
Definition winners (g : FishGame) : option (list Player) :=
  match max_fish (players g) with
  | None => None
  | Some m => Some (filter (fun p => fish_count p = m) (players g))
  end.

(** ** What the search leaves behind *)

(** Two game objects that show the same position: the same tokens on the
    same cells, tiles on the same cells, the same player to move, and
    for every player the same tokens in the list, in any order. The
    search leaves such an object after every temporary move it has
    undone. *)
Definition alike (g g' : FishGame) : Prop :=
  penguin_positions g' = penguin_positions g /\
  (forall pos, is_Some (tiles (grid g') !! pos) <-> is_Some (tiles (grid g) !! pos)) /\
  Forall2 (fun p p' => penguins p' ≡ₚ penguins p) (players g) (players g') /\
  current_player_index g' = current_player_index g.

(** The invariant of the game together with the tiles under the tokens. *)
Definition sound (g : FishGame) : Prop := well_formed g /\ grounded g.

(** A move of the player to move that the move generator offers. *)
Definition legal (g : FishGame) (move : (Z * Z) * (Z * Z)) : Prop :=
  penguin_positions g !! move.1 = Some (current_player_index g) /\
  move.2 ∈ _get_valid_moves g move.1.

(** The computation [m] returns in [g], with a result that satisfies [Q],
    and leaves a game object that shows the position of [g]. *)
Definition returns {A} (Q : A -> Prop) (m : M A) (g : FishGame) : Prop :=
  exists a g', m g = Ok a g' /\ alike g g' /\ Q a.

(** One child of the root of the search, and the same with the turn
    passed around the recursive call. *)
Definition probe (rec : M score) (penguin_pos move_pos : Z * Z) : M score :=
  (let* fish_collected := _make_temp_move penguin_pos move_pos in
   let* s := rec in
   do _undo_temp_move penguin_pos move_pos fish_collected then
   ret s)%py.

Definition in_turn (rec : M score) : M score :=
  (do rotate 1 then
   let* s := rec in
   do rotate (-1) then
   ret s)%py.

(** What is known of the value [_minimax] returns from its depth: a
    leaf is valued by the evaluation, a finite number; one level above, a
    minimizing node returns a finite number or [float('inf')]. *)
Definition value_at (depth : nat) (maximizing_player : bool) (s : score) : Prop :=
  (depth = O -> exists q, s = fin q) /\
  (depth = 1%nat -> maximizing_player = false -> s <> neg_inf).

(** What the loops of [_ai_make_move] know of their state in the game
    [g]: a move they hold is a legal move of [g], and they hold no move
    only as long as the best score is [float('-inf')]. *)
Definition search_ok (g : FishGame) (st : search) : Prop :=
  (forall move, best_move st = Some move -> legal g move) /\
  (best_move st = None -> best_score st = neg_inf).

(** The values of the children of the root are never [float('-inf')]. *)
Definition strict (depth : nat) : Prop :=
  forall s, value_at (depth - 1) false s -> s <> neg_inf.

(** ** The computer of the first draft

    In [fish.py] the computer looks one move ahead: it values every move
    of its tokens with [_evaluate_move] and plays the first of the best. *)
Module Greedy.

(** [_hex_distance]: offset coordinates to cube coordinates, by the
    parity of the row, then half the sum of the three differences. [&]
    and [//] are Python's, on integers of any sign. *)
Definition _hex_distance (pos1 pos2 : Z * Z) : Z :=
  let '(r1, c1) := pos1 in
  let '(r2, c2) := pos2 in
  let x1 := c1 - (r1 - Z.land r1 1) / 2 in
  let z1 := r1 in
  let y1 := - x1 - z1 in
  let x2 := c2 - (r2 - Z.land r2 1) / 2 in
  let z2 := r2 in
  let y2 := - x2 - z2 in
  (Z.abs (x1 - x2) + Z.abs (y1 - y2) + Z.abs (z1 - z2)) / 2.

(** The largest of the three cube differences, of which two are given. *)
Definition cube_norm (a b : Z) : Z :=
  Z.max (Z.abs a) (Z.max (Z.abs b) (Z.abs (a + b))).

(** The test [if self._get_valid_moves(...)] on the generator of the
    draft. *)
Definition can_move (g : FishGame) (penguin_pos : Z * Z) : bool :=
  match Draft._get_valid_moves g penguin_pos with
  | [] => false
  | _ :: _ => true
  end.

(** The [while True] loop of [_next_turn]: it ends when a player can
    move or when the turn is back at [original_player]. [fuel] bounds
    its turns; [OutOfFuel] marks a loop that made more. *)
Fixpoint next_turn_loop (original_player fuel : nat) : M unit :=
  match fuel with
  | O => raise OutOfFuel
  | S fuel' =>
    (do rotate 1 then
     let* g := get in
     let* player := player_at (current_player_index g) in
     if existsb (can_move g) (penguins player) then ret tt
     else if decide (current_player_index g = original_player) then _end_game
     else next_turn_loop original_player fuel')%py
  end.

Definition _next_turn : M unit :=
  fun g => next_turn_loop (current_player_index g) (length (players g)) g.

(** The loop that finds [min_distance]: [None] is [float('inf')]. *)
Definition min_distance (from_pos to_pos : Z * Z) (tokens : list (Z * Z))
    : option Z :=
  foldl (fun acc other_penguin_pos =>
           if decide (other_penguin_pos <> from_pos) then
             let dist := _hex_distance to_pos other_penguin_pos in
             Some (match acc with
                   | None => dist
                   | Some m => Z.min m dist
                   end)
           else acc)
        None tokens.

(** [_evaluate_move]; the weights 0.5, 0.2 and 0.3 are the rationals
    1/2, 1/5 and 3/10. *)
Definition _evaluate_move (from_pos to_pos : Z * Z) : M Qc :=
  (let* g := get in
   let score0 := match tiles (grid g) !! from_pos with
                 | Some tile => fish tile
                 | None => 0
                 end in
   let future_moves := length (Draft._get_valid_moves g to_pos) in
   let score1 := (of_Z score0 + of_nat future_moves * Q2Qc (1 # 2))%Qc in
   let score2 :=
     foldl (fun score neighbor =>
              match tiles (grid g) !! neighbor with
              | Some neighbor_tile =>
                match penguin_positions g !! neighbor with
                | None => (score + of_Z (fish neighbor_tile) * Q2Qc (1 # 5))%Qc
                | Some _ => score
                end
              | None => score
              end)
           score1 (Draft.get_neighbors (grid g) to_pos.1 to_pos.2) in
   let* current_player := player_at (current_player_index g) in
   match min_distance from_pos to_pos (penguins current_player) with
   | Some m => ret (score2 + of_Z (Z.max 0 (5 - m)) * Q2Qc (3 # 10))%Qc
   | None => ret score2
   end)%py.

(** The loops of [_ai_make_move] on [(best_move, best_score)]. *)
Fixpoint over_moves (penguin_pos : Z * Z) (moves : list (Z * Z))
    (st : option ((Z * Z) * (Z * Z)) * Qc) : M (option ((Z * Z) * (Z * Z)) * Qc) :=
  match moves with
  | [] => ret st
  | move_pos :: moves' =>
    (let* score := _evaluate_move penguin_pos move_pos in
     if negb (Qle_bool score st.2)
     then over_moves penguin_pos moves' (Some (penguin_pos, move_pos), score)
     else over_moves penguin_pos moves' st)%py
  end.

Fixpoint over_penguins (tokens : list (Z * Z))
    (st : option ((Z * Z) * (Z * Z)) * Qc) : M (option ((Z * Z) * (Z * Z)) * Qc) :=
  match tokens with
  | [] => ret st
  | penguin_pos :: tokens' =>
    (let* g := get in
     let* st' := over_moves penguin_pos (Draft._get_valid_moves g penguin_pos) st in
     over_penguins tokens' st')%py
  end.

(** [_ai_make_move] up to the choice of [best_move]; nothing is written
    while the moves are valued. *)
Definition choose : M (option ((Z * Z) * (Z * Z))) :=
  (let* g := get in
   let* current_player := player_at (current_player_index g) in
   let* st := over_penguins (penguins current_player) (None, of_Z (-1)) in
   ret st.1)%py.

Definition _ai_make_move : M unit :=
  (let* best_move := choose in
   match best_move with
   | Some (from_pos, to_pos) =>
     do _move_penguin from_pos to_pos then _next_turn
   | None => ret tt
   end)%py.

End Greedy.

(** ** The walk of the first draft, cell by cell *)

(** The cell [k] times the offset [(dr, dc)] away from [p]. *)
Definition shift (dr dc : Z) (p : Z * Z) (k : nat) : Z * Z :=
  (p.1 + Z.of_nat k * dr, p.2 + Z.of_nat k * dc).

(** The first step by the label [d] from [p] keeps the row or the
    column. *)
Definition straight (d : direction) (p : Z * Z) : Prop :=
  (slide d p 1).1 = p.1 \/ (slide d p 1).2 = p.2.

(** What the loops of the draft's [_ai_make_move] know of their state
    for the player [p] to move: no move and the score -1, or a move of a
    token of [p] that the generator of the draft offers, and a score
    that is not negative. *)
Definition greedy_ok (g : FishGame) (p : Player)
    (st : option ((Z * Z) * (Z * Z)) * Qc) : Prop :=
  (st.1 = None /\ st.2 = of_Z (-1)) \/
  (exists a b, st.1 = Some (a, b) /\ (0 <= st.2)%Qc /\
     a ∈ penguins p /\ b ∈ Draft._get_valid_moves g a).

(** ** Selection and animation bookkeeping *)

(** The game object [g] with the selection of the view and its
    animations replaced. *)
Definition with_aux (selected : option (Z * Z)) (moves : list (Z * Z))
    (queue : list ((Z * Z) * (Z * Z) * nat))
    (animation : option ((Z * Z) * (Z * Z) * nat)) (g : FishGame) : FishGame :=
  mkFishGame (game_state g) (players g) (current_player_index g) selected moves
    (grid g) (penguin_positions g) (minimax_depth g) queue animation.

(** An outcome with its game object changed by [f]. *)
Definition lift {A} (f : FishGame -> FishGame) (o : outcome A) : outcome A :=
  match o with
  | Ok a g => Ok a (f g)
  | Raise e g => Raise e (f g)
  end.

(** A move at the keyboard: a click on a token, a click on a cell, and
    the frame that ends the animation. *)
Definition human_move (from_pos to_pos : Z * Z) : M unit :=
  (do on_mouse_press from_pos.1 from_pos.2 then
   do on_mouse_press to_pos.1 to_pos.2 then
   on_update true false 0)%py.

(** The turn of the computer: the frame in which its timer is due, and
    the frame that ends the animation of the move it has chosen. *)
Definition computer_move : M unit :=
  (do on_update false true 0 then on_update true false 0)%py.

(** The corridor game when the eight tokens are placed: player 0, at the
    keyboard, is to move. *)
Definition corridor_start : FishGame :=
  position PLAYING corridor_board [(5, 1); (5, 3); (5, 5); (4, 7)]
    [(3, 6); (0, 0); (3, 3); (3, 0)] (0, 0) 0 3.

(** ** The landing page and the start of a game *)

Module Landing.

(** The attributes of [LandingPageView] that decide who plays. *)
Record LandingPageView := mkLandingPageView {
  num_players : nat;
  selected_colors : list (option string)
}.

Definition player_colors : list string := ["red"; "yellow"; "blue"; "green"].

(** The counts shown on the page, [penguin_counts]. *)
Definition penguin_counts (n : nat) : option nat :=
  match n with
  | 2 => Some 4
  | 3 => Some 3
  | 4 => Some 2
  | _ => None
  end%nat.

Definition __init__ : LandingPageView :=
  mkLandingPageView 2 [None; None; None; None].

Definition on_player_count_click (num : nat) (v : LandingPageView)
    : LandingPageView :=
  mkLandingPageView num [None; None; None; None].

(** The loop of [on_color_select] over [range(self.num_players)] from
    [i] on: [Some true] when the colour is taken by another player,
    [None] for the [IndexError] of [self.selected_colors[i]]. *)
Fixpoint taken (color_name : string) (player_idx : nat)
    (selected : list (option string)) (i count : nat) : option bool :=
  match count with
  | O => Some false
  | S count' =>
    if decide (i <> player_idx) then
      match selected !! i with
      | None => None
      | Some chosen =>
        if decide (chosen = Some color_name) then Some true
        else taken color_name player_idx selected (S i) count'
      end
    else taken color_name player_idx selected (S i) count'
  end.

(** [on_color_select]; [None] is [IndexError]. *)
Definition on_color_select (player_idx color_idx : nat) (v : LandingPageView)
    : option LandingPageView :=
  match player_colors !! color_idx with
  | None => None
  | Some color_name =>
    match taken color_name player_idx (selected_colors v) 0 (num_players v) with
    | None => None
    | Some true => Some v
    | Some false =>
      if decide (player_idx < length (selected_colors v))%nat
      then Some (mkLandingPageView (num_players v)
                   (<[player_idx := Some color_name]> (selected_colors v)))
      else None
    end
  end.

(** [str(n)] for a natural number: its decimal digits. *)
Fixpoint digits (fuel n : nat) (acc : string) : string :=
  match fuel with
  | O => acc
  | S fuel' =>
    let acc' := String (Ascii.ascii_of_nat (48 + n mod 10)) acc in
    if decide (n / 10 = 0)%nat then acc' else digits fuel' (n / 10)%nat acc'
  end.

Definition str (n : nat) : string := digits (S n) n EmptyString.

(** [Player(name=f"Player {i+1}", color=..., age=25 + i, is_ai=(i > 0))]:
    no fish, no tokens. *)
Definition new_player (i : nat) (color_name : string) : Player :=
  mkPlayer ("Player " +:+ str (i + 1)) color_name (25 + Z.of_nat i)
           (bool_decide (0 < i)%nat) 0 [].

(** The two loops of [on_start_game] from [i] on: [Some None] when a
    player has no colour yet, [None] for [IndexError]. *)
Fixpoint all_selected (selected : list (option string)) (i count : nat)
    : option bool :=
  match count with
  | O => Some true
  | S count' =>
    match selected !! i with
    | None => None
    | Some None => Some false
    | Some (Some _) => all_selected selected (S i) count'
    end
  end.

Fixpoint create_players (selected : list (option string)) (i count : nat)
    : list Player :=
  match count with
  | O => []
  | S count' =>
    match selected !! i with
    | Some (Some color_name) =>
      new_player i color_name :: create_players selected (S i) count'
    | _ => []
    end
  end.

(** [on_start_game]: the players handed to [FishGame], [Some None] when
    the click is ignored, [None] for [IndexError]. *)
Definition on_start_game (v : LandingPageView) : option (option (list Player)) :=
  match all_selected (selected_colors v) 0 (num_players v) with
  | None => None
  | Some false => Some None
  | Some true => Some (Some (create_players (selected_colors v) 0 (num_players v)))
  end.

(** [list.sort(key=lambda p: p.age)]: the stable sort, by insertion. *)
Fixpoint insert_by_age (p : Player) (l : list Player) : list Player :=
  match l with
  | [] => [p]
  | q :: l' => if decide (age p <= age q) then p :: q :: l'
               else q :: insert_by_age p l'
  end.

Definition sort_by_age (l : list Player) : list Player :=
  foldr insert_by_age [] l.

(** [FishGame(players)]: the constructor and [_setup_game], on the board
    [h] that [HexGrid(6, 8)] has drawn. *)
Definition _setup_game (players0 : list Player) (h : HexGrid) : FishGame :=
  let players1 :=
    match players0 with
    | [] => [mkPlayer "Player" "red" 25 false 0 [];
             mkPlayer "AI" "yellow" 30 true 0 []]
    | _ => players0
    end in
  mkFishGame PLACING_PENGUINS
    (map (set_penguins []) (sort_by_age players1))
    0 None [] h ∅ 3 [] None.

(** The pages a user can reach: the clicks on the buttons of the page. *)
Inductive shown : LandingPageView -> Prop :=
| shown_init : shown __init__
| shown_count v num :
    shown v -> num ∈ [2; 3; 4]%nat -> shown (on_player_count_click num v)
| shown_color v player_idx color_idx v' :
    shown v -> (player_idx < num_players v)%nat -> (color_idx < 4)%nat ->
    on_color_select player_idx color_idx v = Some v' -> shown v'.

End Landing.

(** What every page shown keeps: four slots, two to four players, no
    colour in two slots, colours of the page in the slots of the players
    only. *)
Definition tidy (v : Landing.LandingPageView) : Prop :=
  length (Landing.selected_colors v) = 4%nat /\
  Landing.num_players v ∈ [2; 3; 4]%nat /\
  (forall i j c,
     Landing.selected_colors v !! i = Some (Some c) ->
     Landing.selected_colors v !! j = Some (Some c) -> i = j) /\
  (forall i c,
     Landing.selected_colors v !! i = Some (Some c) ->
     (i < Landing.num_players v)%nat /\ c ∈ Landing.player_colors).

(** ** The board as it is generated *)

(** [HexGrid._generate_tiles]. What the random generator gives for a
    cell is [draw row col]: [None] when [random.random() < 0.1] leaves
    the cell out, [Some n] when [random.randint(1, 3)] gives [n]. *)
Definition _generate_tiles (rows cols : Z) (draw : Z -> Z -> option Z)
    : gmap (Z * Z) Tile :=
  foldl (fun tiles r =>
           foldl (fun tiles c =>
                    match draw r c with
                    | None => tiles
                    | Some fish_count => <[(r, c) := Tile_ r c fish_count]> tiles
                    end)
                 tiles (seqZ 0 cols))
        ∅ (seqZ 0 rows).

(** [HexGrid(rows, cols)] *)
Definition HexGrid_ (rows cols : Z) (draw : Z -> Z -> option Z) : HexGrid :=
  mkHexGrid rows cols (_generate_tiles rows cols draw).

(** ** The search on snapshots

    In [fish1.py] the search does not edit the game: [MinimaxAI] works
    on copies, [GameStateSnapshot], and remembers values in a
    transposition table. *)
Module MinimaxAI.

Record Move := mkMove {
  from_pos : Z * Z;
  to_pos : Z * Z;
  fish_gained : Z
}.

(** The dictionary [penguin_positions] of a snapshot, in insertion
    order: the order decides in which order the moves are tried. *)
Definition odict := list ((Z * Z) * nat).

Fixpoint od_get (k : Z * Z) (d : odict) : option nat :=
  match d with
  | [] => None
  | (k', v) :: d' => if decide (k' = k) then Some v else od_get k d'
  end.

(** [del d[k]] for a key that is there. *)
Definition od_del (k : Z * Z) (d : odict) : odict :=
  filter (fun kv => kv.1 <> k) d.

(** [d[k] = v]: a key that is there keeps its place, a new key goes to
    the end. *)
Fixpoint od_set (k : Z * Z) (v : nat) (d : odict) : odict :=
  match d with
  | [] => [(k, v)]
  | (k', v') :: d' =>
    if decide (k' = k) then (k, v) :: d' else (k', v') :: od_set k v d'
  end.

Record GameStateSnapshot := mkGameStateSnapshot {
  tiles : gmap (Z * Z) Tile;
  penguin_positions : odict;
  player_scores : list Z;
  current_player : nat
}.

(** A value or an exception. *)
Inductive try (A : Type) :=
| Done (a : A)
| Fail (e : exn).
Arguments Done {A} a.
Arguments Fail {A} e.

(** [l[i]] for an integer of any sign. *)
Definition py_index (l : list Z) (i : Z) : try Z :=
  let j := if decide (i < 0) then Z.of_nat (length l) + i else i in
  if decide (0 <= j) then
    match l !! Z.to_nat j with
    | Some x => Done x
    | None => Fail IndexError
    end
  else Fail IndexError.

(** The [while True] loop of [_get_valid_moves]; the neighbours are
    those of the grid of the game, the tiles and the tokens those of the
    snapshot. [fuel] bounds the turns of the loop. *)
Fixpoint follow (state : GameStateSnapshot) (grid : HexGrid) (dr1 dc1 : Z)
    (fuel : nat) (current : Z * Z) : list (Z * Z) :=
  match fuel with
  | O => []
  | S fuel' =>
    (if decide (is_Some (tiles state !! current)) then [current] else []) ++
    match Draft.continue_line grid dr1 dc1 current with
    | None => []
    | Some next_pos =>
      if decide (is_Some (tiles state !! next_pos) /\
                 od_get next_pos (penguin_positions state) = None)
      then follow state grid dr1 dc1 fuel' next_pos
      else []
    end
  end.

Definition _get_valid_moves (state : GameStateSnapshot) (grid : HexGrid)
    (start_pos : Z * Z) : list (Z * Z) :=
  flat_map (fun neighbor =>
              if decide (od_get neighbor (penguin_positions state) = None /\
                         is_Some (tiles state !! neighbor))
              then follow state grid (neighbor.1 - start_pos.1)
                          (neighbor.2 - start_pos.2)
                          (S (size (tiles state))) neighbor
              else [])
           (Draft.get_neighbors grid start_pos.1 start_pos.2).

Definition _get_all_moves (state : GameStateSnapshot) (grid : HexGrid)
    (player_index : nat) : list Move :=
  let player_penguins :=
    (filter (fun kv => kv.2 = player_index) (penguin_positions state)).*1 in
  flat_map (fun penguin_pos =>
              map (fun move_pos =>
                     mkMove penguin_pos move_pos
                       match tiles state !! penguin_pos with
                       | Some tile => fish tile
                       | None => 0
                       end)
                  (_get_valid_moves state grid penguin_pos))
           player_penguins.

Definition _apply_move (state : GameStateSnapshot) (move : Move)
    : try GameStateSnapshot :=
  match od_get (from_pos move) (penguin_positions state) with
  | None => Fail KeyError
  | Some player_index =>
    let new_positions := od_del (from_pos move) (penguin_positions state) in
    let new_tiles := delete (from_pos move) (tiles state) in
    match player_scores state !! player_index with
    | None => Fail IndexError
    | Some old =>
      let new_scores :=
        <[player_index := old + fish_gained move]> (player_scores state) in
      Done (mkGameStateSnapshot new_tiles
              (od_set (to_pos move) player_index new_positions)
              new_scores
              ((current_player state + 1) mod 2)%nat)
    end
  end.

(** The sum of [tile.fish / (distance + 1)] over the tiles without a
    token that are at most 3 away from [penguin_pos], rows and columns
    counted. *)
Definition near_fish (state : GameStateSnapshot) (penguin_pos : Z * Z) : Qc :=
  map_fold (fun pos tile acc =>
              if decide (od_get pos (penguin_positions state) = None) then
                let distance := Z.abs (pos.1 - penguin_pos.1) +
                                Z.abs (pos.2 - penguin_pos.2) in
                if decide (distance <= 3)
                then (acc + of_Z (fish tile) / of_Z (distance + 1))%Qc
                else acc
              else acc)
           (Q2Qc 0) (tiles state).

(** [_evaluate_state]. The attribute [_temp_grid] is never set, so both
    move counts are 0. *)
Definition _evaluate_state (state : GameStateSnapshot) (ai_player : nat)
    : try Qc :=
  let opponent := 1 - Z.of_nat ai_player in
  match py_index (player_scores state) (Z.of_nat ai_player) with
  | Fail e => Fail e
  | Done own =>
    match py_index (player_scores state) opponent with
    | Fail e => Fail e
    | Done other =>
      let score_diff := own - other in
      let ai_moves := 0 in
      let opponent_moves := 0 in
      let mobility_advantage := (of_Z (ai_moves - opponent_moves) * Q2Qc (1 # 2))%Qc in
      let ai_penguins :=
        (filter (fun kv => kv.2 = ai_player) (penguin_positions state)).*1 in
      let position_value :=
        foldl (fun acc penguin_pos => (acc + near_fish state penguin_pos)%Qc)
              (Q2Qc 0) ai_penguins in
      Done (of_Z score_diff + mobility_advantage
            + position_value * Q2Qc (1 # 10))%Qc
    end
  end.

(** [_get_state_key]. The string holds the sorted keys of the tiles, the
    sorted items of the positions, the scores and the player to move;
    two keys are equal exactly when these four are, so the key is the
    set of the tile coordinates, the positions as a finite map, the
    scores and the player. *)
Definition state_key : Type :=
  gset (Z * Z) * gmap (Z * Z) nat * list Z * nat.

Definition _get_state_key (state : GameStateSnapshot) : state_key :=
  (dom (tiles state), list_to_map (penguin_positions state),
   player_scores state, current_player state).

(** The transposition table, and a computation that reads and writes
    it. *)
Definition table := gmap state_key score.

Inductive res (A : Type) :=
| Val (a : A) (t : table)
| Err (e : exn).
Arguments Val {A} a t.
Arguments Err {A} e.

(** The loop of the maximizing branch on [(max_eval, alpha)], and the
    loop of the minimizing branch on [(min_eval, beta)]. *)
Fixpoint max_loop (rec : GameStateSnapshot -> score -> score -> table -> res score)
    (state : GameStateSnapshot) (moves : list Move)
    (max_eval alpha beta : score) (t : table) : res score :=
  match moves with
  | [] => Val max_eval t
  | move :: moves' =>
    match _apply_move state move with
    | Fail e => Err e
    | Done new_state =>
      match rec new_state alpha beta t with
      | Err e => Err e
      | Val eval_score t' =>
        let max_eval' := score_max max_eval eval_score in
        let alpha' := score_max alpha eval_score in
        if score_le beta alpha' then Val max_eval' t'
        else max_loop rec state moves' max_eval' alpha' beta t'
      end
    end
  end.

Fixpoint min_loop (rec : GameStateSnapshot -> score -> score -> table -> res score)
    (state : GameStateSnapshot) (moves : list Move)
    (min_eval alpha beta : score) (t : table) : res score :=
  match moves with
  | [] => Val min_eval t
  | move :: moves' =>
    match _apply_move state move with
    | Fail e => Err e
    | Done new_state =>
      match rec new_state alpha beta t with
      | Err e => Err e
      | Val eval_score t' =>
        let min_eval' := score_min min_eval eval_score in
        let beta' := score_min beta eval_score in
        if score_le beta' alpha then Val min_eval' t'
        else min_loop rec state moves' min_eval' alpha beta' t'
      end
    end
  end.

(** [_minimax]; the depth is [max_depth - 1] at first, and [max_depth]
    is 4 in the game. *)
Fixpoint _minimax (grid : HexGrid) (ai_player : nat) (depth : nat)
    (state : GameStateSnapshot) (alpha beta : score) (is_maximizing : bool)
    (t : table) : res score :=
  match depth with
  | O =>
    match _evaluate_state state ai_player with
    | Done q => Val (fin q) t
    | Fail e => Err e
    end
  | S depth' =>
    match t !! _get_state_key state with
    | Some v => Val v t
    | None =>
      match _get_all_moves state grid (current_player state) with
      | [] =>
        match _evaluate_state state ai_player with
        | Done q => Val (fin q) (<[_get_state_key state := fin q]> t)
        | Fail e => Err e
        end
      | possible_moves =>
        if is_maximizing then
          match max_loop (fun s a b => _minimax grid ai_player depth' s a b false)
                         state possible_moves neg_inf alpha beta t with
          | Val max_eval t' => Val max_eval (<[_get_state_key state := max_eval]> t')
          | Err e => Err e
          end
        else
          match min_loop (fun s a b => _minimax grid ai_player depth' s a b true)
                         state possible_moves pos_inf alpha beta t with
          | Val min_eval t' => Val min_eval (<[_get_state_key state := min_eval]> t')
          | Err e => Err e
          end
      end
    end
  end.

(** The loop of [get_best_move] on [(best_move, best_score)]. *)
Fixpoint best_loop (grid : HexGrid) (player_index depth : nat)
    (game_state : GameStateSnapshot) (moves : list Move)
    (best_move : option Move) (best_score : score) (t : table)
    : res (option Move) :=
  match moves with
  | [] => Val best_move t
  | move :: moves' =>
    match _apply_move game_state move with
    | Fail e => Err e
    | Done new_state =>
      match _minimax grid player_index depth new_state neg_inf pos_inf false t with
      | Err e => Err e
      | Val s t' =>
        if score_lt best_score s
        then best_loop grid player_index depth game_state moves' (Some move) s t'
        else best_loop grid player_index depth game_state moves' best_move best_score t'
      end
    end
  end.

(** [get_best_move] for [max_depth = depth + 1]; the table is cleared
    first. *)
Definition get_best_move (depth : nat) (game_state : GameStateSnapshot)
    (grid : HexGrid) (player_index : nat) : res (option Move) :=
  match _get_all_moves game_state grid player_index with
  | [] => Val None ∅
  | possible_moves =>
    best_loop grid player_index depth game_state possible_moves None neg_inf ∅
  end.

End MinimaxAI.

(** The snapshot [state] is a copy of the board and the tokens of [g]. *)
Definition snapshot_of (g : FishGame) (state : MinimaxAI.GameStateSnapshot) : Prop :=
  MinimaxAI.tiles state = tiles (grid g) /\
  forall pos, MinimaxAI.od_get pos (MinimaxAI.penguin_positions state) =
              penguin_positions g !! pos.

(** What the search needs of a snapshot to run for [ai_player]: scores
    for two players or more, one of them [ai_player], and a score for
    the owner of every token. *)
Definition snapshot_ok (ai_player : nat) (state : MinimaxAI.GameStateSnapshot)
    : Prop :=
  (2 <= length (MinimaxAI.player_scores state))%nat /\
  (ai_player < length (MinimaxAI.player_scores state))%nat /\
  forall pos player_index,
    (pos, player_index) ∈ MinimaxAI.penguin_positions state ->
    (player_index < length (MinimaxAI.player_scores state))%nat.

(** Every value the table holds is a finite number. *)
Definition finite_table (t : MinimaxAI.table) : Prop :=
  forall k v, t !! k = Some v -> exists q, v = fin q.

(** A snapshot of the tokens of [corridor_start] on the corridor board,
    with player 1 to move. *)
Definition corridor_snapshot : MinimaxAI.GameStateSnapshot :=
  MinimaxAI.mkGameStateSnapshot (tiles corridor_board)
    (map (fun pos => (pos, 0%nat)) [(5, 1); (5, 3); (5, 5); (4, 7)] ++
     map (fun pos => (pos, 1%nat)) [(3, 6); (0, 0); (3, 3); (3, 0)])
    [0; 0] 1.

(** ** The game of [fish1.py]

    The game object of [fish1.py] has its own move generator, which adds
    the offset of the first step again and again, and asks the search on
    snapshots for the move of the computer. *)
Module Fish1.

(** The [while True] loop of [FishGame._get_valid_moves]; [fuel] bounds
    its turns as in [trace]. *)
Fixpoint walk (g : FishGame) (dr dc : Z) (fuel : nat) (current : Z * Z)
    : list (Z * Z) :=
  match fuel with
  | O => []
  | S fuel' =>
    if decide (is_Some (tiles (grid g) !! current) /\
               penguin_positions g !! current = None) then
      current ::
      let next_pos := (current.1 + dr, current.2 + dc) in
      if decide (tiles (grid g) !! next_pos = None \/
                 is_Some (penguin_positions g !! next_pos)) then []
      else walk g dr dc fuel' next_pos
    else []
  end.

Definition _get_valid_moves (g : FishGame) (start : Z * Z) : list (Z * Z) :=
  flat_map (fun neighbor =>
              if decide (is_Some (penguin_positions g !! neighbor) \/
                         tiles (grid g) !! neighbor = None) then []
              else walk g (neighbor.1 - start.1) (neighbor.2 - start.2)
                        (S (size (tiles (grid g)))) neighbor)
           (Draft.get_neighbors (grid g) start.1 start.2).

(** The test [if self._get_valid_moves(...)]. *)
Definition can_move (g : FishGame) (penguin_pos : Z * Z) : bool :=
  match _get_valid_moves g penguin_pos with
  | [] => false
  | _ :: _ => true
  end.

(** The [while True] loop of [_next_turn], as in [fish.py]. *)
Fixpoint next_turn_loop (original_player fuel : nat) : M unit :=
  match fuel with
  | O => raise OutOfFuel
  | S fuel' =>
    (do rotate 1 then
     let* g := get in
     let* player := player_at (current_player_index g) in
     if existsb (can_move g) (penguins player) then ret tt
     else if decide (current_player_index g = original_player) then _end_game
     else next_turn_loop original_player fuel')%py
  end.

Definition _next_turn : M unit :=
  fun g => next_turn_loop (current_player_index g) (length (players g)) g.

Definition _handle_gameplay_click (r c : Z) : M unit :=
  fun g =>
    match penguin_positions g !! (r, c) with
    | Some owner =>
      if decide (owner = current_player_index g) then
        Ok tt (set_valid_moves (_get_valid_moves g (r, c))
                 (set_selected_penguin (Some (r, c)) g))
      else Ok tt g
    | None =>
      match selected_penguin g with
      | Some selected =>
        if decide ((r, c) ∈ valid_moves g) then
          (do _move_penguin selected (r, c) then
           do modify (set_selected_penguin None) then
           do modify (set_valid_moves []) then
           _next_turn)%py g
        else Ok tt g
      | None => Ok tt g
      end
    end.

(** The snapshot that [_ai_make_move] takes. A Python dictionary keeps
    its keys in the order of their insertion, which the finite map of
    the game object does not record: [positions] is the dictionary
    [self.penguin_positions] in that order. *)
Definition snapshot (positions : MinimaxAI.odict) (g : FishGame)
    : MinimaxAI.GameStateSnapshot :=
  MinimaxAI.mkGameStateSnapshot (tiles (grid g)) positions
    (map fish_count (players g)) (current_player_index g).

(** [_ai_make_move], with [max_depth = 4]. *)
Definition _ai_make_move (positions : MinimaxAI.odict) : M unit :=
  fun g =>
    match MinimaxAI.get_best_move 3 (snapshot positions g) (grid g)
            (current_player_index g) with
    | MinimaxAI.Err e => Raise e g
    | MinimaxAI.Val None _ => Ok tt g
    | MinimaxAI.Val (Some best_move) _ =>
      (do _move_penguin (MinimaxAI.from_pos best_move)
                        (MinimaxAI.to_pos best_move) then
       _next_turn)%py g
    end.

End Fish1.

(** [positions] is the dictionary of the tokens of [g] in some order of
    insertion. *)
Definition lists_tokens (positions : MinimaxAI.odict) (g : FishGame) : Prop :=
  NoDup positions.*1 /\
  forall pos, MinimaxAI.od_get pos positions = penguin_positions g !! pos.

(** Three tiles on a diagonal of the offset coordinates, with a token of
    player 0 on the first. *)
Definition diagonal_board : HexGrid :=
  board (ones [(0, 0); (1, 1); (2, 2)]).

Definition diagonal : FishGame :=
  position PLAYING diagonal_board [(0, 0)] [] (0, 0) 0 3.

(** The corridor game when the eight tokens are placed and player 1,
    the computer, is to move. *)
Definition corridor_reply : FishGame :=
  set_current_player_index 1 corridor_start.

(** The tokens of the corridor game in the order of their placement. *)
Definition corridor_tokens : MinimaxAI.odict :=
  [((5, 1), 0%nat); ((3, 6), 1%nat); ((5, 3), 0%nat); ((0, 0), 1%nat);
   ((5, 5), 0%nat); ((3, 3), 1%nat); ((4, 7), 0%nat); ((3, 0), 1%nat)].
(** * Properties *)

(** ** The move generator *)

Lemma next_in_direction_step r c d :
  _get_next_in_direction r c d = Some (step d (r, c)).
Proof.
  unfold step, _get_next_in_direction, _get_hex_neighbors_with_direction; simpl.
  destruct (decide (c mod 2 = 0)), d; reflexivity.
Qed.

Lemma neighbors_are_steps r c :
  _get_hex_neighbors_with_direction r c =
  map (fun d => (d, step d (r, c))) directions.
Proof.
  unfold step, _get_next_in_direction, _get_hex_neighbors_with_direction; simpl.
  destruct (decide (c mod 2 = 0)); reflexivity.
Qed.

Lemma along_step d p : along d (step d p) = along d p + 1.
Proof.
  destruct p as [r c].
  unfold step, _get_next_in_direction, _get_hex_neighbors_with_direction; simpl.
  destruct (decide (c mod 2 = 0)), d; simpl; lia.
Qed.

(** The walk along one label, in one state. *)
Section Line.
Variable g : FishGame.
Variable d : direction.

Lemma line_S p n : line d p (S n) = line d (step d p) n.
Proof. unfold line. induction n; simpl in *; congruence. Qed.

Lemma along_line p n : along d (line d p n) = along d p + Z.of_nat n.
Proof.
  induction n; [simpl; lia|].
  change (line d p (S n)) with (step d (line d p n)).
  rewrite along_step. lia.
Qed.

(** The walk never comes back to a cell it has left. *)
Lemma line_leaves p n : line d p (S n) <> p.
Proof.
  intros H. pose proof (along_line p (S n)) as Ha. rewrite H in Ha. lia.
Qed.

(** A line that stays on tiles for [n + 1] cells needs [n + 1] tiles. *)
Lemma line_on_tiles_short {V} n : forall (m : gmap (Z * Z) V) p,
  (forall k, (k <= n)%nat -> is_Some (m !! line d p k)) -> (n < size m)%nat.
Proof.
  induction n as [|n IH]; intros m p Hon.
  - assert (is_Some (m !! p)) as Hp by (apply (Hon O); lia).
    pose proof (map_size_ne_0_lookup_2 m p Hp). lia.
  - destruct (Hon O) as [v Hv]; [lia|]. simpl in Hv.
    assert (n < size (delete p m))%nat as Hlt.
    { apply (IH _ (step d p)). intros k Hk.
      rewrite <- line_S, lookup_delete_ne; [apply Hon; lia|].
      intros Heq. symmetry in Heq. exact (line_leaves _ _ Heq). }
    rewrite map_size_delete, Hv in Hlt. lia.
Qed.

Lemma free_line_short p n :
  (forall k, (k <= n)%nat -> free g (line d p k)) ->
  (n < size (tiles (grid g)))%nat.
Proof.
  intros Hall. apply (line_on_tiles_short n _ p). intros k Hk. by apply Hall.
Qed.

Lemma trace_sound fuel : forall p c,
  c ∈ trace g d fuel p ->
  exists n, c = line d p n /\ forall k, (k <= n)%nat -> free g (line d p k).
Proof.
  induction fuel as [|fuel IH]; intros p c Hin; simpl in Hin.
  - inversion Hin.
  - destruct (tiles (grid g) !! p) as [t|] eqn:Ht; [|inversion Hin].
    destruct (penguin_positions g !! p) as [i|] eqn:Hp; [inversion Hin|].
    assert (free g p) as Hfree by (split; [eauto|done]).
    destruct p as [r c0]. simpl in Hin.
    rewrite next_in_direction_step in Hin.
    apply elem_of_cons in Hin as [->|Hin].
    + exists O. split; [done|]. intros k Hk. replace k with O by lia. done.
    + destruct (IH _ _ Hin) as (n & -> & Hall).
      exists (S n). split; [by rewrite line_S|].
      intros [|k] Hk; [done|]. rewrite line_S. apply Hall. lia.
Qed.

Lemma trace_complete : forall n fuel p,
  (n < fuel)%nat ->
  (forall k, (k <= n)%nat -> free g (line d p k)) ->
  line d p n ∈ trace g d fuel p.
Proof.
  induction n as [|n IH]; intros fuel p Hfuel Hall;
    (destruct fuel as [|fuel]; [lia|]); cbn [trace];
    (destruct (Hall O) as [[t Ht] Hp]; [lia|]);
    change (line d p O) with p in Ht, Hp; rewrite Ht, Hp.
  - apply elem_of_cons. by left.
  - destruct p as [r c]. cbn [fst snd]. rewrite next_in_direction_step.
    apply elem_of_cons. right. rewrite line_S. apply IH; [lia|].
    intros k Hk. rewrite <- line_S. apply Hall. lia.
Qed.

(** A turn of the loop that the fuel cuts off would need [fuel] free
    cells in a row. *)
Lemma trace_cut fuel : forall p,
  trace g d (S fuel) p <> trace g d fuel p ->
  forall k, (k <= fuel)%nat -> free g (line d p k).
Proof.
  induction fuel as [|fuel IH]; intros p Hcut k Hk.
  - replace k with O by lia. cbn in Hcut. unfold free. cbn.
    destruct (tiles (grid g) !! p); [|done].
    destruct (penguin_positions g !! p); [done|]. split; eauto.
  - cbn [trace] in Hcut.
    destruct (tiles (grid g) !! p) as [t|] eqn:Ht; [|done].
    destruct (penguin_positions g !! p) as [i|] eqn:Hp; [done|].
    destruct k as [|k]; [split; cbn; eauto|].
    rewrite line_S. destruct p as [r c]. cbn [fst snd] in Hcut.
    rewrite next_in_direction_step in Hcut. apply IH; [|lia].
    intros Heq. apply Hcut. cbn [trace] in Heq. by rewrite Heq.
Qed.

(** The loop ends by itself within [size tiles + 1] turns: more fuel
    changes nothing. *)
Lemma trace_fuel_irrelevant fuel p :
  (size (tiles (grid g)) < fuel)%nat ->
  trace g d fuel p = trace g d (S (size (tiles (grid g)))) p.
Proof.
  intros Hfuel.
  assert (forall extra, trace g d (S (size (tiles (grid g))) + extra) p =
                        trace g d (S (size (tiles (grid g)))) p) as H.
  { induction extra as [|extra IH]; [by rewrite Nat.add_0_r|].
    rewrite <- IH, Nat.add_succ_r.
    destruct (decide (trace g d (S (S (size (tiles (grid g))) + extra)) p =
                      trace g d (S (size (tiles (grid g))) + extra) p))
      as [Heq|Hne]; [done|].
    pose proof (trace_cut _ _ Hne) as Hfree.
    assert (S (size (tiles (grid g))) + extra < size (tiles (grid g)))%nat;
      [|lia].
    by apply (free_line_short p). }
  replace fuel with (S (size (tiles (grid g))) + (fuel - S (size (tiles (grid g)))))%nat
    by lia.
  apply H.
Qed.

End Line.

Lemma get_valid_moves_spec g start c :
  c ∈ _get_valid_moves g start <->
  exists d n, c = line d start (S n) /\
              forall k, (k <= n)%nat -> free g (line d start (S k)).
Proof.
  unfold _get_valid_moves. destruct start as [r c0]. cbn [fst snd].
  assert (forall d p n, (forall k, (k <= n)%nat -> free g (line d p k)) ->
                        (n < S (size (tiles (grid g))))%nat) as Hshort.
  { intros d p n Hall. pose proof (free_line_short g d p n Hall). lia. }
  remember (S (size (tiles (grid g)))) as fuel eqn:Hfuel. clear Hfuel.
  rewrite neighbors_are_steps, list_elem_of_In, in_flat_map. split.
  - intros ([d first] & Hd & Hin).
    apply in_map_iff in Hd as (d' & Heq & _).
    injection Heq as -> <-.
    apply list_elem_of_In, trace_sound in Hin as (n & -> & Hall).
    exists d, n. split; [by rewrite line_S|].
    intros k Hk. rewrite line_S. by apply Hall.
  - intros (d & n & -> & Hall).
    exists (d, step d (r, c0)). split.
    + apply in_map_iff. exists d. split; [done|]. destruct d; simpl; tauto.
    + apply list_elem_of_In. rewrite line_S.
      assert (forall k, (k <= n)%nat -> free g (line d (step d (r, c0)) k)) as Hall'.
      { intros k Hk. rewrite <- line_S. by apply Hall. }
      apply trace_complete; [|done]. by eapply Hshort.
Qed.

Lemma valid_move_is_free g start c :
  c ∈ _get_valid_moves g start ->
  is_Some (tiles (grid g) !! c) /\ penguin_positions g !! c = None.
Proof.
  intros Hin. apply get_valid_moves_spec in Hin as (d & n & -> & Hall).
  apply (Hall n). lia.
Qed.

(** C1. The move generator returns exactly the cells reachable by sliding:
    a cell is returned if and only if it lies some [n + 1] steps along the
    line of one direction label from the start and every cell of that
    line, from the first step to the cell itself, has a tile and holds no
    token; so the walk of a direction ends at the first absent or occupied
    cell and leaves it out. The result never holds the start, an occupied
    cell or an absent cell. *)
Theorem get_valid_moves_sliding (g : FishGame) (start : Z * Z) :
  (forall c, c ∈ _get_valid_moves g start <->
     exists d n, c = line d start (S n) /\
                 forall k, (k <= n)%nat -> free g (line d start (S k))) /\
  (start ∉ _get_valid_moves g start) /\
  (forall c, c ∈ _get_valid_moves g start ->
     is_Some (tiles (grid g) !! c) /\ penguin_positions g !! c = None).
Proof.
  split; [intros c; apply get_valid_moves_spec|]. split.
  - intros Hin. apply get_valid_moves_spec in Hin as (d & n & Heq & _).
    symmetry in Heq. exact (line_leaves _ _ _ Heq).
  - intros c. apply valid_move_is_free.
Qed.

Lemma get_valid_moves_sliding_witness :
  (0, 2) ∈ _get_valid_moves corridor (0, 0) /\
  (exists d n, (0, 2) = line d (0, 0) (S n) /\
               forall k, (k <= n)%nat -> free corridor (line d (0, 0) (S k))) /\
  is_Some (tiles (grid corridor) !! (0, 2)) /\
  penguin_positions corridor !! (0, 2) = None.
Proof.
  assert ((0, 2) ∈ _get_valid_moves corridor (0, 0)) as H.
  { apply list_elem_of_In. vm_compute. tauto. }
  destruct (get_valid_moves_sliding corridor (0, 0)) as (Hiff & _ & Hfree).
  split; [exact H|]. split; [by apply Hiff|]. by apply Hfree.
Defined.

(** ** Python lists *)

Lemma list_remove_elem x l : x ∈ l -> exists l', list_remove x l = Some l'.
Proof.
  induction l as [|y l IH]; intros Hin; [inversion Hin|]. simpl.
  destruct (decide (y = x)); [eauto|].
  apply elem_of_cons in Hin as [->|Hin]; [done|].
  destruct (IH Hin) as [l' ->]. simpl. eauto.
Qed.

Lemma list_remove_None x l : list_remove x l = None <-> x ∉ l.
Proof.
  induction l as [|y l IH]; simpl.
  - split; [intros _ H; inversion H|done].
  - destruct (decide (y = x)) as [->|Hne].
    + split; [done|]. intros H. exfalso. apply H. by left.
    + rewrite not_elem_of_cons. destruct (list_remove x l); simpl.
      * split; [done|]. intros [_ H]. by apply IH in H.
      * split; [|done]. intros _. split; [done|]. by apply IH.
Qed.

Lemma list_remove_perm x l l' : list_remove x l = Some l' -> l ≡ₚ x :: l'.
Proof.
  revert l'. induction l as [|y l IH]; intros l'; simpl; [done|].
  destruct (decide (y = x)) as [->|Hne]; [by intros [= ->]|].
  destruct (list_remove x l) as [l0|]; simpl; [|done].
  intros [= <-]. rewrite (IH l0 eq_refl). apply Permutation_swap.
Qed.

Lemma list_remove_elem_of x y l l' :
  list_remove x l = Some l' -> y ∈ l <-> y = x \/ y ∈ l'.
Proof.
  intros H. rewrite (list_remove_perm _ _ _ H). apply elem_of_cons.
Qed.

Lemma list_remove_NoDup x l l' :
  list_remove x l = Some l' -> NoDup l -> NoDup l' /\ x ∉ l'.
Proof.
  intros H Hnd. rewrite (list_remove_perm _ _ _ H) in Hnd.
  apply NoDup_cons in Hnd. tauto.
Qed.

(** Removing what was appended last gives the list back. *)
Lemma list_remove_snoc x l : x ∉ l -> list_remove x (l ++ [x]) = Some l.
Proof.
  induction l as [|y l IH]; intros Hx; simpl.
  - by rewrite decide_True.
  - apply not_elem_of_cons in Hx as [Hne Hx].
    rewrite decide_False by done. by rewrite IH.
Qed.

(** ** Removing a tile *)

(** C4, as the code has it. Removing a tile where one exists deletes it,
    leaves every other tile and the dimensions alone and returns its fish
    value; where no tile exists the call returns 0 and leaves the board as
    it is: no error is raised. *)
Theorem remove_tile_returns_fish_or_zero (h : HexGrid) (r c : Z) :
  (forall t, tiles h !! (r, c) = Some t ->
     (remove_tile r c h).1 = fish t /\
     tiles (remove_tile r c h).2 !! (r, c) = None /\
     (forall pos, pos <> (r, c) ->
        tiles (remove_tile r c h).2 !! pos = tiles h !! pos) /\
     rows (remove_tile r c h).2 = rows h /\
     cols (remove_tile r c h).2 = cols h) /\
  (tiles h !! (r, c) = None -> remove_tile r c h = (0, h)).
Proof.
  unfold remove_tile. split.
  - intros t ->. simpl. split_and!; try done.
    + apply lookup_delete_eq.
    + intros pos Hne. by apply lookup_delete_ne.
  - by intros ->.
Qed.

Lemma remove_tile_returns_fish_or_zero_witness :
  tiles (grid two_tokens) !! (0, 0) = Some (Tile_ 0 0 3) /\
  (remove_tile 0 0 (grid two_tokens)).1 = 3 /\
  tiles (remove_tile 0 0 (grid two_tokens)).2 !! (0, 0) = None /\
  tiles (grid two_tokens) !! (3, 3) = None /\
  remove_tile 3 3 (grid two_tokens) = (0, grid two_tokens).
Proof.
  assert (tiles (grid two_tokens) !! (0, 0) = Some (Tile_ 0 0 3)) as H1
    by reflexivity.
  assert (tiles (grid two_tokens) !! (3, 3) = None) as H2 by reflexivity.
  destruct (remove_tile_returns_fish_or_zero (grid two_tokens) 0 0) as [Hsome _].
  destruct (remove_tile_returns_fish_or_zero (grid two_tokens) 3 3) as [_ Hnone].
  destruct (Hsome _ H1) as (Hfish & Hgone & _).
  split_and!; [exact H1|exact Hfish|exact Hgone|exact H2|exact (Hnone H2)].
Defined.

(** C4, as the claim has it, fails: on a coordinate without a tile the
    removal raises nothing; it returns 0 and the game goes on with the
    same board. *)
Lemma remove_absent_tile_raises_nothing :
  tiles (grid corridor) !! (4, 4) = None /\
  grid_remove_tile (4, 4) corridor = Ok 0 corridor /\
  forall e g', grid_remove_tile (4, 4) corridor <> Raise e g'.
Proof.
  split; [reflexivity|]. split; [reflexivity|]. intros e g'. discriminate.
Qed.

(** ** Applying a move *)

(** The run of [_move_penguin] for a token whose two records agree. *)
Lemma move_penguin_run g from_pos to_pos i p l :
  penguin_positions g !! from_pos = Some i ->
  players g !! i = Some p ->
  list_remove from_pos (penguins p) = Some l ->
  _move_penguin from_pos to_pos g =
  Ok tt (set_player i
           (set_penguins (l ++ [to_pos])
              (set_fish_count
                 (fish_count p + (remove_tile from_pos.1 from_pos.2 (grid g)).1) p))
           (set_penguin_positions
              (<[to_pos := i]> (delete from_pos (penguin_positions g)))
              (set_grid (remove_tile from_pos.1 from_pos.2 (grid g)).2 g))).
Proof.
  intros Hpp Hp Hl. pose proof (lookup_lt_Some _ _ _ Hp) as Hlt.
  unfold _move_penguin, bind, pop_penguin. rewrite Hpp.
  unfold grid_remove_tile. cbn [grid set_penguin_positions].
  destruct (remove_tile from_pos.1 from_pos.2 (grid g)) as [n h]. cbn.
  unfold add_fish, bind, player_at. cbn. rewrite Hp.
  unfold modify, relocate, bind, player_at. cbn.
  rewrite list_lookup_insert_eq by done. cbn. rewrite Hl.
  unfold modify, set_player. cbn. by rewrite list_insert_insert_eq.
Qed.

(** C2. When the token of player [i] stands on the tile [t] at [from_pos]
    and the move generator offers [to_pos], [_move_penguin] raises
    nothing and: deletes the tile at [from_pos] and no other, adds the
    fish of [t] to the score of player [i], takes [from_pos] out of the
    token list of that player and appends [to_pos], changes no other
    player, moves the entry of the position dictionary from [from_pos]
    to [to_pos], which was free, and leaves the phase, the player to move
    and the rest of the game object as they were. *)
Theorem move_penguin_applies (g : FishGame) (from_pos to_pos : Z * Z)
    (i : nat) (t : Tile) :
  token_at g from_pos i ->
  tiles (grid g) !! from_pos = Some t ->
  to_pos ∈ _get_valid_moves g from_pos ->
  exists g' p l,
    _move_penguin from_pos to_pos g = Ok tt g' /\
    players g !! i = Some p /\
    list_remove from_pos (penguins p) = Some l /\
    tiles (grid g') = delete from_pos (tiles (grid g)) /\
    rows (grid g') = rows (grid g) /\ cols (grid g') = cols (grid g) /\
    players g' =
      <[i := set_penguins (l ++ [to_pos])
               (set_fish_count (fish_count p + fish t) p)]> (players g) /\
    penguin_positions g !! to_pos = None /\
    penguin_positions g' = <[to_pos := i]> (delete from_pos (penguin_positions g)) /\
    current_player_index g' = current_player_index g /\
    untouched g g'.
Proof.
  intros [Hpp (p & Hp & Hin)] Ht Hto.
  destruct (list_remove_elem _ _ Hin) as [l Hl].
  apply valid_move_is_free in Hto as [_ Hfree].
  eexists _, p, l. split; [by apply (move_penguin_run g from_pos to_pos i p l)|].
  unfold remove_tile. destruct from_pos as [r c]. cbn. rewrite Ht.
  split_and!; try reflexivity; try done.
Qed.

Lemma move_penguin_applies_witness :
  token_at two_tokens (0, 0) 1 /\
  tiles (grid two_tokens) !! (0, 0) = Some (Tile_ 0 0 3) /\
  (0, 1) ∈ _get_valid_moves two_tokens (0, 0) /\
  exists g', _move_penguin (0, 0) (0, 1) two_tokens = Ok tt g' /\
             tiles (grid g') !! (0, 0) = None /\
             fish_count <$> players g' !! 1%nat = Some 23.
Proof.
  assert (token_at two_tokens (0, 0) 1) as H1.
  { split; [reflexivity|]. eexists. split; [reflexivity|]. by left. }
  assert (tiles (grid two_tokens) !! (0, 0) = Some (Tile_ 0 0 3)) as H2
    by reflexivity.
  assert ((0, 1) ∈ _get_valid_moves two_tokens (0, 0)) as H3.
  { apply list_elem_of_In. vm_compute. tauto. }
  split_and!; try done.
  destruct (move_penguin_applies two_tokens (0, 0) (0, 1) 1%nat _ H1 H2 H3)
    as (g' & p & l & Hrun & Hp & Hl & Htiles & _ & _ & Hplayers & _).
  exists g'. split; [done|]. split.
  - rewrite Htiles. apply lookup_delete_eq.
  - rewrite Hplayers. injection Hp as <-. reflexivity.
Defined.

(** ** The end of the game *)

Lemma can_move_false g pos : can_move g pos = false <-> _get_valid_moves g pos = [].
Proof. unfold can_move. destruct (_get_valid_moves g pos); split; done. Qed.

(** The move generator reads the board and the position dictionary only. *)
Lemma trace_ext g g' d fuel : forall p,
  grid g' = grid g -> penguin_positions g' = penguin_positions g ->
  trace g' d fuel p = trace g d fuel p.
Proof.
  induction fuel as [|fuel IH]; intros p Hg Hp; [done|]. simpl.
  rewrite Hg, Hp. destruct (tiles (grid g) !! p); [|done].
  destruct (penguin_positions g !! p); [done|]. f_equal.
  destruct (_get_next_in_direction p.1 p.2 d); [|done]. by apply IH.
Qed.

Lemma get_valid_moves_ext g g' start :
  grid g' = grid g -> penguin_positions g' = penguin_positions g ->
  _get_valid_moves g' start = _get_valid_moves g start.
Proof.
  intros Hg Hp. unfold _get_valid_moves. rewrite Hg.
  generalize (S (size (tiles (grid g)))). intros fuel.
  induction (_get_hex_neighbors_with_direction start.1 start.2) as [|[d first] l IH];
    [done|].
  cbn [flat_map]. f_equal; [by apply trace_ext|apply IH].
Qed.

Lemma can_move_ext g g' pos :
  grid g' = grid g -> penguin_positions g' = penguin_positions g ->
  can_move g' pos = can_move g pos.
Proof. intros Hg Hp. unfold can_move. by rewrite (get_valid_moves_ext g g'). Qed.

Lemma is_game_over_ext g g' :
  grid g' = grid g -> penguin_positions g' = penguin_positions g ->
  players g' = players g -> _is_game_over g' = _is_game_over g.
Proof.
  intros Hg Hp Hpl. unfold _is_game_over. rewrite Hpl. clear Hpl.
  induction (players g) as [|player ps IH]; [done|]. simpl.
  f_equal; [|exact IH].
  induction (penguins player) as [|pos l IHl]; [done|]. simpl.
  by rewrite IHl, (can_move_ext g g').
Qed.

(** C3. [_is_game_over] answers true exactly when no token of any player
    has a legal move; whose turn it is plays no part. *)
Theorem is_game_over_iff_nobody_moves (g : FishGame) :
  (_is_game_over g = true <->
   forall player pos dest,
     player ∈ players g -> pos ∈ penguins player ->
     dest ∉ _get_valid_moves g pos) /\
  (forall i, _is_game_over (set_current_player_index i g) = _is_game_over g).
Proof.
  split; [|intros i; by apply is_game_over_ext].
  unfold _is_game_over. rewrite forallb_forall. split.
  - intros H player pos dest Hplayer Hpos Hdest.
    apply list_elem_of_In, H in Hplayer. rewrite forallb_forall in Hplayer.
    apply list_elem_of_In, Hplayer, negb_true_iff, can_move_false in Hpos.
    rewrite Hpos in Hdest. inversion Hdest.
  - intros H player Hplayer. apply forallb_forall. intros pos Hpos.
    apply negb_true_iff, can_move_false.
    destruct (_get_valid_moves g pos) as [|dest rest] eqn:Hmoves; [done|].
    exfalso. apply (H player pos dest); [by apply list_elem_of_In..|].
    rewrite Hmoves. by left.
Qed.

Lemma is_game_over_iff_nobody_moves_witness :
  _is_game_over (endgame_leaf 3) = true /\
  forall player pos dest,
    player ∈ players (endgame_leaf 3) -> pos ∈ penguins player ->
    dest ∉ _get_valid_moves (endgame_leaf 3) pos.
Proof.
  assert (_is_game_over (endgame_leaf 3) = true) as H by (vm_compute; reflexivity).
  split; [exact H|].
  destruct (is_game_over_iff_nobody_moves (endgame_leaf 3)) as [Hiff _].
  by apply Hiff.
Defined.

(** ** Placing a token *)

(** C10. A placement asked for a coordinate that has no tile or holds a
    token already raises nothing and returns the game object as it was:
    board, positions, token lists, scores, player to move and phase. *)
Theorem placement_on_hole_or_token_is_noop (g : FishGame) (r c : Z) :
  tiles (grid g) !! (r, c) = None \/ is_Some (penguin_positions g !! (r, c)) ->
  _handle_penguin_placement r c g = Ok tt g.
Proof.
  intros [Hhole|[i Htoken]]; unfold _handle_penguin_placement.
  - by rewrite Hhole.
  - rewrite Htoken. by destruct (tiles (grid g) !! (r, c)).
Qed.

Lemma placement_on_hole_or_token_is_noop_witness :
  (tiles (grid two_tokens) !! (5, 5) = None \/
   is_Some (penguin_positions two_tokens !! (5, 5))) /\
  _handle_penguin_placement 5 5 two_tokens = Ok tt two_tokens.
Proof.
  assert (tiles (grid two_tokens) !! (5, 5) = None \/
          is_Some (penguin_positions two_tokens !! (5, 5))) as H.
  { right. exists 0%nat. reflexivity. }
  split; [exact H|]. exact (placement_on_hole_or_token_is_noop _ _ _ H).
Defined.

(** ** Moves that are not legal *)

(** What stands between a click and a move. A move from a coordinate
    that holds no token raises [KeyError] before anything is written, so
    the game object is unchanged. Whether the destination is legal and
    whether the game is in the playing phase is not looked at by
    [_move_penguin]; the click handler stands in front of it: whatever
    is clicked, it leaves the board, the tokens, the scores, the player
    to move and the phase alone, and it asks for a move only when the
    clicked coordinate holds no token and is in the stored list of valid
    moves of a selected token. *)
Lemma illegal_move_guards :
  (forall g from_pos to_pos,
     penguin_positions g !! from_pos = None ->
     _move_penguin from_pos to_pos g = Raise KeyError g) /\
  (forall g r c,
     core (final (_handle_gameplay_click r c g)) = core g /\
     (selected_penguin g = None \/ (r, c) ∉ valid_moves g \/
      is_Some (penguin_positions g !! (r, c)) ->
      current_animation (final (_handle_gameplay_click r c g)) = current_animation g /\
      animation_queue (final (_handle_gameplay_click r c g)) = animation_queue g)).
Proof.
  split.
  - intros g from_pos to_pos H. unfold _move_penguin, bind, pop_penguin.
    by rewrite H.
  - intros g r c. unfold _handle_gameplay_click.
    destruct (penguin_positions g !! (r, c)) as [owner|] eqn:Hpp.
    + destruct (decide (owner = current_player_index g)); done.
    + destruct (selected_penguin g) as [sel|] eqn:Hsel; [|done].
      destruct (decide ((r, c) ∈ valid_moves g)) as [Hin|Hnin]; [|done].
      unfold bind, _start_animation, modify.
      destruct (penguin_positions g !! sel) eqn:Hs; [|by split; [|intros _]].
      destruct (current_animation g) eqn:Ha; cbn.
      * split; [done|]. intros [?|[?|[? ?]]]; done.
      * split; [done|]. intros [?|[?|[? ?]]]; done.
Qed.

Lemma illegal_move_guards_witness :
  penguin_positions two_tokens !! (0, 1) = None /\
  _move_penguin (0, 1) (0, 0) two_tokens = Raise KeyError two_tokens /\
  ((3, 3) ∉ valid_moves two_tokens) /\
  final (_handle_gameplay_click 3 3 two_tokens) = two_tokens.
Proof.
  assert (penguin_positions two_tokens !! (0, 1) = None) as H1 by reflexivity.
  assert ((3, 3) ∉ valid_moves two_tokens) as H2 by (intros H; inversion H).
  destruct illegal_move_guards as [Hmove Hclick].
  split; [exact H1|]. split; [exact (Hmove _ _ _ H1)|]. split; [exact H2|].
  destruct (Hclick two_tokens 3 3) as [Hcore Hanim].
  destruct (Hanim (or_intror (or_introl H2))) as [Ha Hq].
  reflexivity.
Defined.

(** ** Tokens never share a cell *)

Lemma rotate_index_lt (i : nat) (k : Z) (n : nat) :
  (0 < n)%nat -> (Z.to_nat ((Z.of_nat i + k) mod Z.of_nat n) < n)%nat.
Proof.
  intros Hn.
  pose proof (Z.mod_pos_bound (Z.of_nat i + k) (Z.of_nat n)). lia.
Qed.

Lemma initial_well_formed g : initial g -> well_formed g.
Proof.
  intros (Hne & Hall & Hpp & Hcur & _). split_and!.
  - intros pos i. rewrite Hpp, lookup_empty. split; [done|].
    intros (p & Hp & Hin). rewrite Forall_lookup in Hall.
    rewrite (Hall _ _ Hp) in Hin. inversion Hin.
  - intros i p Hp. rewrite Forall_lookup in Hall. rewrite (Hall _ _ Hp).
    constructor.
  - rewrite Hcur. destruct (players g); [done|simpl; lia].
Qed.

(** A new token on a free cell. *)
Lemma consistent_place g g' pos i p :
  consistent g ->
  penguin_positions g !! pos = None ->
  players g !! i = Some p ->
  penguin_positions g' = <[pos := i]> (penguin_positions g) ->
  players g' = <[i := set_penguins (penguins p ++ [pos]) p]> (players g) ->
  consistent g'.
Proof.
  intros Hc Hfree Hp Hpp' Hpl' pos' j. rewrite Hpp', Hpl'.
  pose proof (lookup_lt_Some _ _ _ Hp) as Hlt.
  destruct (decide (j = i)) as [->|Hji].
  - rewrite list_lookup_insert_eq by done. split.
    + intros H. eexists. split; [done|]. cbn. apply elem_of_app.
      destruct (decide (pos = pos')) as [->|Hne].
      * right. by left.
      * left. rewrite lookup_insert_ne in H by done.
        apply Hc in H as (q & Hq & Hin). congruence.
    + intros (q & [= <-] & Hin). cbn in Hin.
      apply elem_of_app in Hin as [Hin|Hin].
      * assert (penguin_positions g !! pos' = Some i) as H by (apply Hc; eauto).
        rewrite lookup_insert_ne; [done|]. congruence.
      * apply list_elem_of_singleton in Hin as ->. apply lookup_insert_eq.
  - rewrite list_lookup_insert_ne by done. rewrite <- (Hc _ j).
    destruct (decide (pos = pos')) as [->|Hne].
    + rewrite lookup_insert_eq, Hfree. split; congruence.
    + by rewrite lookup_insert_ne.
Qed.

(** A token that leaves [a] for the free cell [b]. *)
Lemma consistent_relocate g g' a b i p l f :
  consistent g ->
  (forall j q, players g !! j = Some q -> NoDup (penguins q)) ->
  penguin_positions g !! a = Some i ->
  penguin_positions g !! b = None ->
  players g !! i = Some p ->
  list_remove a (penguins p) = Some l ->
  penguin_positions g' = <[b := i]> (delete a (penguin_positions g)) ->
  players g' = <[i := set_penguins (l ++ [b]) (set_fish_count f p)]> (players g) ->
  consistent g' /\
  (forall j q, players g' !! j = Some q -> NoDup (penguins q)).
Proof.
  intros Hc Hnd Ha Hb Hp Hl Hpp' Hpl'.
  pose proof (lookup_lt_Some _ _ _ Hp) as Hlt.
  destruct (list_remove_NoDup _ _ _ Hl (Hnd _ _ Hp)) as [Hndl Hal].
  assert (b ∉ l) as Hbl.
  { intros Hin. assert (b ∈ penguins p) as Hin'
      by (apply (list_remove_elem_of _ _ _ _ Hl); by right).
    assert (penguin_positions g !! b = Some i) by (apply Hc; eauto). congruence. }
  split.
  - intros pos j. rewrite Hpp', Hpl'.
    destruct (decide (j = i)) as [->|Hji].
    + rewrite list_lookup_insert_eq by done. split.
      * intros H. eexists. split; [done|]. cbn. apply elem_of_app.
        destruct (decide (b = pos)) as [->|Hne]; [right; by left|left].
        rewrite lookup_insert_ne in H by done.
        destruct (decide (a = pos)) as [->|Hne'];
          [by rewrite lookup_delete_eq in H|].
        rewrite lookup_delete_ne in H by done.
        apply Hc in H as (q & Hq & Hin).
        assert (q = p) as -> by congruence.
        apply (list_remove_elem_of _ _ _ _ Hl) in Hin as [->|Hin]; done.
      * intros (q & [= <-] & Hin). cbn in Hin.
        apply elem_of_app in Hin as [Hin|Hin].
        -- assert (pos <> b) by congruence.
           assert (pos <> a) by congruence.
           rewrite lookup_insert_ne, lookup_delete_ne by done.
           apply Hc. exists p. split; [done|].
           apply (list_remove_elem_of _ _ _ _ Hl). by right.
        -- apply list_elem_of_singleton in Hin as ->. apply lookup_insert_eq.
    + rewrite list_lookup_insert_ne by done. rewrite <- (Hc _ j).
      destruct (decide (b = pos)) as [->|Hne].
      * rewrite lookup_insert_eq, Hb. split; congruence.
      * rewrite lookup_insert_ne by done.
        destruct (decide (a = pos)) as [->|Hne'].
        -- rewrite lookup_delete_eq, Ha. split; congruence.
        -- by rewrite lookup_delete_ne.
  - intros j q. rewrite Hpl'. destruct (decide (j = i)) as [->|Hji].
    + rewrite list_lookup_insert_eq by done. intros [= <-]. cbn.
      apply NoDup_app. split_and!; [done| |apply NoDup_singleton].
      intros x Hx Hx'. apply list_elem_of_singleton in Hx' as ->. done.
    + rewrite list_lookup_insert_ne by done. apply Hnd.
Qed.

Lemma place_penguin_at_well_formed g r c g' :
  well_formed g ->
  penguin_positions g !! (r, c) = None ->
  _place_penguin_at r c g = Ok tt g' ->
  well_formed g'.
Proof.
  intros (Hc & Hnd & Hcur) Hfree.
  destruct (lookup_lt_is_Some_2 _ _ Hcur) as [p Hp].
  unfold _place_penguin_at, bind, get, modify, player_at. cbn. rewrite Hp.
  unfold rotate. cbn.
  destruct (<[current_player_index g:=set_penguins (penguins p ++ [(r, c)]) p]>
              (players g)) as [|p0 ps] eqn:Hps.
  { apply (f_equal length) in Hps. rewrite length_insert in Hps. simpl in Hps. lia. }
  rewrite <- Hps. clear p0 ps Hps.
  set (i' := Z.to_nat _).
  assert (i' < length (players g))%nat as Hi'.
  { subst i'. rewrite length_insert. apply rotate_index_lt. lia. }
  assert (forall g'', penguin_positions g'' =
                        <[(r, c) := current_player_index g]> (penguin_positions g) ->
                      players g'' =
                        <[current_player_index g :=
                            set_penguins (penguins p ++ [(r, c)]) p]> (players g) ->
                      (current_player_index g'' < length (players g))%nat ->
                      well_formed g'') as Hwf.
  { intros g'' Hpp Hpl Hlt. split_and!.
    - by eapply consistent_place.
    - intros j q. rewrite Hpl.
      destruct (decide (j = current_player_index g)) as [->|Hne].
      + rewrite list_lookup_insert_eq by done. intros [= <-]. cbn.
        apply NoDup_app. split_and!; [by eapply Hnd| |apply NoDup_singleton].
        intros x Hx Hx'. apply list_elem_of_singleton in Hx' as ->.
        assert (penguin_positions g !! (r, c) = Some (current_player_index g))
          by (apply Hc; eauto). congruence.
      + rewrite list_lookup_insert_ne by done. apply Hnd.
    - by rewrite Hpl, length_insert. }
  match goal with |- context [decide ?P] => destruct (decide P) end; cbn;
    intros [= <-]; apply Hwf; cbn; try done. lia.
Qed.

Lemma handle_penguin_placement_well_formed g r c g' :
  well_formed g -> _handle_penguin_placement r c g = Ok tt g' -> well_formed g'.
Proof.
  intros Hwf. unfold _handle_penguin_placement.
  destruct (tiles (grid g) !! (r, c)); [|by intros [= <-]].
  destruct (penguin_positions g !! (r, c)) eqn:Hpp; [by intros [= <-]|].
  by apply place_penguin_at_well_formed.
Qed.

(** The choice of the computer is a placement a click could have asked
    for: a tile that holds no token. *)
Lemma ai_place_penguin_is_a_placement choice g :
  exists r c, _ai_place_penguin choice g = _handle_penguin_placement r c g.
Proof.
  unfold _ai_place_penguin.
  destruct (available_tiles g) as [|a l] eqn:Hav.
  - exists 0, 0. unfold _handle_penguin_placement.
    destruct (tiles (grid g) !! (0, 0)) as [t|] eqn:Ht; [|done].
    destruct (penguin_positions g !! (0, 0)) eqn:Hp; [done|].
    assert ((fish t, 0, 0) ∈ available_tiles g) as Hin.
    { unfold available_tiles. apply list_elem_of_fmap. exists ((0, 0), t).
      split; [done|]. apply list_elem_of_filter. split; [done|].
      by apply elem_of_map_to_list. }
    rewrite Hav in Hin. inversion Hin.
  - rewrite <- Hav. clear a l Hav.
    destruct (take 3 _ !! _) as [[[f r] c]|] eqn:Hpick.
    + exists r, c.
      apply list_elem_of_lookup_2, subseteq_take in Hpick.
      rewrite merge_sort_Permutation in Hpick.
      unfold available_tiles in Hpick.
      apply list_elem_of_fmap in Hpick as ([pos t] & [= -> -> ->] & Hin).
      apply list_elem_of_filter in Hin as [Hfree Hin].
      apply elem_of_map_to_list in Hin. destruct pos as [r c]. cbn in *.
      unfold _handle_penguin_placement. by rewrite Hin, Hfree.
    + exists 0, 0. unfold _handle_penguin_placement.
      destruct (tiles (grid g) !! (0, 0)) as [t|] eqn:Ht; [|done].
      destruct (penguin_positions g !! (0, 0)) eqn:Hp; [done|].
      exfalso. apply lookup_ge_None in Hpick.
      assert ((fish t, 0, 0) ∈ available_tiles g) as Hin.
      { unfold available_tiles. apply list_elem_of_fmap. exists ((0, 0), t).
        split; [done|]. apply list_elem_of_filter. split; [done|].
        by apply elem_of_map_to_list. }
      rewrite <- (merge_sort_Permutation tuple_ge) in Hin.
      destruct (merge_sort tuple_ge (available_tiles g)) as [|x xs];
        [inversion Hin|].
      pose proof (Nat.mod_upper_bound choice (length (take 3 (x :: xs)))) as Hb.
      rewrite length_take in *. simpl in *. lia.
Qed.

Lemma next_turn_loop_frame k : forall g,
  let g' := final (next_turn_loop k g) in
  grid g' = grid g /\ penguin_positions g' = penguin_positions g /\
  players g' = players g /\
  ((current_player_index g < length (players g))%nat ->
   (current_player_index g' < length (players g))%nat).
Proof.
  induction k as [|k IH]; intros g; cbn.
  - unfold _end_game, bind, modify, get, raise, ret. cbn.
    destruct (players g) eqn:E; cbn; rewrite ?E; done.
  - unfold bind, rotate. destruct (players g) as [|p0 ps] eqn:Hps.
    { cbn. by rewrite Hps. }
    rewrite <- Hps. unfold get, player_at. cbn.
    set (i' := Z.to_nat _).
    assert (i' < length (players g))%nat as Hi'.
    { subst i'. apply rotate_index_lt. rewrite Hps. simpl. lia. }
    destruct (players g !! i') as [player|] eqn:Hpl; [|done].
    destruct (existsb _ _); [done|].
    specialize (IH (set_current_player_index i' g)). cbn in IH.
    destruct IH as (? & ? & ? & Hlt). split_and!; try done.
    intros _. by apply Hlt.
Qed.

Lemma move_penguin_well_formed g from_pos to_pos i g' :
  well_formed g ->
  penguin_positions g !! from_pos = Some i ->
  to_pos ∈ _get_valid_moves g from_pos ->
  _move_penguin from_pos to_pos g = Ok tt g' ->
  well_formed g'.
Proof.
  intros (Hc & Hnd & Hcur) Hfrom Hto.
  pose proof Hfrom as Hfrom'. apply Hc in Hfrom' as (p & Hp & Hin).
  apply valid_move_is_free in Hto as [_ Hfree].
  destruct (list_remove_elem _ _ Hin) as [l Hl].
  rewrite (move_penguin_run g from_pos to_pos i p l) by done.
  intros [= <-].
  destruct (consistent_relocate g
              (set_player i
                 (set_penguins (l ++ [to_pos])
                    (set_fish_count
                       (fish_count p + (remove_tile from_pos.1 from_pos.2 (grid g)).1) p))
                 (set_penguin_positions
                    (<[to_pos := i]> (delete from_pos (penguin_positions g)))
                    (set_grid (remove_tile from_pos.1 from_pos.2 (grid g)).2 g)))
              from_pos to_pos i p l
              (fish_count p + (remove_tile from_pos.1 from_pos.2 (grid g)).1))
    as [Hc' Hnd']; try done.
  split_and!; try done. cbn. by rewrite length_insert.
Qed.

(** In a well-formed state the operations that change the position
    raise nothing. *)
Lemma next_turn_loop_returns k : forall g,
  (current_player_index g < length (players g))%nat ->
  exists g', next_turn_loop k g = Ok tt g'.
Proof.
  induction k as [|k IH]; intros g Hcur; cbn.
  - unfold _end_game, bind, modify, get, raise, ret. cbn.
    destruct (players g) eqn:E; [simpl in Hcur; lia|eauto].
  - unfold bind, rotate. destruct (players g) as [|p0 ps] eqn:Hps;
      [simpl in Hcur; lia|].
    rewrite <- Hps. unfold get, player_at. cbn.
    set (i' := Z.to_nat _).
    assert (i' < length (players g))%nat as Hi'.
    { subst i'. apply rotate_index_lt. rewrite Hps. simpl. lia. }
    destruct (lookup_lt_is_Some_2 _ _ Hi') as [player ->].
    destruct (existsb _ _); [unfold ret; by eexists|].
    by apply (IH (set_current_player_index i' g)).
Qed.

Lemma handle_penguin_placement_returns g r c :
  well_formed g -> exists g', _handle_penguin_placement r c g = Ok tt g'.
Proof.
  intros (_ & _ & Hcur). unfold _handle_penguin_placement.
  destruct (tiles (grid g) !! (r, c)); [|by eexists].
  destruct (penguin_positions g !! (r, c)); [by eexists|].
  destruct (lookup_lt_is_Some_2 _ _ Hcur) as [p Hp].
  unfold _place_penguin_at, bind, get, modify, player_at, rotate. cbn.
  rewrite Hp. cbn.
  destruct (<[current_player_index g:=set_penguins (penguins p ++ [(r, c)]) p]>
              (players g)) as [|p0 ps] eqn:Hps.
  { apply (f_equal length) in Hps. rewrite length_insert in Hps. simpl in Hps. lia. }
  match goal with |- context [decide ?P] => destruct (decide P) end;
    by eexists.
Qed.

Lemma complete_move_returns g from_pos to_pos i :
  well_formed g ->
  penguin_positions g !! from_pos = Some i ->
  exists g', _complete_move from_pos to_pos i g = Ok tt g'.
Proof.
  intros (Hc & _ & Hcur) Hfrom.
  pose proof Hfrom as Hfrom'. apply Hc in Hfrom' as (p & Hp & Hin).
  destruct (list_remove_elem _ _ Hin) as [l Hl].
  unfold _complete_move, bind.
  rewrite (move_penguin_run g from_pos to_pos i p l) by done.
  apply next_turn_loop_returns. cbn. by rewrite length_insert.
Qed.

(** A well-formed game object keeps the tokens apart: no player holds a
    cell twice and no two players hold the same cell. *)
Lemma well_formed_tokens_disjoint (g : FishGame) :
  well_formed g -> tokens_disjoint g /\ consistent g.
Proof.
  intros (Hc & Hnd & _).
  split; [|done]. split; [done|].
  intros i j p q pos Hp Hq Hin Hin'.
  assert (penguin_positions g !! pos = Some i) as Hi by (apply Hc; eauto).
  assert (penguin_positions g !! pos = Some j) as Hj by (apply Hc; eauto).
  congruence.
Qed.

Lemma opening_initial h : initial (opening h).
Proof.
  unfold initial. split_and!; try reflexivity; [discriminate|repeat constructor].
Defined.

(** The sample games are games: each is reached from the state after
    [_setup_game] by the calls of the handlers that make eight placements
    and one move. *)
Ltac click r c R :=
  eapply (reach_click _ r c) in R; [|vm_compute; reflexivity].
Ltac frame finished due choice R :=
  eapply (reach_update _ finished due choice) in R; [|vm_compute; reflexivity].
Ltac first_moves_played R :=
  click 5 1 R; frame false true 0%nat R; click 5 3 R; frame false true 2%nat R;
  click 5 5 R; frame false true 0%nat R; click 4 7 R; frame false true 0%nat R;
  click 4 7 R; click 5 7 R; frame true false 0%nat R.

Lemma first_moves_of_the_samples :
  first_moves (opening corridor_board) = Ok tt corridor /\
  first_moves (opening endgame_board) = Ok tt (endgame 3) /\
  first_moves (opening two_movers_board) = Ok tt (set_minimax_depth 3 two_movers).
Proof. split_and!; vm_compute; reflexivity. Qed.

Lemma reachable_eq g g' : reachable g -> g = g' -> reachable g'.
Proof. by intros H <-. Defined.

Lemma corridor_reachable : reachable corridor.
Proof.
  pose proof (reach_initial _ (opening_initial corridor_board)) as R.
  first_moves_played R.
  apply (reachable_eq _ _ R). vm_compute. reflexivity.
Defined.

Lemma endgame_reachable : reachable (endgame 3) /\ reachable (endgame 2).
Proof.
  pose proof (reach_initial _ (opening_initial endgame_board)) as R.
  first_moves_played R.
  split; [apply (reachable_eq _ _ R); vm_compute; reflexivity|].
  apply (reach_set_depth _ 2) in R; [|lia].
  apply (reachable_eq _ _ R). vm_compute. reflexivity.
Defined.

Lemma two_movers_reachable : reachable two_movers.
Proof.
  pose proof (reach_initial _ (opening_initial two_movers_board)) as R.
  first_moves_played R.
  apply (reach_set_depth _ 1) in R; [|lia].
  apply (reachable_eq _ _ R). vm_compute. reflexivity.
Defined.

(** ** Moves that wait in the queue *)

Lemma hasty_start_reachable : reachable hasty_start.
Proof.
  pose proof (reach_initial _ (opening_initial hasty_board)) as R.
  click 0 0 R; frame false true 0%nat R; click 0 2 R; frame false true 0%nat R;
  click 5 5 R; frame false true 0%nat R; click 5 7 R; frame false true 0%nat R.
  apply (reachable_eq _ _ R). vm_compute. reflexivity.
Defined.

Lemma hasty_first_reachable : reachable hasty_first.
Proof.
  pose proof hasty_start_reachable as R.
  click 0 0 R; click 0 1 R; click 0 2 R; click 0 1 R; frame true false 0%nat R.
  apply (reachable_eq _ _ R). vm_compute. reflexivity.
Defined.

Lemma hasty_double_reachable : reachable hasty_double.
Proof.
  pose proof hasty_first_reachable as R. frame true false 0%nat R.
  apply (reachable_eq _ _ R). vm_compute. reflexivity.
Defined.

Lemma hasty_stale_reachable : reachable hasty_stale.
Proof.
  pose proof hasty_double_reachable as R.
  click 0 1 R; click 1 1 R; frame true false 0%nat R.
  apply (reachable_eq _ _ R). vm_compute. reflexivity.
Defined.

(** C5 fails on the code. The click handler checks a destination
    against the list of valid moves stored when the token was selected,
    and a move clicked while an animation runs waits in
    [animation_queue]; [on_update] applies it later with no new check.
    In the game [hasty_start], reached by eight placements, player 0
    clicks two tokens to the same free cell [(0, 1)] before the first
    animation ends. When the first move is applied the second is no
    longer legal, its destination holds a token, and yet the next frame
    applies it: nothing is raised, the tile of [(0, 2)] is removed, the
    score grows and the token list of player 0 holds [(0, 1)] twice. *)
Theorem queued_move_is_applied_unchecked :
  hasty_placements (opening hasty_board) = Ok tt hasty_start /\
  (0, 1) ∈ _get_valid_moves hasty_start (0, 0) /\
  (0, 1) ∈ _get_valid_moves hasty_start (0, 2) /\
  (do hasty_clicks then on_update true false 0)%py hasty_start = Ok tt hasty_first /\
  reachable hasty_first /\
  game_state hasty_first = PLAYING /\
  current_animation hasty_first = Some ((0, 2), (0, 1), 0%nat) /\
  penguin_positions hasty_first !! (0, 1) = Some 0%nat /\
  (0, 1) ∉ _get_valid_moves hasty_first (0, 2) /\
  on_update true false 0 hasty_first = Ok tt hasty_double /\
  tiles (grid hasty_first) !! (0, 2) = Some (Tile_ 0 2 1) /\
  tiles (grid hasty_double) !! (0, 2) = None /\
  map fish_count (players hasty_first) = [1; 0] /\
  map fish_count (players hasty_double) = [2; 0] /\
  map penguins (players hasty_first) =
    [[(0, 2); (5, 5); (5, 7); (0, 1)]; [(3, 6); (3, 3); (3, 0); (1, 6)]] /\
  map penguins (players hasty_double) =
    [[(5, 5); (5, 7); (0, 1); (0, 1)]; [(3, 6); (3, 3); (3, 0); (1, 6)]].
Proof.
  split; [vm_compute; reflexivity|].
  split. { apply list_elem_of_In. vm_compute. tauto. }
  split. { apply list_elem_of_In. vm_compute. tauto. }
  split; [vm_compute; reflexivity|].
  split; [exact hasty_first_reachable|].
  split; [vm_compute; reflexivity|]. split; [vm_compute; reflexivity|].
  split; [vm_compute; reflexivity|].
  split. { intros H. apply list_elem_of_In in H. vm_compute in H. tauto. }
  split; [vm_compute; reflexivity|].
  split_and!; vm_compute; reflexivity.
Qed.

(** C9 fails on the code. In the same game the two moves that player 0
    clicked to the same cell are both applied: in the state the program
    reaches, the token list of player 0 holds [(0, 1)] twice, two tokens
    on one cell, while the dictionary of positions has one entry for the
    cell. Both clicks were legal when they were made. *)
Theorem hasty_clicks_put_two_tokens_on_a_cell :
  hasty_placements (opening hasty_board) = Ok tt hasty_start /\
  (0, 1) ∈ _get_valid_moves hasty_start (0, 0) /\
  (0, 1) ∈ _get_valid_moves hasty_start (0, 2) /\
  (do hasty_clicks then
   do on_update true false 0 then
   on_update true false 0)%py hasty_start = Ok tt hasty_double /\
  reachable hasty_double /\
  game_state hasty_double = PLAYING /\
  map penguins (players hasty_double) =
    [[(5, 5); (5, 7); (0, 1); (0, 1)]; [(3, 6); (3, 3); (3, 0); (1, 6)]] /\
  penguin_positions hasty_double !! (0, 1) = Some 0%nat /\
  size (penguin_positions hasty_double) = 7%nat /\
  ~ tokens_disjoint hasty_double.
Proof.
  split; [vm_compute; reflexivity|].
  split. { apply list_elem_of_In. vm_compute. tauto. }
  split. { apply list_elem_of_In. vm_compute. tauto. }
  split; [vm_compute; reflexivity|].
  split; [exact hasty_double_reachable|].
  split; [vm_compute; reflexivity|]. split; [vm_compute; reflexivity|].
  split; [vm_compute; reflexivity|]. split; [vm_compute; reflexivity|].
  intros [Hnd _].
  assert (exists p, players hasty_double !! 0%nat = Some p /\
                    penguins p = [(5, 5); (5, 7); (0, 1); (0, 1)]) as (p & Hp & Hl)
    by (eexists; split; vm_compute; reflexivity).
  specialize (Hnd _ _ Hp). rewrite Hl in Hnd.
  assert (2 = 3)%nat; [|lia].
  by apply (NoDup_lookup _ 2 3 (0, 1) Hnd).
Qed.


(** ** The search *)

(** At the depth cutoff and at a terminal position the value of a node is
    the static evaluation of the game object as it stands. *)
Lemma minimax_cutoff depth alpha beta maximizing_player g :
  depth = O \/ _is_game_over g = true ->
  _minimax depth alpha beta maximizing_player g = _evaluate_board g.
Proof.
  intros [->|Hover]; [done|]. destruct depth; [done|].
  cbn. unfold bind, get. by rewrite Hover.
Qed.

(** The value of a node at the cutoff or at the end of the game is the
    static value for the player whose index is [current_player_index] at
    that node, whoever started the search. *)
Lemma minimax_cutoff_value depth alpha beta maximizing_player g own :
  depth = O \/ _is_game_over g = true ->
  players g !! current_player_index g = Some own ->
  _minimax depth alpha beta maximizing_player g =
  Ok (fin (static_value g (current_player_index g) own)) g.
Proof.
  intros Hcut Hown. rewrite minimax_cutoff by done.
  unfold _evaluate_board, bind, get, player_at, ret. rewrite Hown.
  unfold static_value.
  destruct (opponents (current_player_index g) (players g)) as [|o os];
    [done|].
  rewrite !decide_True by (simpl; lia). done.
Qed.

(** Two scores that hold equal rationals are equal. *)
Lemma fin_eq (q q' : Qc) : (q == q')%Q -> fin q = fin q'.
Proof. intros H. by rewrite (Qc_is_canon _ _ H). Qed.

(** Two results of the search that hold equal rationals are equal. *)
Lemma outcome_fin_eq (o : outcome score) (q q' : Qc) (g : FishGame) :
  o = Ok (fin q) g -> (q == q')%Q -> o = Ok (fin q') g.
Proof. intros -> H. by rewrite (Qc_is_canon _ _ H). Qed.

(** C6 fails on the code. In [corridor], a state of a game, the computer
    is to move and one of its tokens has five legal moves, yet at depth 3
    the search ends with [best_move] empty: every child of the root is
    worth [-inf], because two plies down the opponent has no move while
    the game is not over, and [-inf > -inf] is false. [_ai_make_move] then
    passes the turn, which comes straight back to the computer with
    nothing changed. *)
Theorem ai_search_returns_no_move_with_legal_moves :
  reachable corridor /\
  penguins <$> players corridor !! current_player_index corridor
    = Some [(3, 6); (0, 0); (3, 3); (3, 0)] /\
  _get_valid_moves corridor (0, 0) = [(0, 1); (0, 2); (0, 3); (0, 4); (0, 5)] /\
  minimax_depth corridor = 3%nat /\
  (exists st, ai_search corridor = Ok st corridor /\
              best_move st = None /\ best_score st = neg_inf) /\
  _ai_make_move corridor = Ok tt corridor.
Proof.
  split; [exact corridor_reachable|].
  split; [reflexivity|]. split; [vm_compute; reflexivity|].
  split; [reflexivity|]. split.
  - eexists. split; [vm_compute; reflexivity|]. split; reflexivity.
  - vm_compute. reflexivity.
Qed.

(** C7 fails on the code. A temporary move and its undo put the tile, the
    position dictionary, the scores and the player to move back, but not
    the token list of the mover: the token that moved comes back at the
    end of the list. Here the computer tries the first move of its token
    at [(0, 0)] in [corridor]. *)
Theorem temp_move_undo_reorders_tokens :
  reachable corridor /\
  token_at corridor (0, 0) 1 /\
  tiles (grid corridor) !! (0, 0) = Some (Tile_ 0 0 3) /\
  (0, 1) ∈ _get_valid_moves corridor (0, 0) /\
  exists g',
    temp_move_and_undo (0, 0) (0, 1) corridor = Ok tt g' /\
    grid g' = grid corridor /\
    penguin_positions g' = penguin_positions corridor /\
    map fish_count (players g') = map fish_count (players corridor) /\
    current_player_index g' = current_player_index corridor /\
    map penguins (players corridor) = [south; [(3, 6); (0, 0); (3, 3); (3, 0)]] /\
    map penguins (players g') = [south; [(3, 6); (3, 3); (3, 0); (0, 0)]] /\
    g' <> corridor.
Proof.
  split; [exact corridor_reachable|].
  split. { split; [reflexivity|]. eexists. split; [reflexivity|]. right. by left. }
  split; [reflexivity|].
  split. { apply list_elem_of_In. vm_compute. tauto. }
  eexists. split; [vm_compute; reflexivity|].
  split_and!; try (vm_compute; reflexivity).
  intros H. apply (f_equal (fun g => map penguins (players g))) in H.
  vm_compute in H. discriminate.
Qed.

(** What the reordering does to the search: the loop over the tokens of
    the mover reads the list by position while the temporary moves
    reorder it. In [two_movers] the token at [(0, 0)] is tried, goes to
    the end of the list, the token at [(3, 3)] slips into its place and is
    never tried, although its move is worth more. *)
Lemma search_skips_a_token :
  reachable two_movers /\
  map penguins (players two_movers) = [south; [(3, 6); (0, 0); (3, 3); (3, 0)]] /\
  _get_valid_moves two_movers (3, 3) = [(3, 4)] /\
  (exists st, ai_search two_movers = Ok st two_movers /\
              best_move st = Some ((0, 0), (0, 1)) /\
              best_score st = fin (Q2Qc (3 # 2))) /\
  (exists st g', root_moves 1 (3, 3) [(3, 4)] (mkSearch neg_inf None neg_inf)
                   two_movers = Ok st g' /\
                 best_score st = fin (Q2Qc (5 # 2))).
Proof.
  split; [exact two_movers_reachable|].
  split; [reflexivity|]. split; [vm_compute; reflexivity|]. split.
  - eexists. split; [vm_compute; reflexivity|]. split; [reflexivity|].
    apply fin_eq. vm_compute. reflexivity.
  - eexists _, _. split; [vm_compute; reflexivity|].
    apply fin_eq. vm_compute. reflexivity.
Qed.

(** C8 fails on the code. In [endgame], a state of a game, the computer,
    player 1, searches at depth 3. After its two moves the game is over
    and the turn has passed to player 0: the node is valued by
    [_evaluate_board] for the player to move there, 1 - 4 = -3, and that
    is the score the search keeps; valued for the searching player the
    same position is worth +3. At depth 2 the same node is a depth
    cutoff, with the same value. *)
Theorem leaf_is_valued_for_the_player_to_move :
  reachable (endgame 3) /\ reachable (endgame 2) /\
  current_player_index (endgame 3) = 1%nat /\
  (let* _ := _make_temp_move (0, 0) (0, 1) in
   let* _ := _make_temp_move (0, 1) (0, 2) in
   rotate 1)%py (endgame 3) = Ok tt (endgame_leaf 3) /\
  _is_game_over (endgame_leaf 3) = true /\
  current_player_index (endgame_leaf 3) = 0%nat /\
  _minimax 1 neg_inf pos_inf true (endgame_leaf 3)
    = Ok (fin (of_Z (-3))) (endgame_leaf 3) /\
  _minimax 0 neg_inf pos_inf true (endgame_leaf 2)
    = Ok (fin (of_Z (-3))) (endgame_leaf 2) /\
  _evaluate_board (set_current_player_index 1 (endgame_leaf 3))
    = Ok (fin (of_Z 3)) (set_current_player_index 1 (endgame_leaf 3)) /\
  (exists st, ai_search (endgame 3) = Ok st (endgame 3) /\
              best_score st = fin (of_Z (-3))) /\
  (exists st, ai_search (endgame 2) = Ok st (endgame 2) /\
              best_score st = fin (of_Z (-3))).
Proof.
  split; [exact (proj1 endgame_reachable)|].
  split; [exact (proj2 endgame_reachable)|].
  split; [reflexivity|]. split; [vm_compute; reflexivity|].
  split; [vm_compute; reflexivity|]. split; [reflexivity|].
  split. { eapply outcome_fin_eq; vm_compute; reflexivity. }
  split. { eapply outcome_fin_eq; vm_compute; reflexivity. }
  split. { eapply outcome_fin_eq; vm_compute; reflexivity. }
  split.
  - eexists. split; [vm_compute; reflexivity|].
    apply fin_eq. vm_compute. reflexivity.
  - eexists. split; [vm_compute; reflexivity|].
    apply fin_eq. vm_compute. reflexivity.
Qed.

(** ** The search leaves the game as it found it *)

Lemma untouched_refl g : untouched g g.
Proof. by repeat split. Qed.

Lemma untouched_trans g1 g2 g3 :
  untouched g1 g2 -> untouched g2 g3 -> untouched g1 g3.
Proof. unfold untouched. intros H1 H2. intuition congruence. Qed.

Lemma steady_ret {A} (a : A) : steady (ret a).
Proof. intros g. split; [apply untouched_refl|done]. Qed.

Lemma steady_get : steady get.
Proof. intros g. split; [apply untouched_refl|done]. Qed.

Lemma steady_bind {A B} (m : M A) (k : A -> M B) :
  steady m -> (forall a, steady (k a)) -> steady (bind m k).
Proof.
  intros Hm Hk g. unfold bind. destruct (Hm g) as [Hu Hs].
  destruct (m g) as [a g1|e g1]; [|done].
  destruct (Hk a g1) as [Hu' Hs']. split.
  - by eapply untouched_trans.
  - destruct (k a g1); [congruence|done].
Qed.

Lemma steady_modify f :
  (forall g, untouched g (f g) /\ shape (f g) = shape g) -> steady (modify f).
Proof. intros H g. exact (H g). Qed.

Lemma steady_player_at i : steady (player_at i).
Proof.
  intros g. unfold player_at.
  destruct (players g !! i); (split; [apply untouched_refl|done]).
Qed.

Lemma steady_pop_penguin pos : steady (pop_penguin pos).
Proof.
  intros g. unfold pop_penguin.
  destruct (penguin_positions g !! pos); (split; [by repeat split|done]).
Qed.

Lemma steady_grid_remove_tile pos : steady (grid_remove_tile pos).
Proof.
  intros g. unfold grid_remove_tile. destruct (remove_tile _ _ _).
  split; [by repeat split|done].
Qed.

Lemma steady_rotate k : steady (rotate k).
Proof.
  intros g. unfold rotate.
  destruct (players g); (split; [by repeat split|done]).
Qed.

Lemma shape_set_player g i p q :
  players g !! i = Some p -> length (penguins q) = length (penguins p) ->
  shape (set_player i q g) = shape g.
Proof.
  intros Hp Hlen. unfold shape. cbn. rewrite list_fmap_insert.
  apply list_insert_id. by rewrite list_lookup_fmap, Hp, Hlen.
Qed.

Lemma steady_add_fish i n : steady (add_fish i n).
Proof.
  intros g. unfold add_fish, bind, player_at, modify.
  destruct (players g !! i) as [p|] eqn:Hp; cbn.
  - split; [by repeat split|]. by apply (shape_set_player g i p).
  - split; [apply untouched_refl|done].
Qed.

Lemma list_remove_length x l l' :
  list_remove x l = Some l' -> length l = S (length l').
Proof. intros H. by rewrite (list_remove_perm _ _ _ H). Qed.

Lemma steady_relocate i a b : steady (relocate i a b).
Proof.
  intros g. unfold relocate, bind, player_at, modify, raise.
  destruct (players g !! i) as [p|] eqn:Hp; cbn;
    [|split; [apply untouched_refl|done]].
  destruct (list_remove a (penguins p)) as [l|] eqn:Hl; cbn;
    [|split; [apply untouched_refl|done]].
  split; [by repeat split|]. apply (shape_set_player g i p); [done|].
  cbn. rewrite length_app, (list_remove_length _ _ _ Hl). simpl. lia.
Qed.

Create HintDb steady.
#[local] Hint Resolve steady_ret steady_get steady_player_at steady_pop_penguin
  steady_grid_remove_tile steady_rotate steady_add_fish steady_relocate : steady.

(** A chain of binds is steady when its links are. *)
Ltac steady_chain :=
  repeat first
    [ solve [eauto with steady]
    | solve [apply steady_modify; done]
    | apply steady_bind; [|intros ?] ].

Lemma steady_make_temp_move a b : steady (_make_temp_move a b).
Proof. unfold _make_temp_move. steady_chain. Qed.

Lemma steady_undo_temp_move a b n : steady (_undo_temp_move a b n).
Proof. unfold _undo_temp_move. steady_chain. Qed.

Lemma steady_evaluate_board : steady _evaluate_board.
Proof. unfold _evaluate_board. steady_chain. Qed.

#[local] Hint Resolve steady_make_temp_move steady_undo_temp_move
  steady_evaluate_board : steady.

Lemma steady_explore rec a b : steady rec -> steady (explore rec a b).
Proof. intros Hrec. unfold explore. steady_chain. Qed.

Lemma steady_max_moves rec pos beta moves :
  (forall a b, steady (rec a b)) ->
  forall st, steady (max_moves rec pos beta moves st).
Proof.
  intros Hrec. induction moves as [|m moves IH]; intros st; cbn.
  - apply steady_ret.
  - apply steady_bind; [by apply steady_explore|]. intros s.
    destruct (score_le _ _); [apply steady_ret|apply IH].
Qed.

Lemma steady_min_moves rec pos alpha moves :
  (forall a b, steady (rec a b)) ->
  forall st, steady (min_moves rec pos alpha moves st).
Proof.
  intros Hrec. induction moves as [|m moves IH]; intros st; cbn.
  - apply steady_ret.
  - apply steady_bind; [by apply steady_explore|]. intros s.
    destruct (score_le _ _); [apply steady_ret|apply IH].
Qed.

(** The loop over the tokens of a player ends within its fuel when the
    body keeps the number of tokens. *)
Lemma steady_for_penguins {A} (body : Z * Z -> A -> M A) owner :
  (forall pos acc, steady (body pos acc)) ->
  forall fuel i acc g,
    (forall p, players g !! owner = Some p ->
               (length (penguins p) <= fuel + i)%nat) ->
    untouched g (final (for_penguins body owner fuel i acc g)) /\
    match for_penguins body owner fuel i acc g with
    | Ok _ g' => shape g' = shape g
    | Raise e _ => e <> OutOfFuel
    end.
Proof.
  intros Hbody. induction fuel as [|fuel IH]; intros i acc g Hlen.
  - cbn. destruct (players g !! owner) as [p|] eqn:Hp;
      [|split; [apply untouched_refl|done]].
    destruct (penguins p !! i) eqn:Hi; [|split; [apply untouched_refl|done]].
    apply lookup_lt_Some in Hi. specialize (Hlen p eq_refl). simpl in Hlen. lia.
  - cbn. destruct (players g !! owner) as [p|] eqn:Hp;
      [|split; [apply untouched_refl|done]].
    destruct (penguins p !! i) as [pos|] eqn:Hi;
      [|split; [apply untouched_refl|done]].
    destruct (Hbody pos acc g) as [Hu Hs].
    destruct (body pos acc g) as [acc' g1|e g1]; [|done].
    destruct (IH (S i) acc' g1) as [Hu' Hs'].
    { intros q Hq. specialize (Hlen p eq_refl).
      assert (shape g1 !! owner = shape g !! owner) as Hsh by by rewrite Hs.
      unfold shape in Hsh. rewrite !list_lookup_fmap, Hq, Hp in Hsh.
      injection Hsh as Hsh. lia. }
    split; [by eapply untouched_trans|].
    destruct (for_penguins body owner fuel (S i) acc' g1); [congruence|done].
Qed.

(** One node of [_minimax] above the cutoff, with the binds of the monad
    spelled out. *)
Lemma minimax_S depth alpha beta maximizing_player g :
  _minimax (S depth) alpha beta maximizing_player g =
  if _is_game_over g then _evaluate_board g
  else
    match players g !! current_player_index g with
    | None => Raise IndexError g
    | Some current_player =>
      if maximizing_player then
        match for_penguins
                (fun penguin_pos st =>
                   let* g' := get in
                   max_moves (fun a b => _minimax depth a b false)
                             penguin_pos beta
                             (_get_valid_moves g' penguin_pos) st)%py
                (current_player_index g) (length (penguins current_player))
                0%nat (neg_inf, alpha) g with
        | Ok st g' => Ok st.1 g'
        | Raise e g' => Raise e g'
        end
      else
        match for_penguins
                (fun penguin_pos st =>
                   let* g' := get in
                   min_moves (fun a b => _minimax depth a b true)
                             penguin_pos alpha
                             (_get_valid_moves g' penguin_pos) st)%py
                (current_player_index g) (length (penguins current_player))
                0%nat (pos_inf, beta) g with
        | Ok st g' => Ok st.1 g'
        | Raise e g' => Raise e g'
        end
    end.
Proof.
  cbn [_minimax]. unfold bind at 1. unfold get at 1.
  destruct (_is_game_over g); [done|].
  unfold bind at 1. unfold player_at at 1.
  destruct (players g !! current_player_index g); [|done].
  by destruct maximizing_player.
Qed.

Lemma steady_minimax depth : forall alpha beta maximizing_player,
  steady (_minimax depth alpha beta maximizing_player).
Proof.
  induction depth as [|depth IH]; intros alpha beta maximizing_player;
    [apply steady_evaluate_board|].
  intros g. rewrite minimax_S.
  destruct (_is_game_over g); [apply steady_evaluate_board|].
  destruct (players g !! current_player_index g) as [p|] eqn:Hp;
    [|split; [apply untouched_refl|done]].
  destruct maximizing_player.
  - match goal with |- context [for_penguins ?b ?o ?f ?i0 ?a g] =>
      assert (forall pos acc, steady (b pos acc)) as Hb;
        [|assert (forall q, players g !! o = Some q ->
                            (length (penguins q) <= f + i0)%nat) as Hlen;
          [|destruct (steady_for_penguins b o Hb f i0 a g Hlen) as [Hu Hs]]]
    end.
    { intros pos st. apply steady_bind; [apply steady_get|]. intros g'.
      apply steady_max_moves. intros a b. apply IH. }
    { intros q Hq. assert (q = p) as -> by congruence. lia. }
    destruct (for_penguins _ _ _ _ _ g); done.
  - match goal with |- context [for_penguins ?b ?o ?f ?i0 ?a g] =>
      assert (forall pos acc, steady (b pos acc)) as Hb;
        [|assert (forall q, players g !! o = Some q ->
                            (length (penguins q) <= f + i0)%nat) as Hlen;
          [|destruct (steady_for_penguins b o Hb f i0 a g Hlen) as [Hu Hs]]]
    end.
    { intros pos st. apply steady_bind; [apply steady_get|]. intros g'.
      apply steady_min_moves. intros a b. apply IH. }
    { intros q Hq. assert (q = p) as -> by congruence. lia. }
    destruct (for_penguins _ _ _ _ _ g); done.
Qed.

Lemma steady_root_moves depth pos moves :
  forall st, steady (root_moves depth pos moves st).
Proof.
  induction moves as [|m moves IH]; intros st; cbn.
  - apply steady_ret.
  - apply steady_bind; [apply steady_make_temp_move|]. intros n.
    apply steady_bind; [apply steady_minimax|]. intros s.
    apply steady_bind; [apply steady_undo_temp_move|]. intros _.
    apply IH.
Qed.

(** When the search of [_ai_make_move] returns, the game object is the
    one it started from, whatever the search did in between; and the
    search never runs out of the fuel of the model. *)
Lemma ai_search_restores g :
  match ai_search g with
  | Ok _ g' => g' = g
  | Raise e _ => e <> OutOfFuel
  end.
Proof.
  unfold ai_search. unfold bind at 1. unfold get at 1.
  unfold bind at 1. unfold player_at at 1.
  destruct (players g !! current_player_index g) as [p|] eqn:Hp; [|done].
  unfold bind at 1.
match goal with |- context [for_penguins ?b ?o ?f ?i0 ?a g] =>
      assert (forall pos acc, steady (b pos acc)) as Hb;
        [|assert (forall q, players g !! o = Some q ->
                            (length (penguins q) <= f + i0)%nat) as Hlen;
          [|destruct (steady_for_penguins b o Hb f i0 a g Hlen) as [Hu Hs]]]
    end.
  { intros pos st. apply steady_bind; [apply steady_get|]. intros g'.
    apply steady_root_moves. }
  { intros q Hq. assert (q = p) as -> by congruence. lia. }
  destruct (for_penguins _ _ _ _ _ g) as [st g1|e g1]; [|done].
  cbn in Hu. destruct Hu as (H1 & H2 & H3 & H4 & H5 & H6).
  unfold bind, modify, ret. cbn.
  destruct g, g1. cbn in *. subst. reflexivity.
Qed.

Lemma minimax_never_out_of_fuel depth alpha beta maximizing_player g g' :
  _minimax depth alpha beta maximizing_player g <> Raise OutOfFuel g'.
Proof.
  intros H. destruct (steady_minimax depth alpha beta maximizing_player g) as [_ Hs].
  rewrite H in Hs. done.
Qed.

(** What a temporary move and its undo do restore, in a state whose
    position dictionary and token lists agree: the tile comes back with
    the fish it had, the position dictionary, every score, every other
    token list and the player to move are as before; the token list of the
    mover holds the same cells, the moved one last. *)
Lemma temp_move_undo_restores g from_pos to_pos i t :
  consistent g ->
  penguin_positions g !! from_pos = Some i ->
  tiles (grid g) !! from_pos = Some t ->
  to_pos ∈ _get_valid_moves g from_pos ->
  exists g' p l,
    temp_move_and_undo from_pos to_pos g = Ok tt g' /\
    players g !! i = Some p /\
    list_remove from_pos (penguins p) = Some l /\
    tiles (grid g') =
      <[from_pos := Tile_ from_pos.1 from_pos.2 (fish t)]> (tiles (grid g)) /\
    rows (grid g') = rows (grid g) /\ cols (grid g') = cols (grid g) /\
    penguin_positions g' = penguin_positions g /\
    players g' = <[i := set_penguins (l ++ [from_pos]) p]> (players g) /\
    penguins p ≡ₚ l ++ [from_pos] /\
    current_player_index g' = current_player_index g /\
    untouched g g'.
Proof.
  intros Hc Hpp Ht Hto.
  pose proof Hpp as Hpp'. apply Hc in Hpp' as (p & Hp & Hin).
  destruct (list_remove_elem _ _ Hin) as [l Hl].
  apply valid_move_is_free in Hto as [_ Hfree].
  pose proof (lookup_lt_Some _ _ _ Hp) as Hlt.
  assert (to_pos ∉ l) as Hto.
  { intros Hin'. assert (to_pos ∈ penguins p) as Hin''
      by (apply (list_remove_elem_of _ _ _ _ Hl); by right).
    assert (penguin_positions g !! to_pos = Some i) by (apply Hc; eauto).
    congruence. }
  destruct from_pos as [r c].
  eexists _, p, l. split.
  { unfold temp_move_and_undo, _make_temp_move, bind, pop_penguin. rewrite Hpp.
    unfold grid_remove_tile, remove_tile. cbn. rewrite Ht. cbn.
    unfold add_fish, bind, player_at. cbn. rewrite Hp.
    unfold modify, relocate, bind, player_at. cbn.
    rewrite list_lookup_insert_eq by done. cbn. rewrite Hl. cbn.
    unfold _undo_temp_move, bind, pop_penguin. cbn.
    rewrite lookup_insert_eq. unfold modify, add_fish, bind, player_at. cbn.
    rewrite list_lookup_insert_eq by (by rewrite length_insert). cbn.
    unfold relocate, bind, player_at. cbn.
    rewrite list_lookup_insert_eq by (by rewrite !length_insert). cbn.
    rewrite list_remove_snoc by done. reflexivity. }
  cbn. rewrite !list_insert_insert_eq.
  split_and!; try reflexivity; try done.
  - by rewrite insert_delete_eq.
  - rewrite delete_insert_eq, (delete_id (delete _ _)), insert_delete_eq.
    + by apply insert_id.
    + rewrite lookup_delete_ne; [done|]. intros <-. congruence.
  - f_equal. destruct p. unfold set_penguins, set_fish_count. cbn. f_equal. lia.
  - rewrite (list_remove_perm _ _ _ Hl). apply Permutation_cons_append.
Qed.

(** A loop whose body does nothing does nothing. *)
Lemma for_penguins_idle {A} (body : Z * Z -> A -> M A) owner p acc g :
  players g !! owner = Some p ->
  (forall pos, pos ∈ penguins p -> body pos acc g = Ok acc g) ->
  forall fuel i, (length (penguins p) <= fuel + i)%nat ->
  for_penguins body owner fuel i acc g = Ok acc g.
Proof.
  intros Hp Hbody. induction fuel as [|fuel IH]; intros i Hlen; cbn; rewrite Hp.
  - destruct (penguins p !! i) eqn:Hi; [|done].
    apply lookup_lt_Some in Hi. simpl in Hlen. lia.
  - destruct (penguins p !! i) as [pos|] eqn:Hi; [|done].
    rewrite Hbody by (by eapply list_elem_of_lookup_2). apply IH. lia.
Qed.

(** When no token of the player to move has a legal move, the search
    returns no move and the game object it started from. *)
Lemma ai_search_without_moves g p :
  players g !! current_player_index g = Some p ->
  (forall pos, pos ∈ penguins p -> _get_valid_moves g pos = []) ->
  ai_search g = Ok (mkSearch neg_inf None neg_inf) g.
Proof.
  intros Hp Hstuck. unfold ai_search. unfold bind at 1. unfold get at 1.
  unfold bind at 1. unfold player_at at 1. rewrite Hp.
  unfold bind at 1. rewrite (for_penguins_idle _ _ p); try done.
  - unfold bind, modify, ret. destruct g. reflexivity.
  - intros pos Hpos. unfold bind, get. by rewrite (Hstuck pos Hpos).
  - lia.
Qed.

(** ** The first draft of the move generator *)

(** From an even column the draft of [fish.py] follows the north-east line
    for one step only: in the odd column it reaches, no neighbour lies at
    the same offset. The generator of the game goes on along the label. *)
Lemma draft_generator_stops_early :
  _get_valid_moves north_east (2, 2) = [(1, 3); (0, 3)] /\
  Draft._get_valid_moves north_east (2, 2) = [(1, 3)].
Proof. split; vm_compute; reflexivity. Qed.

(** * The geometry of the move generator *)

Ltac parity := Z.to_euclidean_division_equations; lia.

Lemma step_cases d r c :
  step d (r, c) =
  match d with
  | E => (r, c + 1)
  | W => (r, c - 1)
  | NE => if decide (c mod 2 = 0) then (r - 1, c + 1) else (r - 1, c)
  | NW => if decide (c mod 2 = 0) then (r - 1, c) else (r - 1, c - 1)
  | SW => if decide (c mod 2 = 0) then (r + 1, c) else (r + 1, c - 1)
  | SE => if decide (c mod 2 = 0) then (r + 1, c + 1) else (r + 1, c)
  end.
Proof.
  unfold step, _get_next_in_direction, _get_hex_neighbors_with_direction.
  cbn [fst snd]. destruct (decide (c mod 2 = 0)), d; reflexivity.
Qed.

Lemma line_slide d p n : line d p (S n) = slide d p (Z.of_nat (S n)).
Proof.
  destruct p as [r c]. induction n as [|n IH].
  - change (line d (r, c) 1) with (step d (r, c)). rewrite step_cases.
    unfold slide. cbn [fst snd].
    destruct d, (decide (c mod 2 = 0)); f_equal; lia.
  - change (line d (r, c) (S (S n))) with (step d (line d (r, c) (S n))).
    rewrite IH. unfold slide. cbn [fst snd].
    destruct d, (decide (c mod 2 = 0)); rewrite step_cases;
      repeat case_decide; try (exfalso; parity); f_equal; lia.
Qed.

(** X1. The destinations in closed form: a cell is offered exactly when
    it is the [n]-th cell ([n >= 1]) of one of the six lines of the start
    and the cells 1 to [n] of that line are free. The lines [E] and [W]
    run along the row of the start; the four diagonal labels run along a
    column, the column of the start or the next one (to the east of an
    even column, to the west of an odd one). So every destination is in
    the row of the start, in its column or in that one neighbouring
    column. *)
Theorem get_valid_moves_closed_form (g : FishGame) (start : Z * Z) :
  (forall c, c ∈ _get_valid_moves g start <->
     exists d n, 0 < n /\ c = slide d start n /\
                 forall k, 0 < k <= n -> free g (slide d start k)) /\
  (forall c, c ∈ _get_valid_moves g start ->
     c.1 = start.1 \/ c.2 = start.2 \/
     c.2 = if decide (start.2 mod 2 = 0) then start.2 + 1 else start.2 - 1).
Proof.
  assert (forall c, c ∈ _get_valid_moves g start <->
     exists d n, 0 < n /\ c = slide d start n /\
                 forall k, 0 < k <= n -> free g (slide d start k)) as Hcf.
  { intros c. rewrite get_valid_moves_spec. split.
    - intros (d & n & -> & Hall). exists d, (Z.of_nat (S n)).
      split; [lia|]. split; [apply line_slide|].
      intros k Hk. replace k with (Z.of_nat (S (Z.to_nat (k - 1)))) by lia.
      rewrite <- line_slide. apply Hall. lia.
    - intros (d & n & Hn & -> & Hall). exists d, (Z.to_nat (n - 1)).
      split; [rewrite line_slide; f_equal; lia|].
      intros k Hk. rewrite line_slide. apply Hall. lia. }
  split; [exact Hcf|].
  intros c Hin. apply Hcf in Hin as (d & n & _ & -> & _).
  unfold slide. destruct d, (decide (start.2 mod 2 = 0)); cbn [fst snd]; auto.
Qed.

(** The cells of a walk are pairwise different. *)
Lemma trace_NoDup g d fuel : forall p, NoDup (trace g d fuel p).
Proof.
  induction fuel as [|fuel IH]; intros p; cbn [trace]; [constructor|].
  destruct (tiles (grid g) !! p); [|constructor].
  destruct (penguin_positions g !! p); [constructor|].
  rewrite next_in_direction_step. constructor; [|replace (p.1, p.2) with p by (by destruct p); apply IH].
  intros Hin. apply trace_sound in Hin as (n & Heq & _).
  replace (p.1, p.2) with p in Heq by (by destruct p).
  rewrite <- line_S in Heq. symmetry in Heq. exact (line_leaves d p n Heq).
Qed.

(** The lines of two different labels share no cell. *)
Lemma slide_injective d d' p n m :
  0 < n -> 0 < m -> slide d p n = slide d' p m -> d = d'.
Proof.
  intros Hn Hm. unfold slide.
  destruct d, d', (decide (p.2 mod 2 = 0)); cbn [fst snd];
    intros [=]; try reflexivity; exfalso; lia.
Qed.

Lemma trace_disjoint g d d' fuel fuel' start c :
  d <> d' ->
  c ∈ trace g d fuel (step d start) ->
  c ∉ trace g d' fuel' (step d' start).
Proof.
  intros Hne Hin Hin'.
  apply trace_sound in Hin as (n & Hc & _).
  apply trace_sound in Hin' as (m & Hc' & _).
  rewrite <- line_S, line_slide in Hc. rewrite <- line_S, line_slide in Hc'.
  apply Hne. rewrite Hc in Hc'.
  eapply (slide_injective d d' start); [| |exact Hc']; lia.
Qed.

(** X2. The move generator lists no destination twice: the walk of a
    direction never passes a cell twice and the six lines of a start
    share no cell. The length of the list, which the evaluation uses as
    the mobility of a token, is the number of cells the token can reach. *)
Theorem get_valid_moves_NoDup (g : FishGame) (start : Z * Z) :
  NoDup (_get_valid_moves g start).
Proof.
  unfold _get_valid_moves. destruct start as [r c]. cbn [fst snd].
  rewrite neighbors_are_steps. unfold directions.
  cbn [map flat_map]. rewrite app_nil_r.
  repeat (apply NoDup_app; split; [apply trace_NoDup|split;
    [intros x Hx; rewrite ?elem_of_app;
     intros Hx'; decompose [or] Hx';
     match goal with
     | H : x ∈ trace _ _ _ _ |- _ =>
       solve [eapply (trace_disjoint g); [|exact Hx|exact H]; discriminate]
     end|]]).
  apply trace_NoDup.
Qed.

(** The candidates of [get_neighbors] are the six labelled neighbours. *)
Lemma get_neighbors_steps h r c q :
  q ∈ Draft.get_neighbors h r c <->
  is_Some (tiles h !! q) /\ exists d, q = step d (r, c).
Proof.
  unfold Draft.get_neighbors. rewrite list_elem_of_filter.
  split; intros [Ht Hq]; (split; [exact Ht|]).
  - destruct (decide (c mod 2 = 0)) as [Hc|Hc]; cbn [map] in Hq;
      rewrite !elem_of_cons, elem_of_nil in Hq;
      decompose [or] Hq; try done; subst q;
      [exists NW|exists NE|exists W|exists E|exists SW|exists SE
      |exists NW|exists NE|exists W|exists E|exists SW|exists SE];
      rewrite step_cases; destruct (decide (c mod 2 = 0)); try done;
      f_equal; lia.
  - destruct Hq as [d ->]. rewrite step_cases.
    destruct (decide (c mod 2 = 0)) as [Hc|Hc]; cbn [map];
      rewrite !elem_of_cons; destruct d;
      repeat (first [left; f_equal; lia | right]).
Qed.

(** X3. [get_neighbors] returns exactly the cells that have a tile and
    are one labelled step away from the cell asked for; the
    neighbourhood is symmetric: when [q] is returned for [p] and [p] has
    a tile, [p] is returned for [q]; and a cell is never its own
    neighbour. *)
Theorem get_neighbors_symmetric (h : HexGrid) (p q : Z * Z) :
  (q ∈ Draft.get_neighbors h p.1 p.2 <->
   is_Some (tiles h !! q) /\ exists d, q = step d p) /\
  (q ∈ Draft.get_neighbors h p.1 p.2 -> is_Some (tiles h !! p) ->
   p ∈ Draft.get_neighbors h q.1 q.2) /\
  (q ∈ Draft.get_neighbors h p.1 p.2 -> p <> q).
Proof.
  destruct p as [r c]. cbn [fst snd].
  split; [apply get_neighbors_steps|]. split.
  - intros Hq Hp. apply get_neighbors_steps in Hq as [Ht [d ->]].
    apply get_neighbors_steps. split; [done|].
    rewrite step_cases.
    destruct d, (decide (c mod 2 = 0)); cbn [fst snd];
      [exists W|exists W|exists SW|exists SE|exists SW|exists SE
      |exists E|exists E|exists NW|exists NE|exists NW|exists NE];
      rewrite step_cases; repeat case_decide; try (exfalso; parity);
      f_equal; lia.
  - intros Hq. apply get_neighbors_steps in Hq as [_ [d ->]].
    intros Heq. exact (line_leaves d (r, c) 0 (eq_sym Heq)).
Qed.

(** * The turn engine *)

Lemma set_current_player_index_same g :
  set_current_player_index (current_player_index g) g = g.
Proof. by destruct g. Qed.

Lemma rotate_1 g :
  players g <> [] ->
  rotate 1 g =
  Ok tt (set_current_player_index
           ((current_player_index g + 1) mod length (players g))%nat g).
Proof.
  intros Hne. unfold rotate. destruct (players g) as [|p ps] eqn:E; [done|].
  do 2 f_equal. rewrite <- (Nat2Z.id ((_ + 1) mod _)%nat).
  f_equal. rewrite Nat2Z.inj_mod. f_equal. lia.
Qed.

Lemma end_game_run g :
  players g <> [] -> _end_game g = Ok tt (set_game_state GAME_OVER g).
Proof.
  intros Hne. unfold _end_game, bind, modify, get, raise, ret. cbn.
  by destruct (players g).
Qed.

Lemma existsb_can_move_ext g g' l :
  grid g' = grid g -> penguin_positions g' = penguin_positions g ->
  existsb (can_move g') l = existsb (can_move g) l.
Proof.
  intros Hg Hp. induction l as [|x l IH]; [done|].
  cbn. by rewrite IH, (can_move_ext g g').
Qed.

(** The loop of [_next_turn], from any player of the round. *)
Lemma next_turn_loop_run g remaining : forall i,
  (i < length (players g))%nat ->
  next_turn_loop remaining (set_current_player_index i g) =
  match first_movable g (length (players g)) i remaining with
  | Some j => Ok tt (set_current_player_index j g)
  | None =>
    Ok tt (set_game_state GAME_OVER
             (set_current_player_index
                ((i + remaining) mod length (players g))%nat g))
  end.
Proof.
  induction remaining as [|k IH]; intros i Hi;
    assert (players g <> []) as Hne by (destruct (players g); cbn in *; [lia|done]).
  - cbn [next_turn_loop first_movable]. rewrite end_game_run by done.
    do 3 f_equal. rewrite Nat.add_0_r, Nat.mod_small; done.
  - cbn [next_turn_loop first_movable]. unfold bind at 1.
    rewrite rotate_1 by done. cbn [current_player_index set_current_player_index players].
    set (j := ((i + 1) mod length (players g))%nat).
    assert (j < length (players g))%nat as Hj by (apply Nat.mod_upper_bound; lia).
    unfold bind, get, player_at. cbn [current_player_index set_current_player_index players].
    unfold movable.
    destruct (lookup_lt_is_Some_2 (players g) j Hj) as [p Hp]. rewrite Hp.
    rewrite (existsb_can_move_ext g) by done.
    destruct (existsb (can_move g) (penguins p)).
    + reflexivity.
    + change (set_current_player_index j (set_current_player_index i g))
        with (set_current_player_index j g).
      rewrite IH by done. replace ((j + k) mod length (players g))%nat
        with ((i + S k) mod length (players g))%nat; [done|].
      unfold j. rewrite Nat.Div0.add_mod_idemp_l. f_equal. lia.
Qed.

Lemma first_movable_Some g n remaining : forall i j,
  first_movable g n i remaining = Some j ->
  exists k, (1 <= k <= remaining)%nat /\ j = ((i + k) mod n)%nat /\
            movable g j = true /\
            forall m, (1 <= m < k)%nat -> movable g ((i + m) mod n)%nat = false.
Proof.
  induction remaining as [|r IH]; intros i j; cbn [first_movable]; [done|].
  destruct (movable g ((i + 1) mod n)%nat) eqn:Hm.
  - intros [= <-]. exists 1%nat.
    split; [lia|]. split; [done|]. split; [exact Hm|]. intros m Hm'. lia.
  - intros H. apply IH in H as (k & Hk & -> & Hj & Hbefore).
    assert (((i + 1) mod n + k) mod n = (i + S k) mod n)%nat as E
      by (rewrite Nat.Div0.add_mod_idemp_l; f_equal; lia).
    rewrite E in *. exists (S k).
    split; [lia|]. split; [done|]. split; [done|].
    intros m Hm'. destruct (decide (m = 1%nat)) as [->|Hne]; [done|].
    specialize (Hbefore (m - 1)%nat). rewrite Nat.Div0.add_mod_idemp_l in Hbefore.
    replace (i + 1 + (m - 1))%nat with (i + m)%nat in Hbefore by lia.
    apply Hbefore. lia.
Qed.

Lemma first_movable_None g n remaining : forall i,
  first_movable g n i remaining = None ->
  forall m, (1 <= m <= remaining)%nat -> movable g ((i + m) mod n)%nat = false.
Proof.
  induction remaining as [|r IH]; intros i; cbn [first_movable]; [intros _ m; lia|].
  destruct (movable g ((i + 1) mod n)%nat) eqn:Hm; [done|].
  intros H m Hm'. destruct (decide (m = 1%nat)) as [->|Hne]; [done|].
  specialize (IH _ H (m - 1)%nat). rewrite Nat.Div0.add_mod_idemp_l in IH.
  replace (i + 1 + (m - 1))%nat with (i + m)%nat in IH by lia.
  apply IH. lia.
Qed.

(** The game is over when no player passes the test of [_next_turn]. *)
Lemma is_game_over_movable g :
  _is_game_over g = true <-> forall i, movable g i = false.
Proof.
  unfold _is_game_over, movable. rewrite forallb_forall. split.
  - intros H i. destruct (players g !! i) as [p|] eqn:Hp; [|done].
    specialize (H p (proj1 (list_elem_of_In _ _) (list_elem_of_lookup_2 _ _ _ Hp))).
    rewrite forallb_forall in H.
    destruct (existsb (can_move g) (penguins p)) eqn:He; [|done].
    apply existsb_exists in He as (pos & Hin & Hc).
    specialize (H pos Hin). by rewrite Hc in H.
  - intros H p Hin. apply list_elem_of_In, list_elem_of_lookup_1 in Hin as [i Hp].
    specialize (H i). rewrite Hp in H.
    apply forallb_forall. intros pos Hpos.
    destruct (can_move g pos) eqn:Hc; [|done].
    assert (existsb (can_move g) (penguins p) = true) as He
      by (apply existsb_exists; eauto).
    congruence.
Qed.

(** Every player of the round comes up within one round. *)
Lemma round_covers n i j :
  (i < n)%nat -> (j < n)%nat ->
  exists m, (1 <= m <= n)%nat /\ ((i + m) mod n)%nat = j.
Proof.
  intros Hi Hj. destruct (decide (i < j)%nat).
  - exists (j - i)%nat. split; [lia|].
    replace (i + (j - i))%nat with j by lia. by apply Nat.mod_small.
  - exists (j + n - i)%nat. split; [lia|].
    replace (i + (j + n - i))%nat with (j + 1 * n)%nat by lia.
    rewrite Nat.Div0.mod_add. by apply Nat.mod_small.
Qed.

(** X4. [_next_turn] hands the turn to the first player, in the order of
    the round after the player who moved, one of whose tokens has a
    destination; the round ends with the player who moved, who keeps the
    turn when only that player can move. Nothing but the player to move
    changes. When no token of any player has a destination, the phase
    becomes [GAME_OVER] and the player to move is the one who moved. *)
Theorem next_turn_spec (g : FishGame) :
  (current_player_index g < length (players g))%nat ->
  (_is_game_over g = true ->
   _next_turn g = Ok tt (set_game_state GAME_OVER g)) /\
  (_is_game_over g = false ->
   exists k,
     (1 <= k <= length (players g))%nat /\
     let next := ((current_player_index g + k) mod length (players g))%nat in
     _next_turn g = Ok tt (set_current_player_index next g) /\
     movable g next = true /\
     forall m, (1 <= m < k)%nat ->
       movable g ((current_player_index g + m) mod length (players g))%nat = false).
Proof.
  intros Hcur. unfold _next_turn.
  pose proof (next_turn_loop_run g (length (players g)) _ Hcur) as Hrun.
  rewrite set_current_player_index_same in Hrun. rewrite Hrun. clear Hrun.
  destruct (first_movable g (length (players g)) (current_player_index g)
              (length (players g))) as [j|] eqn:Hf; split.
  - intros Hover. apply first_movable_Some in Hf as (k & _ & _ & Hj & _).
    rewrite (proj1 (is_game_over_movable g) Hover j) in Hj. done.
  - intros _. apply first_movable_Some in Hf as (k & Hk & -> & Hj & Hbefore).
    exists k. split; [done|]. cbn zeta. split; [done|]. split; done.
  - intros _. do 2 f_equal.
    replace (current_player_index g + length (players g))%nat
      with (current_player_index g + 1 * length (players g))%nat by lia.
    rewrite Nat.Div0.mod_add, Nat.mod_small by done.
    apply set_current_player_index_same.
  - intros Hover. exfalso.
    assert (_is_game_over g = true) as Ht; [|congruence].
    apply is_game_over_movable. intros i.
    destruct (decide (i < length (players g))%nat) as [Hi|Hi].
    + destruct (round_covers _ _ _ Hcur Hi) as (m & Hm & <-).
      by apply (first_movable_None _ _ _ _ Hf).
    + unfold movable. rewrite lookup_ge_None_2; [done|lia].
Qed.

Lemma next_turn_spec_witness :
  (current_player_index corridor < length (players corridor))%nat /\
  _is_game_over corridor = false /\
  exists k, (1 <= k <= 2)%nat /\
    _next_turn corridor =
    Ok tt (set_current_player_index ((1 + k) mod 2)%nat corridor).
Proof.
  assert (current_player_index corridor < length (players corridor))%nat as H
    by (vm_compute; lia).
  split; [exact H|]. split; [vm_compute; reflexivity|].
  destruct (proj2 (next_turn_spec corridor H)) as (k & Hk & Hrun & _);
    [vm_compute; reflexivity|].
  exists k. split; [exact Hk|exact Hrun].
Defined.

(** * Placing the tokens *)

Lemma place_penguin_at_run g r c p :
  players g !! current_player_index g = Some p ->
  _place_penguin_at r c g =
  Ok tt (if decide (total_penguins (placed r c p g) >=
                    expected_penguins (placed r c p g))
         then set_current_player_index 0
                (set_game_state PLAYING (placed r c p g))
         else placed r c p g).
Proof.
  intros Hp.
  assert (players g <> []) as Hne by (intros E; by rewrite E in Hp).
  unfold _place_penguin_at, bind, get, modify, player_at. cbn. rewrite Hp.
  rewrite rotate_1 by (cbn; intros E; apply (f_equal length) in E;
                       rewrite length_insert in E; destruct (players g); done).
  cbn. rewrite length_insert. unfold placed, set_player.
  match goal with |- context [decide ?P] => destruct (decide P) end; reflexivity.
Qed.

Lemma list_sum_replicate n x : list_sum (replicate n x) = (n * x)%nat.
Proof. induction n as [|n IH]; [done|]. simpl. rewrite IH. lia. Qed.

Lemma shape_placed g r c p k :
  players g !! current_player_index g = Some p ->
  round_robin g k ->
  shape (placed r c p g) =
  replicate (S (current_player_index g)) (S k) ++
  replicate (length (players g) - S (current_player_index g)) k.
Proof.
  intros Hp Hrr. pose proof (lookup_lt_Some _ _ _ Hp) as Hlt.
  unfold shape, placed, set_player. cbn.
  rewrite list_fmap_insert. fold (shape g). rewrite Hrr. cbn.
  assert (length (penguins p) = k) as Hk.
  { assert (shape g !! current_player_index g = Some (length (penguins p))) as Hs
      by (unfold shape; by rewrite list_lookup_fmap, Hp).
    rewrite Hrr, lookup_app_r, lookup_replicate in Hs
      by (rewrite length_replicate; lia).
    destruct Hs as [Hs _]. congruence. }
  rewrite length_app, Hk. cbn [length]. rewrite Nat.add_1_r.
  rewrite insert_app_r_alt by (rewrite length_replicate; lia).
  rewrite length_replicate, Nat.sub_diag.
  replace (length (players g) - current_player_index g)%nat
    with (S (length (players g) - S (current_player_index g))) by lia.
  cbn. generalize (length (players g) - S (current_player_index g))%nat.
  intros m. generalize (current_player_index g). intros n.
  induction n as [|n IH]; cbn; [done|]. by rewrite IH.
Qed.

(** What a returning [_move_penguin] has done. *)
Lemma move_penguin_inv g from_pos to_pos g' :
  _move_penguin from_pos to_pos g = Ok tt g' ->
  exists i p l,
    penguin_positions g !! from_pos = Some i /\
    players g !! i = Some p /\
    list_remove from_pos (penguins p) = Some l /\
    g' = set_player i
           (set_penguins (l ++ [to_pos])
              (set_fish_count
                 (fish_count p + (remove_tile from_pos.1 from_pos.2 (grid g)).1) p))
           (set_penguin_positions
              (<[to_pos := i]> (delete from_pos (penguin_positions g)))
              (set_grid (remove_tile from_pos.1 from_pos.2 (grid g)).2 g)).
Proof.
  intros Hrun.
  destruct (penguin_positions g !! from_pos) as [i|] eqn:Hi.
  2:{ revert Hrun. unfold _move_penguin, bind, pop_penguin. by rewrite Hi. }
  destruct (players g !! i) as [p|] eqn:Hp.
  2:{ revert Hrun. unfold _move_penguin, bind, pop_penguin. rewrite Hi.
      unfold grid_remove_tile. cbn.
      destruct (remove_tile _ _ _). unfold add_fish, bind, player_at. cbn.
      by rewrite Hp. }
  destruct (list_remove from_pos (penguins p)) as [l|] eqn:Hl.
  - exists i, p, l. rewrite (move_penguin_run g from_pos to_pos i p l) in Hrun by done.
    by injection Hrun as <-.
  - exfalso. revert Hrun. unfold _move_penguin, bind, pop_penguin. rewrite Hi.
    unfold grid_remove_tile. cbn.
    destruct (remove_tile _ _ _). unfold add_fish, bind, player_at, modify. cbn.
    rewrite Hp. cbn. unfold relocate, bind, player_at. cbn.
    rewrite list_lookup_insert_eq by (by eapply lookup_lt_Some). cbn.
    by rewrite Hl.
Qed.

(** [_next_turn] in a state whose player to move exists: it returns, and
    changes the player to move and, to [GAME_OVER], the phase only. *)
Lemma next_turn_frame g :
  (current_player_index g < length (players g))%nat ->
  exists g', _next_turn g = Ok tt g' /\
    grid g' = grid g /\ penguin_positions g' = penguin_positions g /\
    players g' = players g /\ minimax_depth g' = minimax_depth g /\
    (current_player_index g' < length (players g))%nat /\
    (game_state g' = game_state g \/ game_state g' = GAME_OVER).
Proof.
  intros Hcur. unfold _next_turn.
  pose proof (next_turn_loop_run g (length (players g)) _ Hcur) as Hrun.
  rewrite set_current_player_index_same in Hrun. rewrite Hrun. clear Hrun.
  destruct (first_movable _ _ _ _) as [j|] eqn:Hf.
  - eexists. split; [done|]. cbn. split_and!; try done; [|by left].
    apply first_movable_Some in Hf as (k & _ & -> & _).
    apply Nat.mod_upper_bound. lia.
  - eexists. split; [done|]. cbn. split_and!; try done; [|by right].
    apply Nat.mod_upper_bound. lia.
Qed.

Lemma quota_kept_placed g r c p g' :
  (length (players g) <= 5)%nat ->
  game_state g = PLACING_PENGUINS ->
  quota_kept g ->
  players g !! current_player_index g = Some p ->
  _place_penguin_at r c g = Ok tt g' ->
  quota_kept g' /\ length (players g') = length (players g).
Proof.
  intros Hn Hphase (_ & Hplacing & _) Hp.
  destruct (Hplacing Hphase) as (k & Hk & Hrr).
  pose proof (lookup_lt_Some _ _ _ Hp) as Hcur.
  rewrite (place_penguin_at_run g r c p Hp).
  pose proof (shape_placed g r c p k Hp Hrr) as Hshape.
  assert (length (players (placed r c p g)) = length (players g)) as Hlen
    by (cbn; by rewrite length_insert).
  assert (total_penguins (placed r c p g) =
          Z.of_nat (length (players g)) * Z.of_nat k +
          Z.of_nat (current_player_index g) + 1) as Htotal.
  { unfold total_penguins. fold (shape (placed r c p g)). rewrite Hshape.
    rewrite list_sum_app, !list_sum_replicate. nia. }
  assert (expected_penguins (placed r c p g) =
          Z.of_nat (length (players g)) * (6 - Z.of_nat (length (players g))))
    as Hexp by (unfold expected_penguins; by rewrite Hlen).
  destruct (decide _) as [Hge|Hlt]; intros [= <-].
  - rewrite Htotal, Hexp in Hge.
    assert (S (current_player_index g) = length (players g) /\
            S k = (6 - length (players g))%nat) as [Hlast Hfull] by nia.
    split; [|done]. split; [done|]. split; [done|]. intros _.
    change (shape (set_current_player_index 0 _)) with (shape (placed r c p g)).
    rewrite Hshape. cbn [players set_current_player_index set_game_state].
    rewrite Hlen, Hlast, Nat.sub_diag, <- Hfull. cbn. by rewrite app_nil_r.
  - rewrite Htotal, Hexp in Hlt.
    split; [|done]. split; [cbn; by rewrite Hphase|].
    split; [|cbn; by rewrite Hphase]. intros _.
    destruct (decide (S (current_player_index g) = length (players g))) as [Hlast|Hmore].
    + exists (S k). split; [rewrite Hlen; nia|].
      unfold round_robin. rewrite Hshape, Hlen.
      change (current_player_index (placed r c p g))
        with ((current_player_index g + 1) mod length (players g))%nat.
      rewrite Nat.add_1_r, Hlast, Nat.Div0.mod_same, Nat.sub_diag, Nat.sub_0_r.
      cbn. by rewrite app_nil_r.
    + exists k. split; [by rewrite Hlen|].
      unfold round_robin. rewrite Hshape, Hlen.
      change (current_player_index (placed r c p g))
        with ((current_player_index g + 1) mod length (players g))%nat.
      rewrite Nat.add_1_r, Nat.mod_small by lia. done.
Qed.

(** What a handler has done when it returns. *)
Lemma on_mouse_press_inv r c g g' :
  on_mouse_press r c g = Ok tt g' ->
  exists p, players g !! current_player_index g = Some p /\
    (g' = g \/
     (is_ai p = false /\ game_state g = PLACING_PENGUINS /\
      _handle_penguin_placement r c g = Ok tt g') \/
     (is_ai p = false /\ game_state g = PLAYING /\
      _handle_gameplay_click r c g = Ok tt g')).
Proof.
  unfold on_mouse_press, bind, get, player_at.
  destruct (players g !! current_player_index g) as [p|]; [|done].
  intros H. exists p. split; [done|].
  destruct (is_ai p); [left; by injection H|].
  destruct (game_state g) eqn:Hphase.
  - left. by injection H.
  - right. by left.
  - right. by right.
  - left. by injection H.
Qed.

Lemma complete_animation_inv g g' :
  complete_animation g = Ok tt g' ->
  (current_animation g = None /\ g' = g) \/
  exists from_pos to_pos i gm,
    current_animation g = Some (from_pos, to_pos, i) /\
    _complete_move from_pos to_pos i g = Ok tt gm /\
    g' = match animation_queue gm with
         | [] => set_current_animation None gm
         | next_anim :: rest =>
           set_current_animation (Some next_anim)
             (set_animation_queue rest (set_current_animation None gm))
         end.
Proof.
  unfold complete_animation, bind, get.
  destruct (current_animation g) as [[[a b] i]|] eqn:Ha.
  - destruct (_complete_move a b i g) as [[] gm|] eqn:Hmove; [|done].
    unfold modify, ret. cbn. intros H. right. exists a, b, i, gm.
    split; [done|]. split; [done|].
    destruct (animation_queue gm); by injection H.
  - intros [= <-]. by left.
Qed.

Lemma on_update_inv finished due choice g g' :
  on_update finished due choice g = Ok tt g' ->
  exists p g1,
    players g !! current_player_index g = Some p /\
    (g1 = g \/ complete_animation g = Ok tt g1) /\
    (g' = g1 \/
     (is_ai p = true /\ current_animation g1 = None /\
      ((game_state g1 = PLACING_PENGUINS /\ _ai_place_penguin choice g1 = Ok tt g') \/
       (game_state g1 = PLAYING /\ _ai_make_move g1 = Ok tt g')))).
Proof.
  unfold on_update. unfold bind at 1. unfold get at 1.
  unfold bind at 1. unfold player_at.
  destruct (players g !! current_player_index g) as [p|]; [|done].
  unfold bind at 1.
  assert (forall g1, (g1 = g \/ complete_animation g = Ok tt g1) ->
            (let* g' := get in
             match current_animation g' with
             | Some _ => ret tt
             | None =>
               if is_ai p && due then
                 match game_state g' with
                 | PLACING_PENGUINS => _ai_place_penguin choice
                 | PLAYING => _ai_make_move
                 | _ => ret tt
                 end
               else ret tt
             end)%py g1 = Ok tt g' ->
            exists p0 g2,
              Some p = Some p0 /\
              (g2 = g \/ complete_animation g = Ok tt g2) /\
              (g' = g2 \/
               (is_ai p0 = true /\ current_animation g2 = None /\
                ((game_state g2 = PLACING_PENGUINS /\
                  _ai_place_penguin choice g2 = Ok tt g') \/
                 (game_state g2 = PLAYING /\ _ai_make_move g2 = Ok tt g'))))) as Hrest.
  { intros g1 Hg1. unfold bind, get. intros H. exists p, g1.
    split; [done|]. split; [done|].
    destruct (current_animation g1) eqn:Ha; [left; by injection H|].
    destruct (is_ai p); cbn in H; [|left; by injection H].
    destruct due; [|left; by injection H].
    destruct (game_state g1) eqn:Hphase.
    - left. by injection H.
    - right. split; [done|]. split; [done|]. by left.
    - right. split; [done|]. split; [done|]. by right.
    - left. by injection H. }
  destruct finished.
  - destruct (complete_animation g) as [[] g1|] eqn:Hc; [|done].
    apply Hrest. by right.
  - apply Hrest. by left.
Qed.

(** A click in the playing phase leaves the board, the tokens, the
    scores, the player to move and the phase alone. *)
Lemma gameplay_click_core r c g g' :
  _handle_gameplay_click r c g = Ok tt g' -> core g' = core g.
Proof.
  intros H. destruct illegal_move_guards as [_ Hclick].
  destruct (Hclick g r c) as [Hcore _]. by rewrite H in Hcore.
Qed.

(** What a returning [_complete_move] has done to the turn and to the
    token lists. *)
Lemma complete_move_shape from_pos to_pos i g gm :
  (current_player_index g < length (players g))%nat ->
  _complete_move from_pos to_pos i g = Ok tt gm ->
  shape gm = shape g /\ length (players gm) = length (players g) /\
  (current_player_index gm < length (players gm))%nat /\
  (game_state gm = game_state g \/ game_state gm = GAME_OVER).
Proof.
  intros Hcur. unfold _complete_move, bind.
  destruct (_move_penguin from_pos to_pos g) as [[] g1|] eqn:Hmove; [|done].
  apply move_penguin_inv in Hmove as (j & p & l & Hj & Hp & Hl & ->).
  intros Hnext.
  match type of Hnext with _next_turn ?s = _ => set (g1 := s) in * end.
  assert (shape g1 = shape g) as Hshape.
  { unfold g1. erewrite shape_set_player; [done|exact Hp|].
    cbn. rewrite length_app. cbn. apply list_remove_length in Hl. lia. }
  assert (length (players g1) = length (players g)) as Hlen
    by (unfold g1; cbn; by rewrite length_insert).
  destruct (next_turn_frame g1) as (g'' & Hrun & _ & _ & Hpl & _ & Hcur' & Hst).
  { rewrite Hlen. exact Hcur. }
  rewrite Hrun in Hnext. injection Hnext as ->.
  split; [unfold shape; rewrite Hpl; exact Hshape|].
  split; [by rewrite Hpl|]. split; [rewrite Hpl; exact Hcur'|]. exact Hst.
Qed.

(** What a returning [_ai_make_move] has done: the search has put the
    game object back, and an animation starts or the turn passes. *)
Lemma ai_make_move_inv g g' :
  _ai_make_move g = Ok tt g' ->
  (exists from_pos to_pos, _start_animation from_pos to_pos g = Ok tt g') \/
  _next_turn g = Ok tt g'.
Proof.
  unfold _ai_make_move, bind. pose proof (ai_search_restores g) as Hrestore.
  destruct (ai_search g) as [st g1|]; [|done]. subst g1.
  destruct (best_move st) as [[a b]|]; [left; by exists a, b|by right].
Qed.

Lemma start_animation_core from_pos to_pos g g' :
  _start_animation from_pos to_pos g = Ok tt g' -> core g' = core g.
Proof.
  unfold _start_animation. destruct (penguin_positions g !! from_pos); [|done].
  destruct (current_animation g); by intros [= <-].
Qed.

Lemma quota_kept_core g g' : core g' = core g -> quota_kept g -> quota_kept g'.
Proof.
  unfold core. intros [= Hg Hpp Hpl Hcur Hphase] (H1 & H2 & H3).
  unfold quota_kept, round_robin, shape in *. rewrite Hpl, Hcur, Hphase. done.
Qed.

Lemma quota_kept_after_placing g g' :
  game_state g <> PLACING_PENGUINS ->
  quota_kept g ->
  shape g' = shape g -> length (players g') = length (players g) ->
  game_state g' = game_state g \/ game_state g' = GAME_OVER ->
  quota_kept g'.
Proof.
  intros Hphase (H1 & _ & H3) Hshape Hlen Hst.
  assert (game_state g' <> PLACING_PENGUINS /\ game_state g' <> SETUP) as [H4 H5].
  { destruct Hst as [-> | ->]; done. }
  split; [done|]. split; [done|]. intros _. rewrite Hshape, Hlen. by apply H3.
Qed.

(** A placement that is made passes the turn to a player who exists and
    starts no animation. *)
Lemma handle_penguin_placement_frame g r c g' :
  (current_player_index g < length (players g))%nat ->
  _handle_penguin_placement r c g = Ok tt g' ->
  length (players g') = length (players g) /\
  (current_player_index g' < length (players g'))%nat /\
  current_animation g' = current_animation g /\
  animation_queue g' = animation_queue g.
Proof.
  intros Hcur. unfold _handle_penguin_placement.
  destruct (tiles (grid g) !! (r, c)); [|by intros [= <-]].
  destruct (penguin_positions g !! (r, c)); [by intros [= <-]|].
  destruct (lookup_lt_is_Some_2 _ _ Hcur) as [p Hp].
  rewrite (place_penguin_at_run g r c p Hp). intros [= <-].
  destruct (decide _); cbn; rewrite length_insert; split_and!; try done; try lia.
  all: apply Nat.mod_upper_bound; lia.
Qed.

Lemma handle_penguin_placement_quota g r c g' :
  (length (players g) <= 5)%nat ->
  (current_player_index g < length (players g))%nat ->
  game_state g = PLACING_PENGUINS ->
  quota_kept g ->
  _handle_penguin_placement r c g = Ok tt g' ->
  quota_kept g'.
Proof.
  intros Hn Hcur Hphase Hq. unfold _handle_penguin_placement.
  destruct (tiles (grid g) !! (r, c)); [|by intros [= <-]].
  destruct (penguin_positions g !! (r, c)); [by intros [= <-]|].
  destruct (lookup_lt_is_Some_2 _ _ Hcur) as [p Hp]. intros Hrun.
  by destruct (quota_kept_placed g r c p g' Hn Hphase Hq Hp Hrun).
Qed.

(** What the handlers keep, whatever is clicked and whenever: the player
    to move exists, nothing is animated while the tokens are placed, and
    the tokens are counted as [quota_kept] says. *)
Lemma reachable_quota_kept g :
  reachable g ->
  (current_player_index g < length (players g))%nat /\
  (game_state g = PLACING_PENGUINS -> current_animation g = None) /\
  ((length (players g) <= 5)%nat -> quota_kept g).
Proof.
  induction 1 as [g Hinit|g r c g' Hr IH Hrun|g finished due choice g' Hr IH Hrun
                 |g depth _ IH _].
  - destruct Hinit as (Hne & Hempty & _ & Hcur & Hphase & _ & _ & _ & _ & Hnone).
    split; [rewrite Hcur; destruct (players g); cbn; [done|lia]|].
    split; [done|]. intros Hn.
    split; [by rewrite Hphase|]. split; [|by rewrite Hphase].
    intros _. exists 0%nat. split; [destruct (players g); cbn in *; [done|lia]|].
    unfold round_robin. rewrite Hcur, Nat.sub_0_r. cbn. unfold shape.
    clear -Hempty. induction Hempty as [|p ps Hp _ IH]; [done|].
    cbn. by rewrite Hp, IH.
  - destruct IH as (Hcur & Hnone & Hq).
    apply on_mouse_press_inv in Hrun as (p & Hp & [->|[(_ & Hphase & Hrun)|(_ & Hphase & Hrun)]]).
    + done.
    + destruct (handle_penguin_placement_frame _ _ _ _ Hcur Hrun)
        as (Hlen & Hcur' & Ha & _).
      split; [done|]. split; [intros _; rewrite Ha; by apply Hnone|].
      intros Hn. rewrite Hlen in Hn.
      exact (handle_penguin_placement_quota g r c g' Hn Hcur Hphase (Hq Hn) Hrun).
    + apply gameplay_click_core in Hrun. pose proof Hrun as Hcore.
      unfold core in Hrun. injection Hrun as Hg Hpp Hpl Hc Hst.
      split; [by rewrite Hpl, Hc|]. split; [rewrite Hst, Hphase; done|].
      intros Hn. rewrite Hpl in Hn. exact (quota_kept_core g g' Hcore (Hq Hn)).
  - destruct IH as (Hcur & Hnone & Hq).
    apply on_update_inv in Hrun as (p & g1 & Hp & Hfirst & Hsecond).
    assert ((current_player_index g1 < length (players g1))%nat /\
            (game_state g1 = PLACING_PENGUINS -> current_animation g1 = None) /\
            ((length (players g1) <= 5)%nat -> quota_kept g1)) as (Hcur1 & Hnone1 & Hq1).
    { destruct Hfirst as [->|Hc]; [done|].
      apply complete_animation_inv in Hc
        as [[_ ->]|(a & b & i & gm & Ha & Hmove & ->)]; [done|].
      assert (game_state g <> PLACING_PENGUINS) as Hphase
        by (intros Hphase; by rewrite (Hnone Hphase) in Ha).
      destruct (complete_move_shape _ _ _ _ _ Hcur Hmove) as (Hshape & Hlen & Hcur' & Hst).
      assert (game_state gm <> PLACING_PENGUINS) as Hphase'
        by (destruct Hst as [-> | ->]; done).
      assert (forall gx, core gx = core gm ->
                (current_player_index gx < length (players gx))%nat /\
                (game_state gx = PLACING_PENGUINS -> current_animation gx = None) /\
                ((length (players gx) <= 5)%nat -> quota_kept gx)) as Hcore.
      { intros gx Hx. pose proof Hx as Hx'. unfold core in Hx'.
        injection Hx' as Hg Hpp Hpl Hc Hs.
        split; [by rewrite Hpl, Hc|]. split; [by rewrite Hs|].
        intros Hn. apply (quota_kept_core gm gx Hx).
        assert (length (players g) <= 5)%nat as Hn' by (by rewrite <- Hlen, <- Hpl).
        exact (quota_kept_after_placing g gm Hphase (Hq Hn') Hshape Hlen Hst). }
      destruct (animation_queue gm); by apply Hcore. }
    destruct Hsecond as [->|(_ & Ha1 & [[Hphase Hrun]|[Hphase Hrun]])]; [done| |].
    + destruct (ai_place_penguin_is_a_placement choice g1) as (r & c & Heq).
      rewrite Heq in Hrun.
      destruct (handle_penguin_placement_frame _ _ _ _ Hcur1 Hrun)
        as (Hlen & Hcur' & Ha & _).
      split; [done|]. split; [intros _; by rewrite Ha|].
      intros Hn. rewrite Hlen in Hn.
      exact (handle_penguin_placement_quota g1 r c g' Hn Hcur1 Hphase (Hq1 Hn) Hrun).
    + assert (game_state g1 <> PLACING_PENGUINS) as Hphase1 by (by rewrite Hphase).
      apply ai_make_move_inv in Hrun as [(a & b & Hrun)|Hrun].
      * apply start_animation_core in Hrun. pose proof Hrun as Hcore.
        unfold core in Hrun. injection Hrun as Hg Hpp Hpl Hc Hst.
        split; [by rewrite Hpl, Hc|]. split; [rewrite Hst, Hphase; done|].
        intros Hn. rewrite Hpl in Hn. exact (quota_kept_core g1 g' Hcore (Hq1 Hn)).
      * destruct (next_turn_frame g1 Hcur1)
          as (g'' & Hrun' & _ & _ & Hpl & _ & Hcur' & Hst).
        rewrite Hrun' in Hrun. injection Hrun as ->.
        split; [by rewrite Hpl|]. split; [destruct Hst as [Hst|Hst]; rewrite Hst; [by rewrite Hphase|done]|].
        intros Hn. rewrite Hpl in Hn.
        apply (quota_kept_after_placing g1 g' Hphase1 (Hq1 Hn)); [|by rewrite Hpl|exact Hst].
        unfold shape. by rewrite Hpl.
  - done.
Qed.

(** X5. Whatever is clicked and whenever, among at most five players
    the tokens are placed in turn and the phase changes exactly when
    every player has [6 - len(players)] tokens: in a state of the
    program that is still placing, the players before the one to move
    have one token more than the others and the quota is not reached;
    in every state of the program after the placing phase every player
    has exactly [6 - len(players)] tokens in the list, also when a move
    that waited in the queue is applied, because a move that returns
    takes a token from the list of its owner and puts one back. The
    phase [SETUP] is never seen. *)
Theorem placement_quota (g : FishGame) :
  reachable g -> (length (players g) <= 5)%nat ->
  game_state g <> SETUP /\
  (game_state g = PLACING_PENGUINS ->
   exists k, (k < 6 - length (players g))%nat /\
     shape g = replicate (current_player_index g) (S k) ++
               replicate (length (players g) - current_player_index g) k) /\
  (game_state g <> PLACING_PENGUINS ->
   shape g = replicate (length (players g)) (6 - length (players g))%nat).
Proof. intros Hr. by apply reachable_quota_kept. Qed.

Lemma placement_quota_witness :
  reachable hasty_double /\ (length (players hasty_double) <= 5)%nat /\
  shape hasty_double = [4; 4]%nat.
Proof.
  assert (length (players hasty_double) <= 5)%nat as Hn by (vm_compute; lia).
  split; [exact hasty_double_reachable|]. split; [exact Hn|].
  apply (placement_quota hasty_double hasty_double_reachable Hn).
  vm_compute. discriminate.
Defined.

(** * Tiles under the tokens *)

Lemma remove_tile_lookup r c h pos :
  tiles (remove_tile r c h).2 !! pos =
  if decide (pos = (r, c)) then None else tiles h !! pos.
Proof.
  unfold remove_tile. destruct (tiles h !! (r, c)) eqn:Ht; cbn.
  - destruct (decide (pos = (r, c))) as [->|Hne].
    + apply lookup_delete_eq.
    + by apply lookup_delete_ne.
  - destruct (decide (pos = (r, c))) as [->|Hne]; done.
Qed.

Lemma grounded_move g from_pos to_pos g' :
  grounded g ->
  to_pos ∈ _get_valid_moves g from_pos ->
  _move_penguin from_pos to_pos g = Ok tt g' ->
  grounded g'.
Proof.
  intros Hg Hto Hrun.
  apply move_penguin_inv in Hrun as (i & p & l & Hi & Hp & Hl & ->).
  assert (to_pos <> from_pos) as Hne.
  { intros ->. apply get_valid_moves_spec in Hto as (d & n & Heq & _).
    symmetry in Heq. exact (line_leaves _ _ _ Heq). }
  apply valid_move_is_free in Hto as [Htile _].
  intros pos j. cbn. destruct from_pos as [r c]. cbn [fst snd].
  rewrite remove_tile_lookup.
  destruct (decide (pos = to_pos)) as [->|Hpos].
  - intros _. by rewrite decide_False.
  - rewrite lookup_insert_ne by done.
    destruct (decide (pos = (r, c))) as [->|Hpos'].
    + by rewrite lookup_delete_eq.
    + rewrite lookup_delete_ne by done. apply Hg.
Qed.

Lemma grounded_placement g r c g' :
  well_formed g -> grounded g ->
  _handle_penguin_placement r c g = Ok tt g' -> grounded g'.
Proof.
  intros (_ & _ & Hcur) Hg. unfold _handle_penguin_placement.
  destruct (tiles (grid g) !! (r, c)) eqn:Ht; [|by intros [= <-]].
  destruct (penguin_positions g !! (r, c)); [by intros [= <-]|].
  destruct (lookup_lt_is_Some_2 _ _ Hcur) as [p Hp].
  rewrite (place_penguin_at_run g r c p Hp). intros [= <-].
  assert (grounded (placed r c p g)) as Hg'.
  { intros pos j. cbn. destruct (decide (pos = (r, c))) as [->|Hne].
    - by rewrite Ht.
    - rewrite lookup_insert_ne by done. apply Hg. }
  by destruct (decide _).
Qed.

Lemma sound_with_aux selected moves queue animation g :
  sound g -> sound (with_aux selected moves queue animation g).
Proof. intros [(Hc & Hnd & Hcur) Hg]. by split; [split_and!|]. Qed.

Lemma handle_penguin_placement_sound g r c g' :
  sound g -> _handle_penguin_placement r c g = Ok tt g' -> sound g'.
Proof.
  intros [Hwf Hg] Hrun. split.
  - by apply (handle_penguin_placement_well_formed g r c).
  - by apply (grounded_placement g r c).
Qed.

(** A move that is legal when it is applied keeps the invariant and the
    tiles under the tokens. *)
Lemma complete_move_sound g from_pos to_pos i gm :
  sound g ->
  to_pos ∈ _get_valid_moves g from_pos ->
  _complete_move from_pos to_pos i g = Ok tt gm ->
  sound gm.
Proof.
  intros [Hwf Hg] Hto. unfold _complete_move, bind.
  destruct (_move_penguin from_pos to_pos g) as [[] g1|] eqn:Hmove; [|done].
  pose proof (grounded_move _ _ _ _ Hg Hto Hmove) as Hg1.
  pose proof Hmove as Hinv. apply move_penguin_inv in Hinv as (j & _ & _ & Hj & _).
  pose proof (move_penguin_well_formed _ _ _ _ _ Hwf Hj Hto Hmove) as (Hc & Hnd & Hcur).
  destruct (next_turn_frame g1 Hcur) as (g'' & Hrun & Hgrid & Hpos & Hpl & _ & Hcur' & _).
  rewrite Hrun. intros [= <-]. split; [split_and!|].
  - intros pos k. rewrite Hpos, Hpl. apply Hc.
  - intros k p. rewrite Hpl. apply Hnd.
  - by rewrite Hpl.
  - intros pos k. rewrite Hgrid, Hpos. apply Hg1.
Qed.

(** The sample positions keep the invariant when no cell is listed twice
    and every token stands on a tile. *)
Lemma position_sound phase h human computer scores turn depth :
  NoDup (human ++ computer) ->
  Forall (fun pos => is_Some (tiles h !! pos)) (human ++ computer) ->
  (turn < 2)%nat ->
  sound (position phase h human computer scores turn depth).
Proof.
  intros Hnd Hall Hturn.
  assert (forall pos i,
            penguin_positions (position phase h human computer scores turn depth)
              !! pos = Some i <->
            (pos ∈ human /\ i = 0%nat) \/ (pos ∈ computer /\ i = 1%nat)) as Hlookup.
  { assert (forall (i : nat) (l : list (Z * Z)),
              map (fun pos => (pos, i)) l = (fun pos => (pos, i)) <$> l) as Hmap
      by reflexivity.
    assert (forall (i : nat) (l : list (Z * Z)),
              ((fun pos => (pos, i)) <$> l).*1 = l) as Hfst.
    { intros i l. induction l as [|x l IH]; [done|].
      rewrite !fmap_cons. cbn [fst]. by rewrite IH. }
    intros pos i. cbn. rewrite !Hmap. rewrite <- elem_of_list_to_map.
    - rewrite elem_of_app, !list_elem_of_fmap. split.
      + intros [(x & [= -> ->] & Hx)|(x & [= -> ->] & Hx)]; [by left|by right].
      + intros [[Hx ->]|[Hx ->]]; [left|right]; by exists pos.
    - by rewrite fmap_app, !Hfst. }
  apply NoDup_app in Hnd as (Hnd1 & _ & Hnd2).
  split; [split_and!|].
  - intros pos i. rewrite Hlookup. split.
    + intros [[Hx ->]|[Hx ->]]; eexists; (split; [reflexivity|exact Hx]).
    + intros (p & Hp & Hx). destruct i as [|[|i]]; [| |done]; injection Hp as <-;
        [by left|by right].
  - intros i p Hp. destruct i as [|[|i]]; [| |done]; by injection Hp as <-.
  - done.
  - intros pos i Hpos. apply Hlookup in Hpos.
    rewrite Forall_forall in Hall. apply Hall. rewrite elem_of_app.
    destruct Hpos as [[Hx _]|[Hx _]]; [by left|by right].
Qed.

Lemma corridor_sound : sound corridor.
Proof.
  apply position_sound; [| |lia]; apply (bool_decide_unpack _); by vm_compute.
Qed.

Lemma two_movers_sound : sound two_movers.
Proof.
  apply position_sound; [| |lia]; apply (bool_decide_unpack _); by vm_compute.
Qed.

Lemma corridor_start_sound : sound corridor_start.
Proof.
  apply position_sound; [| |lia]; apply (bool_decide_unpack _); by vm_compute.
Qed.

(** After the hasty clicks and one more move the game object no longer
    keeps its invariant: the list of player 0 holds a cell that
    [penguin_positions] does not know and that has no tile. *)
Lemma hasty_stale_token :
  (exists p, players hasty_stale !! 0%nat = Some p /\ (0, 1) ∈ penguins p) /\
  penguin_positions hasty_stale !! (0, 1) = None /\
  tiles (grid hasty_stale) !! (0, 1) = None.
Proof.
  split; [|split; vm_compute; reflexivity].
  eexists. split; [vm_compute; reflexivity|].
  apply list_elem_of_In. vm_compute. tauto.
Qed.

(** X6. Tokens stay on tiles as long as every move is legal when it is
    applied. In a game object that keeps its invariant and in which
    every token of [penguin_positions] stands on a tile, a placement by
    a click or by the computer that returns, and a [_complete_move] to a
    cell that [_get_valid_moves] offers in that game object, leave a
    game object that keeps its invariant and in which every token
    stands on a tile; the tile the token has left is gone. So the 0 that
    [remove_tile] returns for a missing tile is not what such a move
    collects. The program itself does not keep to this: after the hasty
    clicks and one more move it is in a state in which the list of
    player 0 holds the cell (0, 1), which has no tile and no entry in
    [penguin_positions]. *)
Theorem tokens_stay_on_tiles (g : FishGame) :
  sound g ->
  (forall r c g', _handle_penguin_placement r c g = Ok tt g' -> sound g') /\
  (forall choice g', _ai_place_penguin choice g = Ok tt g' -> sound g') /\
  (forall from_pos to_pos i gm,
     to_pos ∈ _get_valid_moves g from_pos ->
     _complete_move from_pos to_pos i g = Ok tt gm ->
     sound gm /\
     (exists tile, tiles (grid g) !! from_pos = Some tile /\
                   remove_tile from_pos.1 from_pos.2 (grid g) =
                   (fish tile, set_tiles (delete from_pos (tiles (grid g))) (grid g))) /\
     tiles (grid gm) !! from_pos = None /\
     is_Some (tiles (grid gm) !! to_pos)) /\
  (reachable hasty_stale /\
   (exists p, players hasty_stale !! 0%nat = Some p /\ (0, 1) ∈ penguins p) /\
   penguin_positions hasty_stale !! (0, 1) = None /\
   tiles (grid hasty_stale) !! (0, 1) = None).
Proof.
  intros Hs. split; [|split; [|split]].
  - intros r c g'. by apply handle_penguin_placement_sound.
  - intros choice g' Hrun.
    destruct (ai_place_penguin_is_a_placement choice g) as (r & c & Heq).
    rewrite Heq in Hrun. by apply (handle_penguin_placement_sound g r c).
  - intros from_pos to_pos i gm Hto Hrun.
    pose proof (complete_move_sound _ _ _ _ _ Hs Hto Hrun) as Hs'.
    split; [done|]. destruct Hs as [(_ & _ & Hcur) Hg].
    revert Hrun. unfold _complete_move, bind.
    destruct (_move_penguin from_pos to_pos g) as [[] g1|] eqn:Hmove; [|done].
    apply move_penguin_inv in Hmove as (j & p & l & Hj & Hp & Hl & ->).
    match goal with |- _next_turn ?s = _ -> _ => set (g1 := s) end.
    assert (current_player_index g1 < length (players g1))%nat as Hcur1
      by (unfold g1; cbn; by rewrite length_insert).
    destruct (next_turn_frame g1 Hcur1) as (g'' & Hnext & Hgrid & _).
    rewrite Hnext. intros [= <-]. rewrite Hgrid. unfold g1. cbn.
    destruct (Hg _ _ Hj) as [tile Ht]. destruct from_pos as [r c]. cbn [fst snd].
    split; [|split].
    + exists tile. split; [done|]. unfold remove_tile. by rewrite Ht.
    + rewrite remove_tile_lookup. by rewrite decide_True.
    + rewrite remove_tile_lookup.
      pose proof (valid_move_is_free _ _ _ Hto) as [Htile _].
      rewrite decide_False; [done|].
      intros ->. apply get_valid_moves_spec in Hto as (d & n & Heq & _).
      symmetry in Heq. exact (line_leaves _ _ _ Heq).
  - split; [exact hasty_stale_reachable|]. exact hasty_stale_token.
Qed.

Lemma tokens_stay_on_tiles_witness :
  sound corridor_start /\
  (5, 7) ∈ _get_valid_moves corridor_start (4, 7) /\
  exists gm, _complete_move (4, 7) (5, 7) 0 corridor_start = Ok tt gm /\
             sound gm /\ tiles (grid gm) !! (4, 7) = None.
Proof.
  assert ((5, 7) ∈ _get_valid_moves corridor_start (4, 7)) as Hto
    by (apply list_elem_of_In; vm_compute; tauto).
  split; [exact corridor_start_sound|]. split; [exact Hto|].
  eexists. split; [vm_compute; reflexivity|].
  destruct (tokens_stay_on_tiles corridor_start corridor_start_sound)
    as (_ & _ & Hmove & _).
  destruct (Hmove (4, 7) (5, 7) 0%nat _ Hto ltac:(vm_compute; reflexivity))
    as (Hs & _ & Hgone & _).
  split; [exact Hs|exact Hgone].
Defined.

(** * Fish on the board and fish taken *)

Lemma fish_on_board_remove_tile h r c :
  fish_on_board h =
  (remove_tile r c h).1 + fish_on_board (remove_tile r c h).2.
Proof.
  unfold remove_tile, fish_on_board.
  destruct (tiles h !! (r, c)) as [tile|] eqn:Ht; cbn; [|lia].
  rewrite (map_fold_delete_L _ _ (r, c) tile (tiles h)); [done| |done].
  intros. lia.
Qed.

Lemma fish_taken_insert (l : list Player) i p q :
  l !! i = Some p ->
  foldr Z.add 0 (map fish_count (<[i := q]> l)) =
  foldr Z.add 0 (map fish_count l) - fish_count p + fish_count q.
Proof.
  revert i. induction l as [|x l IH]; intros [|i]; simpl; try done.
  - intros [= ->]. lia.
  - intros Hi. specialize (IH i Hi). simpl in IH. lia.
Qed.

Lemma fish_conserved_move g from_pos to_pos g' :
  _move_penguin from_pos to_pos g = Ok tt g' ->
  fish_on_board (grid g') + fish_taken g' =
  fish_on_board (grid g) + fish_taken g.
Proof.
  intros Hrun. apply move_penguin_inv in Hrun as (i & p & l & Hi & Hp & Hl & ->).
  unfold fish_taken. cbn. rewrite (fish_taken_insert _ _ p) by done. cbn.
  rewrite (fish_on_board_remove_tile (grid g) from_pos.1 from_pos.2). lia.
Qed.

Lemma fish_conserved_placement g r c g' :
  _handle_penguin_placement r c g = Ok tt g' ->
  grid g' = grid g /\ map fish_count (players g') = map fish_count (players g).
Proof.
  unfold _handle_penguin_placement.
  destruct (tiles (grid g) !! (r, c)); [|by intros [= <-]].
  destruct (penguin_positions g !! (r, c)); [by intros [= <-]|].
  destruct (players g !! current_player_index g) as [p|] eqn:Hp.
  - rewrite (place_penguin_at_run g r c p Hp). intros [= <-].
    assert (map fish_count (players (placed r c p g)) = map fish_count (players g)).
    { cbn. rewrite list_fmap_insert. cbn. apply list_insert_id.
      by rewrite list_lookup_fmap, Hp. }
    by destruct (decide _).
  - unfold _place_penguin_at, bind, get, modify, player_at. cbn. by rewrite Hp.
Qed.

(** X7. No fish is lost or made: a move of the game ([_move_penguin]
    followed by [_next_turn]) that returns leaves the sum of the fish on
    the tiles and of the scores of the players as it was, whether the
    tile left exists or not; a placement, by a click or by the computer,
    changes neither the tiles nor any score. *)
Theorem fish_is_conserved :
  (forall g from_pos to_pos i g',
     _complete_move from_pos to_pos i g = Ok tt g' ->
     fish_on_board (grid g') + fish_taken g' =
     fish_on_board (grid g) + fish_taken g) /\
  (forall g r c g',
     _handle_penguin_placement r c g = Ok tt g' ->
     fish_on_board (grid g') = fish_on_board (grid g) /\
     fish_taken g' = fish_taken g) /\
  (forall g choice g',
     _ai_place_penguin choice g = Ok tt g' ->
     fish_on_board (grid g') = fish_on_board (grid g) /\
     fish_taken g' = fish_taken g).
Proof.
  split; [|split].
  - intros g a b i g'. unfold _complete_move, bind.
    destruct (_move_penguin a b g) as [[] g1|] eqn:Hmove; [|done].
    apply fish_conserved_move in Hmove. unfold _next_turn. intros Hnext.
    pose proof (next_turn_loop_frame (length (players g1)) g1) as Hframe.
    rewrite Hnext in Hframe. cbn in Hframe.
    destruct Hframe as (Hg & _ & Hpl & _).
    unfold fish_taken in *. by rewrite Hg, Hpl.
  - intros g r c g' Hrun. apply fish_conserved_placement in Hrun as [Hg Hpl].
    unfold fish_taken. by rewrite Hg, Hpl.
  - intros g choice g' Hrun.
    destruct (ai_place_penguin_is_a_placement choice g) as (r & c & Heq).
    rewrite Heq in Hrun. apply fish_conserved_placement in Hrun as [Hg Hpl].
    unfold fish_taken. by rewrite Hg, Hpl.
Qed.

Lemma fish_is_conserved_witness :
  _complete_move (0, 0) (0, 1) 1 corridor =
    Ok tt (final (_complete_move (0, 0) (0, 1) 1 corridor)) /\
  fish_on_board (grid corridor) + fish_taken corridor = 22 /\
  fish_on_board (grid (final (_complete_move (0, 0) (0, 1) 1 corridor))) +
  fish_taken (final (_complete_move (0, 0) (0, 1) 1 corridor)) =
  fish_on_board (grid corridor) + fish_taken corridor.
Proof.
  assert (_complete_move (0, 0) (0, 1) 1 corridor =
          Ok tt (final (_complete_move (0, 0) (0, 1) 1 corridor))) as H
    by (vm_compute; reflexivity).
  split; [exact H|]. split; [vm_compute; reflexivity|].
  exact (proj1 fish_is_conserved corridor (0, 0) (0, 1) 1%nat _ H).
Defined.

(** * The placement of the computer *)

Local Instance tuple_ge_total : Total tuple_ge.
Proof. intros [[a1 a2] a3] [[b1 b2] b3]. unfold tuple_ge. cbn. lia. Qed.

Local Instance tuple_ge_transitive : Transitive tuple_ge.
Proof.
  intros [[a1 a2] a3] [[b1 b2] b3] [[c1 c2] c3]. unfold tuple_ge. cbn. lia.
Qed.

Lemma available_tiles_elem g x :
  x ∈ available_tiles g <->
  exists tile, tiles (grid g) !! (x.1.2, x.2) = Some tile /\
               penguin_positions g !! (x.1.2, x.2) = None /\ x.1.1 = fish tile.
Proof.
  unfold available_tiles. rewrite list_elem_of_fmap. split.
  - intros ([[r c] tile] & -> & Hin). apply list_elem_of_filter in Hin as [Hfree Hin].
    apply elem_of_map_to_list in Hin. cbn. eauto.
  - destruct x as [[f r] c]. cbn. intros (tile & Ht & Hfree & ->).
    exists ((r, c), tile). split; [done|].
    apply list_elem_of_filter. split; [done|]. by apply elem_of_map_to_list.
Qed.

(** The entry of index [j] of a sorted list is at least every entry but
    the [j] before it. *)
Lemma sorted_lookup_ge (l : list (Z * Z * Z)) j x y :
  StronglySorted tuple_ge l -> l !! j = Some x -> y ∈ l ->
  y ∈ take j l \/ y.1.1 <= x.1.1.
Proof.
  intros Hs Hj Hy. rewrite <- (take_drop j l) in Hy, Hs.
  apply elem_of_app in Hy as [Hy|Hy]; [by left|right].
  apply StronglySorted_app_1_r in Hs.
  rewrite (drop_S l x j Hj) in Hy, Hs.
  apply elem_of_cons in Hy as [->|Hy]; [lia|].
  apply StronglySorted_cons in Hs as [Hall _].
  rewrite Forall_forall in Hall. specialize (Hall y Hy).
  unfold tuple_ge in Hall. lia.
Qed.

(** X8. The computer places its token on a free tile that is among the
    three best: when some tile holds no token, [_ai_place_penguin] is
    [_place_penguin_at] on a tile without a token, and at most two free
    tiles have more fish than the tile chosen, whatever [random.choice]
    draws. When no tile is free it does nothing. *)
Theorem ai_place_penguin_among_best (choice : nat) (g : FishGame) :
  (available_tiles g <> [] ->
   exists tile r c better,
     tiles (grid g) !! (r, c) = Some tile /\
     penguin_positions g !! (r, c) = None /\
     _ai_place_penguin choice g = _place_penguin_at r c g /\
     (length better <= 2)%nat /\
     forall pos tile',
       tiles (grid g) !! pos = Some tile' ->
       penguin_positions g !! pos = None ->
       (fish tile', pos.1, pos.2) ∈ better \/ fish tile' <= fish tile) /\
  (available_tiles g = [] -> _ai_place_penguin choice g = Ok tt g).
Proof.
  split; [|intros Hnone; unfold _ai_place_penguin; by rewrite Hnone].
  intros Hsome. unfold _ai_place_penguin.
  destruct (available_tiles g) as [|a l] eqn:Hav; [done|]. rewrite <- Hav. clear Hsome.
  set (sorted := merge_sort tuple_ge (available_tiles g)).
  assert (StronglySorted tuple_ge sorted) as Hsorted
    by (apply StronglySorted_merge_sort; apply _).
  assert (sorted ≡ₚ available_tiles g) as Hperm by apply merge_sort_Permutation.
  assert (0 < length (take 3 sorted))%nat as Hlen.
  { rewrite length_take, Hperm, Hav. cbn. lia. }
  set (j := (choice mod length (take 3 sorted))%nat).
  assert (j < length (take 3 sorted))%nat as Hj by (apply Nat.mod_upper_bound; lia).
  destruct (lookup_lt_is_Some_2 _ _ Hj) as [[[f r] c] Hpick]. rewrite Hpick.
  rewrite length_take in Hj.
  rewrite lookup_take_lt in Hpick by lia.
  assert ((f, r, c) ∈ available_tiles g) as Hin
    by (rewrite <- Hperm; by eapply list_elem_of_lookup_2).
  apply available_tiles_elem in Hin as (tile & Ht & Hfree & Hf). cbn in Ht, Hfree, Hf.
  exists tile, r, c, (take j sorted).
  split; [done|]. split; [done|]. split; [done|].
  split; [rewrite length_take; lia|].
  intros pos tile' Ht' Hfree'.
  assert ((fish tile', pos.1, pos.2) ∈ sorted) as Hin'.
  { rewrite Hperm. apply available_tiles_elem. exists tile'. cbn.
    destruct pos. by cbn. }
  destruct (sorted_lookup_ge sorted j (f, r, c) _ Hsorted Hpick Hin') as [?|Hle];
    [by left|right]. cbn in Hle. lia.
Qed.

Lemma ai_place_penguin_among_best_witness :
  available_tiles (opening corridor_board) <> [] /\
  exists r c, _ai_place_penguin 0 (opening corridor_board) =
              _place_penguin_at r c (opening corridor_board).
Proof.
  assert (available_tiles (opening corridor_board) <> []) as H
    by (vm_compute; discriminate).
  split; [exact H|].
  destruct (proj1 (ai_place_penguin_among_best 0 (opening corridor_board)) H)
    as (tile & r & c & better & _ & _ & Hrun & _).
  by exists r, c.
Defined.

(** * The end of the game *)

Lemma foldl_max_ge (l : list Z) : forall a,
  a <= foldl Z.max a l /\ (forall x, x ∈ l -> x <= foldl Z.max a l) /\
  (foldl Z.max a l = a \/ foldl Z.max a l ∈ l).
Proof.
  induction l as [|y l IH]; intros a; cbn.
  - split; [lia|]. split; [intros x Hx; inversion Hx|by left].
  - destruct (IH (Z.max a y)) as (H1 & H2 & H3). split; [lia|]. split.
    + intros x Hx. apply elem_of_cons in Hx as [->|Hx]; [lia|by apply H2].
    + destruct H3 as [H3|H3]; [|right; by right]. rewrite H3.
      destruct (Z.max_spec a y) as [[_ ->]|[_ ->]]; [right; by left|by left].
Qed.

(** X9. The winners named at the end of the game: among one player or
    more, the list is not empty, it holds the players of the game whose
    score no player exceeds, in the order of the game, so all winners
    have the same score and a tie names every player of the top score.
    Without players [max] raises. *)
Theorem winners_have_the_top_score (g : FishGame) :
  (players g <> [] ->
   exists ws, winners g = Some ws /\ ws <> [] /\ ws `sublist_of` players g /\
     forall p, p ∈ ws <->
               p ∈ players g /\ forall q, q ∈ players g -> fish_count q <= fish_count p) /\
  (players g = [] -> winners g = None).
Proof.
  split; [|intros E; unfold winners; by rewrite E].
  intros Hne. unfold winners, max_fish.
  destruct (players g) as [|p0 ps] eqn:Hps; [done|]. rewrite <- Hps.
  set (m := foldl Z.max (fish_count p0) (map fish_count ps)).
  destruct (foldl_max_ge (map fish_count ps) (fish_count p0)) as (H1 & H2 & H3).
  fold m in H1, H2, H3.
  assert (forall q, q ∈ players g -> fish_count q <= m) as Hmax.
  { intros q. rewrite Hps. intros Hq. apply elem_of_cons in Hq as [->|Hq]; [done|].
    apply H2. apply list_elem_of_fmap. by exists q. }
  assert (exists p, p ∈ players g /\ fish_count p = m) as (pm & Hpm & Hm).
  { rewrite Hps. destruct H3 as [H3|H3].
    - exists p0. split; [by left|done].
    - apply list_elem_of_fmap in H3 as (q & Hq1 & Hq2). exists q. split; [by right|done]. }
  eexists. split; [done|]. split; [|split].
  - intros E. assert (pm ∈ filter (λ p, fish_count p = m) (players g)) as Hin
      by (apply list_elem_of_filter; done).
    rewrite E in Hin. inversion Hin.
  - apply sublist_filter.
  - intros p. rewrite list_elem_of_filter. split.
    + intros [Hp Hin]. split; [done|]. intros q Hq. rewrite Hp. by apply Hmax.
    + intros [Hin Htop]. split; [|done].
      specialize (Htop pm Hpm). specialize (Hmax p Hin). lia.
Qed.

Lemma winners_have_the_top_score_witness :
  players corridor <> [] /\
  exists ws, winners corridor = Some ws /\ map name ws = ["Player 1"%string].
Proof.
  assert (players corridor <> []) as H by (vm_compute; discriminate).
  split; [exact H|].
  destruct (proj1 (winners_have_the_top_score corridor) H) as (ws & Hws & _).
  exists ws. split; [exact Hws|].
  vm_compute in Hws. injection Hws as <-. reflexivity.
Defined.

(** * Clicks *)

(** X10. A click on the board never removes a tile and never changes a
    score or the depth of the search. It changes nothing at all while the
    computer is to move and when the game is over; while tokens are
    placed it is the placement handler, in play the selection handler,
    which leaves the tokens and the player to move alone as well. *)
Theorem mouse_press_guards (r c : Z) (g : FishGame) :
  grid (final (on_mouse_press r c g)) = grid g /\
  map fish_count (players (final (on_mouse_press r c g))) =
    map fish_count (players g) /\
  minimax_depth (final (on_mouse_press r c g)) = minimax_depth g /\
  (forall p, players g !! current_player_index g = Some p ->
     is_ai p = true \/ game_state g = GAME_OVER \/ game_state g = SETUP ->
     on_mouse_press r c g = Ok tt g) /\
  (game_state g = PLAYING -> core (final (on_mouse_press r c g)) = core g) /\
  (players g !! current_player_index g = None ->
   on_mouse_press r c g = Raise IndexError g).
Proof.
  unfold on_mouse_press, bind, get, player_at.
  destruct (players g !! current_player_index g) as [p|] eqn:Hp; [|done].
  destruct (is_ai p) eqn:Hai.
  { split_and!; done. }
  assert (forall g', core g' = core g -> minimax_depth g' = minimax_depth g ->
            grid g' = grid g /\
            map fish_count (players g') = map fish_count (players g) /\
            minimax_depth g' = minimax_depth g) as Hcore.
  { intros g' Hc Hd. unfold core in Hc. injection Hc as -> _ -> _ _. done. }
  assert (core (final (_handle_gameplay_click r c g)) = core g /\
          minimax_depth (final (_handle_gameplay_click r c g)) = minimax_depth g)
    as [Hclick Hdepth].
  { unfold _handle_gameplay_click.
    destruct (penguin_positions g !! (r, c)) as [owner|] eqn:Hpp.
    - destruct (decide (owner = current_player_index g)); done.
    - destruct (selected_penguin g) as [sel|] eqn:Hsel; [|done].
      destruct (decide ((r, c) ∈ valid_moves g)) as [Hin|Hnin]; [|done].
      unfold bind, _start_animation, modify.
      destruct (penguin_positions g !! sel) eqn:Hs; [|done].
      destruct (current_animation g) eqn:Ha; done. }
  destruct (game_state g) eqn:Hphase.
  - split_and!; try done.
  - assert (grid (final (_handle_penguin_placement r c g)) = grid g /\
            map fish_count (players (final (_handle_penguin_placement r c g))) =
              map fish_count (players g) /\
            minimax_depth (final (_handle_penguin_placement r c g)) = minimax_depth g)
      as (H1 & H2 & H3).
    { unfold _handle_penguin_placement.
      destruct (tiles (grid g) !! (r, c)); [|done].
      destruct (penguin_positions g !! (r, c)); [done|].
      rewrite (place_penguin_at_run g r c p Hp).
      assert (map fish_count (players (placed r c p g)) = map fish_count (players g)).
      { cbn. rewrite list_fmap_insert. cbn. apply list_insert_id.
        by rewrite list_lookup_fmap, Hp. }
      by destruct (decide _). }
    split_and!; try done. intros q [= <-] [?|[?|?]]; congruence.
  - destruct (Hcore _ Hclick Hdepth) as (H1 & H2 & H3).
    split_and!; try done. intros q [= <-] [?|[?|?]]; congruence.
  - split_and!; try done.
Qed.

(** * The search on a sound position *)

Lemma alike_refl g : alike g g.
Proof.
  split_and!; try done. apply Forall2_same_length_lookup. split; [done|].
  intros i x y Hx Hy. by simplify_eq.
Qed.

Lemma alike_trans g1 g2 g3 : alike g1 g2 -> alike g2 g3 -> alike g1 g3.
Proof.
  intros (Hp & Ht & Hl & Hc) (Hp' & Ht' & Hl' & Hc').
  split_and!; [congruence| |..|congruence].
  - intros pos. by rewrite Ht', Ht.
  - apply Forall2_same_length_lookup. split.
    + rewrite (Forall2_length _ _ _ Hl). apply (Forall2_length _ _ _ Hl').
    + intros i x z Hx Hz.
      destruct (Forall2_lookup_l _ _ _ _ _ Hl Hx) as (y & Hy & Hxy).
      destruct (Forall2_lookup_l _ _ _ _ _ Hl' Hy) as (z' & Hz' & Hyz).
      simplify_eq. by etrans.
Qed.

Lemma alike_lookup g g' i p :
  alike g g' -> players g !! i = Some p ->
  exists p', players g' !! i = Some p' /\ penguins p' ≡ₚ penguins p.
Proof. intros (_ & _ & Hl & _) Hp. by eapply Forall2_lookup_l in Hl. Qed.

Lemma alike_lookup_r g g' i p' :
  alike g g' -> players g' !! i = Some p' ->
  exists p, players g !! i = Some p /\ penguins p' ≡ₚ penguins p.
Proof. intros (_ & _ & Hl & _) Hp. by eapply Forall2_lookup_r in Hl. Qed.

Lemma alike_sound g g' : sound g -> alike g g' -> sound g'.
Proof.
  intros [(Hc & Hnd & Hcur) Hg] Ha. pose proof Ha as (Hp & Ht & Hl & Hi).
  split; [split_and!|].
  - intros pos i. rewrite Hp, (Hc pos i). split.
    + intros (p & Hpl & Hin).
      destruct (alike_lookup _ _ _ _ Ha Hpl) as (p' & Hp' & Hperm).
      exists p'. by rewrite Hperm.
    + intros (p' & Hpl & Hin).
      destruct (alike_lookup_r _ _ _ _ Ha Hpl) as (p & Hp' & Hperm).
      exists p. by rewrite <- Hperm.
  - intros i p' Hpl.
    destruct (alike_lookup_r _ _ _ _ Ha Hpl) as (p & Hp' & Hperm).
    rewrite Hperm. by eapply Hnd.
  - rewrite Hi, <- (Forall2_length _ _ _ Hl). done.
  - intros pos i. rewrite Hp, Ht. apply Hg.
Qed.

Lemma free_alike g g' c : alike g g' -> free g' c <-> free g c.
Proof. intros (Hp & Ht & _). unfold free. by rewrite Hp, Ht. Qed.

Lemma valid_moves_alike g g' start c :
  alike g g' -> c ∈ _get_valid_moves g' start <-> c ∈ _get_valid_moves g start.
Proof.
  intros Ha. rewrite !get_valid_moves_spec.
  split; intros (d & n & -> & Hall); exists d, n; (split; [done|]);
    intros k Hk; apply (free_alike _ _ _ Ha); by apply Hall.
Qed.

Lemma returns_bind {A B} (Q : A -> Prop) (R : B -> Prop) (m : M A) (k : A -> M B) g :
  sound g ->
  returns Q m g ->
  (forall a g', sound g' -> alike g g' -> Q a -> returns R (k a) g') ->
  returns R (bind m k) g.
Proof.
  intros Hs (a & g' & Hrun & Ha & Hq) Hk.
  destruct (Hk a g' (alike_sound _ _ Hs Ha) Ha Hq) as (b & g'' & Hrun' & Ha' & Hr).
  exists b, g''. unfold bind. rewrite Hrun. split; [done|].
  split; [by eapply alike_trans|done].
Qed.

Lemma returns_ret {A} (Q : A -> Prop) (a : A) g : Q a -> returns Q (ret a) g.
Proof. intros Hq. exists a, g. split; [done|]. split; [apply alike_refl|done]. Qed.

(** A temporary move is the move, and hands back the fish of the tile. *)
Lemma make_temp_move_move from_pos to_pos g :
  _make_temp_move from_pos to_pos g =
  match _move_penguin from_pos to_pos g with
  | Ok _ g' => Ok (remove_tile from_pos.1 from_pos.2 (grid g)).1 g'
  | Raise e g' => Raise e g'
  end.
Proof.
  unfold _make_temp_move, _move_penguin, bind, pop_penguin.
  destruct (penguin_positions g !! from_pos) as [i|]; [|done].
  unfold grid_remove_tile. cbn [grid set_penguin_positions].
  destruct (remove_tile from_pos.1 from_pos.2 (grid g)) as [n h]. cbn [fst].
  destruct (add_fish i n _) as [[] g1|]; [|done].
  unfold modify. destruct (relocate i from_pos to_pos _) as [[] g2|]; done.
Qed.

Lemma undo_temp_move_run g from_pos to_pos n i p l :
  penguin_positions g !! to_pos = Some i ->
  players g !! i = Some p ->
  list_remove to_pos (penguins p) = Some l ->
  _undo_temp_move from_pos to_pos n g =
  Ok tt (set_player i
           (set_penguins (l ++ [from_pos]) (set_fish_count (fish_count p + - n) p))
           (set_penguin_positions
              (<[from_pos := i]> (delete to_pos (penguin_positions g)))
              (set_grid
                 (set_tiles (<[from_pos := Tile_ from_pos.1 from_pos.2 n]>
                               (tiles (grid g))) (grid g)) g))).
Proof.
  intros Hpp Hp Hl. pose proof (lookup_lt_Some _ _ _ Hp) as Hlt.
  unfold _undo_temp_move, bind, pop_penguin. rewrite Hpp.
  unfold modify, add_fish, bind, player_at. cbn. rewrite Hp. cbn.
  unfold modify, relocate, bind, player_at. cbn.
  rewrite list_lookup_insert_eq by done. cbn. rewrite Hl.
  unfold modify, set_player. cbn. by rewrite list_insert_insert_eq.
Qed.

Lemma explore_probe rec penguin_pos move_pos g :
  explore rec penguin_pos move_pos g = probe (in_turn rec) penguin_pos move_pos g.
Proof.
  unfold explore, probe, in_turn, bind.
  destruct (_make_temp_move penguin_pos move_pos g) as [n g1|]; [|done].
  destruct (rotate 1 g1) as [[] g2|]; [|done].
  destruct (rec g2) as [s g3|]; [|done].
  destruct (rotate (-1) g3) as [[] g4|]; [|done].
  unfold ret. destruct (_undo_temp_move penguin_pos move_pos n g4) as [[] g5|]; done.
Qed.

(** A temporary move of a token to a cell the generator offers, a search
    that leaves the position it finds, and the undo: together they leave
    the position they found. *)
Lemma returns_probe (Q : score -> Prop) rec from_pos to_pos i g :
  sound g ->
  penguin_positions g !! from_pos = Some i ->
  to_pos ∈ _get_valid_moves g from_pos ->
  (forall g1, sound g1 -> returns Q rec g1) ->
  returns Q (probe rec from_pos to_pos) g.
Proof.
  intros Hs Hfrom Hto Hrec. pose proof Hs as [Hwf Hg].
  pose proof Hwf as (Hc & Hnd & Hcur).
  pose proof Hfrom as Hfrom'. apply Hc in Hfrom' as (p & Hp & Hin).
  destruct (list_remove_elem _ _ Hin) as [l Hl].
  pose proof (valid_move_is_free _ _ _ Hto) as [_ Hfree].
  pose proof (move_penguin_run g from_pos to_pos i p l Hfrom Hp Hl) as Hmove.
  match type of Hmove with _ = Ok tt ?s => set (g1 := s) in * end.
  assert (sound g1) as Hs1.
  { split; [by eapply move_penguin_well_formed|by eapply grounded_move]. }
  destruct (Hrec g1 Hs1) as (s & g3 & Hrun & Ha & Hq).
  pose proof Ha as (Hpp3 & Ht3 & _ & Hcur3).
  pose proof (lookup_lt_Some _ _ _ Hp) as Hlt.
  assert (players g1 !! i = Some (set_penguins (l ++ [to_pos])
            (set_fish_count
               (fish_count p + (remove_tile from_pos.1 from_pos.2 (grid g)).1) p)))
    as Hp1 by (unfold g1; cbn; by rewrite list_lookup_insert_eq).
  destruct (alike_lookup _ _ _ _ Ha Hp1) as (p3 & Hp3 & Hperm3). cbn in Hperm3.
  assert (to_pos ∈ penguins p3) as Hin3
    by (rewrite Hperm3, elem_of_app, list_elem_of_singleton; by right).
  destruct (list_remove_elem _ _ Hin3) as [l3 Hl3].
  assert (penguin_positions g3 !! to_pos = Some i) as Hto3
    by (rewrite Hpp3; unfold g1; cbn; apply lookup_insert_eq).
  eexists s, _. split.
  { unfold probe, bind. rewrite make_temp_move_move, Hmove, Hrun.
    rewrite (undo_temp_move_run g3 from_pos to_pos _ i p3 l3 Hto3 Hp3 Hl3). done. }
  split; [|done]. split_and!.
  - cbn. rewrite Hpp3. unfold g1. cbn.
    rewrite delete_insert_eq, (delete_id (delete _ _)), insert_delete_eq.
    + by apply insert_id.
    + rewrite lookup_delete_ne; [done|]. intros <-. congruence.
  - intros pos. cbn. destruct (decide (pos = from_pos)) as [->|Hne].
    + rewrite lookup_insert_eq. split; [intros _; by eapply Hg|eauto].
    + rewrite lookup_insert_ne by done. rewrite Ht3. unfold g1. cbn.
      destruct from_pos as [r c]. cbn [fst snd].
      rewrite remove_tile_lookup. by rewrite decide_False.
  - cbn. apply Forall2_same_length_lookup. split.
    + rewrite length_insert. destruct Ha as (_ & _ & Hl13 & _).
      rewrite <- (Forall2_length _ _ _ Hl13). unfold g1. cbn. by rewrite length_insert.
    + intros j x y Hx Hy. destruct (decide (j = i)) as [->|Hne].
      * rewrite list_lookup_insert_eq in Hy by (by eapply lookup_lt_Some).
        simplify_eq. cbn.
        rewrite (list_remove_perm _ _ _ Hl).
        rewrite <- Permutation_cons_append. apply Permutation_skip.
        apply (Permutation_cons_inv (a := to_pos)).
        rewrite <- (list_remove_perm _ _ _ Hl3), Hperm3.
        by rewrite <- Permutation_cons_append.
      * rewrite list_lookup_insert_ne in Hy by done.
        destruct (alike_lookup_r _ _ _ _ Ha Hy) as (x' & Hx' & Hperm).
        unfold g1 in Hx'. cbn in Hx'. rewrite list_lookup_insert_ne in Hx' by done.
        by simplify_eq.
  - cbn. rewrite Hcur3. done.
Qed.

Lemma rotate_back (i n : nat) :
  (i < n)%nat ->
  Z.to_nat ((Z.of_nat ((i + 1) mod n)%nat + -1) mod Z.of_nat n) = i.
Proof.
  intros Hi. rewrite Nat2Z.inj_mod.
  replace (Z.of_nat (i + 1) mod Z.of_nat n + -1)
    with (Z.of_nat (i + 1) mod Z.of_nat n - 1) by lia.
  rewrite Zminus_mod_idemp_l.
  replace (Z.of_nat (i + 1) - 1) with (Z.of_nat i) by lia.
  rewrite Z.mod_small by lia. lia.
Qed.

Lemma sound_set_current_player_index g i :
  sound g -> (i < length (players g))%nat -> sound (set_current_player_index i g).
Proof. intros [(Hc & Hnd & _) Hg] Hi. by split; [split_and!|]. Qed.

(** Passing the turn around a search that leaves the position it finds. *)
Lemma returns_in_turn (Q : score -> Prop) rec :
  (forall g, sound g -> returns Q rec g) ->
  forall g, sound g -> returns Q (in_turn rec) g.
Proof.
  intros Hrec g Hs. pose proof Hs as [(_ & _ & Hcur) _].
  assert (players g <> []) as Hne by (destruct (players g); cbn in *; [lia|done]).
  set (c' := ((current_player_index g + 1) mod length (players g))%nat).
  assert (c' < length (players g))%nat as Hc' by (apply Nat.mod_upper_bound; lia).
  destruct (Hrec _ (sound_set_current_player_index g c' Hs Hc'))
    as (s & g3 & Hrun & (Hpp & Ht & Hl & Hc3) & Hq).
  pose proof (Forall2_length _ _ _ Hl) as Hlen. cbn in Hlen, Hc3.
  exists s, (set_current_player_index (current_player_index g) g3). split.
  { unfold in_turn, bind. rewrite rotate_1 by done. fold c'. rewrite Hrun.
    assert (players g3 <> []) as Hne3
      by (destruct (players g3); cbn in *; [lia|done]).
    unfold rotate. destruct (players g3) as [|q qs] eqn:Hps; [done|].
    rewrite <- Hlen, Hc3. unfold c'. by rewrite rotate_back. }
  split; [|done]. by split_and!.
Qed.

Lemma returns_explore (Q : score -> Prop) rec from_pos to_pos i g :
  sound g ->
  penguin_positions g !! from_pos = Some i ->
  to_pos ∈ _get_valid_moves g from_pos ->
  (forall g1, sound g1 -> returns Q rec g1) ->
  returns Q (explore rec from_pos to_pos) g.
Proof.
  intros Hs Hfrom Hto Hrec. unfold returns. rewrite explore_probe.
  eapply returns_probe; [done..|]. by apply returns_in_turn.
Qed.

(** The loops over the destinations of one token. *)
Lemma returns_max_moves (Q : score -> Prop) (P : score * score -> Prop)
    rec penguin_pos beta i :
  (forall a b g, sound g -> returns Q (rec a b) g) ->
  (forall st s, P st -> Q s -> P (score_max st.1 s, score_max st.2 s)) ->
  forall moves st g,
    sound g ->
    penguin_positions g !! penguin_pos = Some i ->
    (forall m, m ∈ moves -> m ∈ _get_valid_moves g penguin_pos) ->
    P st ->
    returns P (max_moves rec penguin_pos beta moves st) g.
Proof.
  intros Hrec Hstep. induction moves as [|m moves IH]; intros st g Hs Hpos Hmoves Hst.
  - by apply returns_ret.
  - cbn [max_moves].
    eapply (returns_bind Q); [done| |].
    + eapply returns_explore; [done|done| |intros; by apply Hrec].
      apply Hmoves. by left.
    + intros s g' Hs' Ha Hq. cbn beta.
      destruct (score_le beta (score_max st.2 s)).
      * apply returns_ret. by apply Hstep.
      * apply IH; [done| | |by apply Hstep].
        -- destruct Ha as (-> & _). done.
        -- intros m' Hm'. apply (valid_moves_alike _ _ _ _ Ha). apply Hmoves. by right.
Qed.

Lemma returns_min_moves (Q : score -> Prop) (P : score * score -> Prop)
    rec penguin_pos alpha i :
  (forall a b g, sound g -> returns Q (rec a b) g) ->
  (forall st s, P st -> Q s -> P (score_min st.1 s, score_min st.2 s)) ->
  forall moves st g,
    sound g ->
    penguin_positions g !! penguin_pos = Some i ->
    (forall m, m ∈ moves -> m ∈ _get_valid_moves g penguin_pos) ->
    P st ->
    returns P (min_moves rec penguin_pos alpha moves st) g.
Proof.
  intros Hrec Hstep. induction moves as [|m moves IH]; intros st g Hs Hpos Hmoves Hst.
  - by apply returns_ret.
  - cbn [min_moves].
    eapply (returns_bind Q); [done| |].
    + eapply returns_explore; [done|done| |intros; by apply Hrec].
      apply Hmoves. by left.
    + intros s g' Hs' Ha Hq. cbn beta.
      destruct (score_le (score_min st.2 s) alpha).
      * apply returns_ret. by apply Hstep.
      * apply IH; [done| | |by apply Hstep].
        -- destruct Ha as (-> & _). done.
        -- intros m' Hm'. apply (valid_moves_alike _ _ _ _ Ha). apply Hmoves. by right.
Qed.

(** The loop over the tokens of a player: every turn of the loop reads a
    token of the player as the list is then, the list keeps its length,
    and the body leaves the position it finds. *)
Lemma returns_for_penguins {A} (P : A -> Prop) (body : Z * Z -> A -> M A) owner :
  (forall pos acc g,
     sound g -> penguin_positions g !! pos = Some owner -> P acc ->
     returns P (body pos acc) g) ->
  forall fuel i acc g p,
    sound g ->
    players g !! owner = Some p ->
    (length (penguins p) <= fuel + i)%nat ->
    P acc ->
    returns P (for_penguins body owner fuel i acc) g.
Proof.
  intros Hbody. induction fuel as [|fuel IH]; intros i acc g p Hs Hp Hlen Hacc.
  - exists acc, g. cbn. rewrite Hp, lookup_ge_None_2 by lia.
    split; [done|]. split; [apply alike_refl|done].
  - unfold returns. cbn [for_penguins]. rewrite Hp.
    destruct (penguins p !! i) as [pos|] eqn:Hpos.
    2:{ exists acc, g. split; [done|]. split; [apply alike_refl|done]. }
    assert (penguin_positions g !! pos = Some owner) as Htoken.
    { destruct Hs as [(Hc & _) _]. apply Hc. exists p. split; [done|].
      by eapply list_elem_of_lookup_2. }
    destruct (Hbody pos acc g Hs Htoken Hacc) as (acc' & g' & Hrun & Ha & Hacc').
    rewrite Hrun.
    destruct (alike_lookup _ _ _ _ Ha Hp) as (p' & Hp' & Hperm).
    destruct (IH (S i) acc' g' p' (alike_sound _ _ Hs Ha) Hp') as (a & g'' & Hrun' & Ha' & Hq);
      [rewrite Hperm; lia|done|].
    exists a, g''. split; [done|]. split; [by eapply alike_trans|done].
Qed.

Lemma evaluate_board_run g :
  (current_player_index g < length (players g))%nat ->
  exists q, _evaluate_board g = Ok (fin q) g.
Proof.
  intros Hcur. destruct (lookup_lt_is_Some_2 _ _ Hcur) as [own Hown].
  eexists. apply (minimax_cutoff_value 0 neg_inf pos_inf true g own); [by left|done].
Qed.

Lemma score_min_not_neg_inf a b : a <> neg_inf -> b <> neg_inf -> score_min a b <> neg_inf.
Proof. unfold score_min. by destruct (score_lt b a). Qed.

(** [_minimax] on a sound position: it returns, it leaves the position,
    and its value is as [value_at] says. *)
Lemma returns_minimax depth : forall alpha beta maximizing_player g,
  sound g ->
  returns (value_at depth maximizing_player)
          (_minimax depth alpha beta maximizing_player) g.
Proof.
  induction depth as [|depth IH]; intros alpha beta mx g Hs;
    pose proof Hs as [(_ & _ & Hcur) _];
    destruct (evaluate_board_run g Hcur) as [q Hq].
  - exists (fin q), g. split; [exact Hq|]. split; [apply alike_refl|].
    split; [eauto|done].
  - unfold returns. rewrite minimax_S.
    destruct (_is_game_over g).
    { exists (fin q), g. split; [exact Hq|]. split; [apply alike_refl|].
      split; done. }
    destruct (lookup_lt_is_Some_2 _ _ Hcur) as [p Hp]. rewrite Hp.
    destruct mx.
    + destruct (returns_for_penguins (fun _ => True)
                  (fun penguin_pos st =>
                     let* g' := get in
                     max_moves (fun a b => _minimax depth a b false)
                       penguin_pos beta (_get_valid_moves g' penguin_pos) st)%py
                  (current_player_index g)) with
        (fuel := length (penguins p)) (i := 0%nat) (acc := (neg_inf, alpha))
        (g := g) (p := p) as (st & g' & Hrun & Ha & _); [|done|done|lia|done|].
      { intros pos acc h Hh Hpos _. unfold returns, bind, get.
        eapply (returns_max_moves (value_at depth false) (fun _ => True));
          [intros; by apply IH|done|done|exact Hpos|done|done]. }
      rewrite Hrun. exists st.1, g'. split; [done|]. split; [done|]. split; done.
    + destruct (returns_for_penguins (fun st => depth = O -> st.1 <> neg_inf)
                  (fun penguin_pos st =>
                     let* g' := get in
                     min_moves (fun a b => _minimax depth a b true)
                       penguin_pos alpha (_get_valid_moves g' penguin_pos) st)%py
                  (current_player_index g)) with
        (fuel := length (penguins p)) (i := 0%nat) (acc := (pos_inf, beta))
        (g := g) (p := p) as (st & g' & Hrun & Ha & Hst); [|done|done|lia|done|].
      { intros pos acc h Hh Hpos Hacc. unfold returns, bind, get.
        eapply (returns_min_moves (value_at depth true)
                  (fun st => depth = O -> st.1 <> neg_inf));
          [intros; by apply IH| |done|exact Hpos|done|done].
        intros st s Hst [Hleaf _] Hd. cbn [fst].
        destruct (Hleaf Hd) as [q' ->]. apply score_min_not_neg_inf; [auto|done]. }
      rewrite Hrun. exists st.1, g'. split; [done|]. split; [done|].
      split; [done|]. intros [= ->] _. by apply Hst.
Qed.

Lemma root_moves_cons depth penguin_pos move_pos moves st g :
  root_moves depth penguin_pos (move_pos :: moves) st g =
  (let* s := probe (_minimax (depth - 1) (alpha_ st) pos_inf false)
                   penguin_pos move_pos in
   let st1 := if score_lt (best_score st) s
              then mkSearch s (Some (penguin_pos, move_pos)) (alpha_ st)
              else st in
   root_moves depth penguin_pos moves
     (mkSearch (best_score st1) (best_move st1)
               (score_max (alpha_ st1) (best_score st1))))%py g.
Proof.
  cbn [root_moves]. unfold probe, bind.
  destruct (_make_temp_move penguin_pos move_pos g) as [n g1|]; [|done].
  destruct (_minimax (depth - 1) (alpha_ st) pos_inf false g1) as [s g2|]; [|done].
  destruct (_undo_temp_move penguin_pos move_pos n g2) as [[] g3|]; done.
Qed.

Lemma score_lt_neg_inf s : s <> neg_inf -> score_lt neg_inf s = true.
Proof. by destruct s. Qed.

(** The loop of [_ai_make_move] over the destinations of one token. *)
Lemma returns_root_moves g0 depth penguin_pos :
  forall moves st g,
    sound g -> alike g0 g ->
    penguin_positions g !! penguin_pos = Some (current_player_index g0) ->
    (forall m, m ∈ moves -> m ∈ _get_valid_moves g penguin_pos) ->
    search_ok g0 st ->
    returns (fun st' => search_ok g0 st' /\
               (strict depth -> moves <> [] \/ best_move st <> None ->
                best_move st' <> None))
            (root_moves depth penguin_pos moves st) g.
Proof.
  induction moves as [|m moves IH]; intros st g Hs Ha0 Hpos Hmoves Hst.
  - apply returns_ret. split; [done|]. intros _ [?|?]; done.
  - unfold returns. rewrite root_moves_cons. fold (returns
      (fun st' => search_ok g0 st' /\
         (strict depth -> m :: moves <> [] \/ best_move st <> None ->
          best_move st' <> None))).
    eapply (returns_bind (value_at (depth - 1) false)); [done| |].
    + eapply returns_probe; [done|exact Hpos|apply Hmoves; by left|].
      intros g1 Hs1. by apply returns_minimax.
    + intros s g' Hs' Ha Hv. cbn beta zeta.
      set (st1 := if score_lt (best_score st) s
                  then mkSearch s (Some (penguin_pos, m)) (alpha_ st) else st).
      assert (search_ok g0 st1 /\ (strict depth -> best_move st1 <> None)) as [Hst1 Hfound].
      { destruct Hst as [Hlegal Hnone]. unfold st1.
        destruct (score_lt (best_score st) s) eqn:Hlt.
        - split; [|done]. split; [|done]. cbn. intros move [= <-]. split; cbn.
          + destruct Ha0 as (<- & _ & _ & _). done.
          + apply (valid_moves_alike _ _ _ _ Ha0). apply Hmoves. by left.
        - split; [done|]. intros Hstrict Hbest.
          rewrite (Hnone Hbest), score_lt_neg_inf in Hlt; [done|by apply Hstrict]. }
      destruct (IH (mkSearch (best_score st1) (best_move st1)
                      (score_max (alpha_ st1) (best_score st1))) g' Hs')
        as (st' & g'' & Hrun & Ha' & Hok & Hprog).
      * by eapply alike_trans.
      * by destruct Ha as (-> & _).
      * intros m' Hm'. apply (valid_moves_alike _ _ _ _ Ha). apply Hmoves. by right.
      * destruct Hst1 as [H1 H2]. by split.
      * exists st', g''. split; [done|]. split; [done|]. split; [done|].
        intros Hstrict _. apply Hprog; [done|]. right. by apply Hfound.
Qed.

(** The loop of [_ai_make_move] over the tokens of the player to move.
    Before the first token that has a destination is reached no
    temporary move has been made, so the list is still in its order and
    that token is reached. *)
Lemma ai_search_loop g0 depth :
  forall fuel i st g p,
    sound g -> alike g0 g ->
    players g !! current_player_index g0 = Some p ->
    (length (penguins p) <= fuel + i)%nat ->
    search_ok g0 st ->
    exists st' g',
      for_penguins
        (fun penguin_pos st =>
           let* g := get in
           root_moves depth penguin_pos (_get_valid_moves g penguin_pos) st)%py
        (current_player_index g0) fuel i st g = Ok st' g' /\
      alike g0 g' /\ search_ok g0 st' /\
      (strict depth ->
       (best_move st <> None \/
        exists j pos, (i <= j)%nat /\ penguins p !! j = Some pos /\
                      _get_valid_moves g pos <> []) ->
       best_move st' <> None).
Proof.
  induction fuel as [|fuel IH]; intros i st g p Hs Ha0 Hp Hlen Hst.
  - exists st, g. cbn. rewrite Hp, lookup_ge_None_2 by lia.
    split; [done|]. split; [done|]. split; [done|].
    intros _ [?|(j & pos & Hj & Hpos & _)]; [done|].
    apply lookup_lt_Some in Hpos. lia.
  - cbn [for_penguins]. rewrite Hp.
    destruct (penguins p !! i) as [pos|] eqn:Hpos.
    2:{ exists st, g. split; [done|]. split; [done|]. split; [done|].
        intros _ [?|(j & pos & Hj & Hpos' & _)]; [done|].
        apply lookup_ge_None in Hpos. apply lookup_lt_Some in Hpos'. lia. }
    assert (penguin_positions g !! pos = Some (current_player_index g0)) as Htoken.
    { destruct Hs as [(Hc & _) _]. apply Hc. exists p. split; [done|].
      by eapply list_elem_of_lookup_2. }
    destruct (_get_valid_moves g pos) as [|m ms] eqn:Hmoves.
    + unfold bind at 1. unfold get at 1. rewrite Hmoves. cbn [root_moves]. unfold ret at 1.
      destruct (IH (S i) st g p Hs Ha0 Hp) as (st' & g' & Hrun & Ha & Hok & Hprog);
        [lia|done|].
      exists st', g'. split; [done|]. split; [done|]. split; [done|].
      intros Hstrict [Hbest|(j & pos' & Hj & Hpos' & Hm')]; apply Hprog; try done;
        [by left|right].
      exists j, pos'. split; [|done].
      destruct (decide (j = i)) as [->|Hne]; [|lia]. congruence.
    + destruct (returns_root_moves g0 depth pos (m :: ms) st g Hs Ha0 Htoken)
        as (st1 & g1 & Hrun1 & Ha1 & Hok1 & Hprog1); [by rewrite Hmoves|done|].
      unfold bind at 1. unfold get at 1. rewrite Hmoves, Hrun1.
      destruct (alike_lookup _ _ _ _ Ha1 Hp) as (p1 & Hp1 & Hperm).
      destruct (IH (S i) st1 g1 p1 (alike_sound _ _ Hs Ha1)) as (st' & g' & Hrun & Ha & Hok & Hprog);
        [by eapply alike_trans|done|rewrite Hperm; lia|done|].
      exists st', g'. split; [done|]. split; [done|]. split; [done|].
      intros Hstrict _. apply Hprog; [done|]. left. apply Hprog1; [done|by left].
Qed.

(** The search of [_ai_make_move] on a sound position. *)
Lemma ai_search_sound g :
  sound g ->
  exists st,
    ai_search g = Ok st g /\ search_ok g st /\
    (strict (minimax_depth g) ->
     (exists p pos, players g !! current_player_index g = Some p /\
                    pos ∈ penguins p /\ _get_valid_moves g pos <> []) ->
     best_move st <> None).
Proof.
  intros Hs. pose proof Hs as [(_ & _ & Hcur) _].
  destruct (lookup_lt_is_Some_2 _ _ Hcur) as [p Hp].
  destruct (ai_search_loop g (minimax_depth g) (length (penguins p)) 0
              (mkSearch neg_inf None neg_inf) g p Hs (alike_refl g) Hp)
    as (st & g' & Hrun & Ha & Hok & Hprog); [lia|by split|].
  exists st.
  assert (exists g'', ai_search g = Ok st g'') as [g'' Hsearch].
  { unfold ai_search, bind, get, player_at. rewrite Hp.
    unfold bind, get in Hrun. rewrite Hrun. unfold modify. eauto. }
  pose proof (ai_search_restores g) as Hrestore. rewrite Hsearch in Hrestore.
  subst g''. split; [done|]. split; [done|].
  intros Hstrict (p' & pos & Hp' & Hin & Hmoves). apply Hprog; [done|]. right.
  simplify_eq. apply list_elem_of_lookup_1 in Hin as [j Hj].
  exists j, pos. split; [lia|done].
Qed.

(** X11. In a game object that keeps its invariant and in which every
    token stands on a tile, at every depth, [_minimax] returns (no
    temporary move or undo raises), and the game object it leaves shows
    the position it found: the same tokens on the same cells, tiles on
    the same cells, the same player to move, and for every player the
    same tokens in the list, though not in the same order. *)
Theorem minimax_leaves_the_position (g : FishGame) (depth : nat)
    (alpha beta : score) (maximizing_player : bool) :
  sound g ->
  exists s g',
    _minimax depth alpha beta maximizing_player g = Ok s g' /\
    penguin_positions g' = penguin_positions g /\
    (forall pos, is_Some (tiles (grid g') !! pos) <-> is_Some (tiles (grid g) !! pos)) /\
    Forall2 (fun p p' => penguins p' ≡ₚ penguins p) (players g) (players g') /\
    current_player_index g' = current_player_index g.
Proof.
  intros Hs.
  destruct (returns_minimax depth alpha beta maximizing_player g Hs)
    as (s & g' & Hrun & Ha & _).
  by exists s, g'.
Qed.

Lemma minimax_leaves_the_position_witness :
  sound corridor /\
  exists s g', _minimax 2 neg_inf pos_inf false corridor = Ok s g' /\
               penguin_positions g' = penguin_positions corridor.
Proof.
  split; [exact corridor_sound|].
  destruct (minimax_leaves_the_position corridor 2 neg_inf pos_inf false
              corridor_sound) as (s & g' & Hrun & Hpp & _).
  by exists s, g'.
Defined.

(** X12. The move of the computer is safe in a game object that keeps
    its invariant and in which every token stands on a tile: the search
    returns and leaves the game object as it was, a move it has chosen
    is a move of a token of the player to move to a cell the move
    generator offers for that token, and [_ai_make_move] returns, either
    starting the animation of that move or passing the turn. The
    program can leave such game objects: after the hasty clicks and one
    more move it is in a state that does not keep the invariant, and
    there the frame in which the computer is due raises [KeyError]. *)
Theorem ai_search_is_safe (g : FishGame) :
  (sound g ->
   exists st,
     ai_search g = Ok st g /\
     (forall from_pos to_pos,
        best_move st = Some (from_pos, to_pos) ->
        token_at g from_pos (current_player_index g) /\
        to_pos ∈ _get_valid_moves g from_pos /\
        _ai_make_move g = _start_animation from_pos to_pos g) /\
     (best_move st = None -> _ai_make_move g = _next_turn g) /\
     exists g', _ai_make_move g = Ok tt g') /\
  (reachable hasty_stale /\ ~ sound hasty_stale /\
   exists g', on_update false true 0 hasty_stale = Raise KeyError g').
Proof.
  split.
  - intros Hs.
    destruct (ai_search_sound g Hs) as (st & Hrun & [Hlegal _] & _).
    pose proof Hs as [(Hc & _ & Hcur) _].
    exists st. split; [done|].
    assert (forall from_pos to_pos,
              best_move st = Some (from_pos, to_pos) ->
              _ai_make_move g = _start_animation from_pos to_pos g) as Hsome
      by (intros a b Hb; unfold _ai_make_move, bind; by rewrite Hrun, Hb).
    assert (best_move st = None -> _ai_make_move g = _next_turn g) as Hnone
      by (intros Hb; unfold _ai_make_move, bind; by rewrite Hrun, Hb).
    split; [|split; [done|]].
    + intros a b Hb. destruct (Hlegal _ Hb) as [Hpos Hto]. cbn in Hpos, Hto.
      split; [|split; [done|by apply Hsome]].
      split; [done|]. by apply Hc.
    + destruct (best_move st) as [[a b]|] eqn:Hb.
      * rewrite (Hsome a b eq_refl). destruct (Hlegal _ eq_refl) as [Hpos _].
        cbn in Hpos.
        unfold _start_animation. rewrite Hpos. destruct (current_animation g); eauto.
      * rewrite (Hnone eq_refl). destruct (next_turn_frame g Hcur) as (g' & Hnext & _).
        eauto.
  - split; [exact hasty_stale_reachable|]. split.
    + intros [(Hc & _) _]. destruct hasty_stale_token as (Hin & Hpp & _).
      apply Hc in Hin. by rewrite Hpp in Hin.
    + eexists. vm_compute. reflexivity.
Qed.

Lemma ai_search_is_safe_witness :
  sound two_movers /\
  exists st, ai_search two_movers = Ok st two_movers /\
             best_move st = Some ((0, 0), (0, 1)) /\
             (0, 1) ∈ _get_valid_moves two_movers (0, 0).
Proof.
  split; [exact two_movers_sound|].
  destruct (ai_search_is_safe two_movers) as [Hsafe _].
  destruct (Hsafe two_movers_sound) as (st & Hrun & Hlegal & _).
  exists st. split; [exact Hrun|].
  assert (best_move st = Some ((0, 0), (0, 1))) as Hb.
  { destruct search_skips_a_token as (_ & _ & _ & (st' & Hrun' & Hb' & _) & _).
    rewrite Hrun in Hrun'. by injection Hrun' as ->. }
  split; [exact Hb|]. by destruct (Hlegal _ _ Hb) as (_ & Hto & _).
Defined.

Lemma strict_shallow depth : depth = 1%nat \/ depth = 2%nat -> strict depth.
Proof.
  intros [-> | ->] s [Hleaf Hmin]; cbn in *.
  - destruct (Hleaf eq_refl) as [q ->]. done.
  - by apply Hmin.
Qed.

(** X13. With the depth of the search set to 1 or 2 the computer finds a
    move whenever it has one: in a game object that keeps its invariant
    and in which every token stands on a tile, when a token of the
    player to move has a destination, the search ends with a move, which
    is legal, and [_ai_make_move] starts its animation. (At depth 3 and
    more the search can end without a move, see the corridor game.) *)
Theorem shallow_search_finds_a_move (g : FishGame) (p : Player) (pos : Z * Z) :
  sound g ->
  minimax_depth g = 1%nat \/ minimax_depth g = 2%nat ->
  players g !! current_player_index g = Some p ->
  pos ∈ penguins p ->
  _get_valid_moves g pos <> [] ->
  exists st from_pos to_pos,
    ai_search g = Ok st g /\
    best_move st = Some (from_pos, to_pos) /\
    penguin_positions g !! from_pos = Some (current_player_index g) /\
    to_pos ∈ _get_valid_moves g from_pos /\
    _ai_make_move g = _start_animation from_pos to_pos g.
Proof.
  intros Hs Hdepth Hp Hin Hmoves.
  destruct (ai_search_sound g Hs) as (st & Hrun & [Hlegal _] & Hprog).
  destruct (best_move st) as [[a b]|] eqn:Hb.
  - exists st, a, b. destruct (Hlegal _ eq_refl) as [Hpos Hto].
    split_and!; try done. unfold _ai_make_move, bind. by rewrite Hrun, Hb.
  - exfalso. apply Hprog; [by apply strict_shallow|by exists p, pos|done].
Qed.

Lemma shallow_search_finds_a_move_witness :
  sound two_movers /\ minimax_depth two_movers = 1%nat /\
  (3, 3) ∈ [(3, 6); (0, 0); (3, 3); (3, 0)] /\
  _get_valid_moves two_movers (3, 3) <> [] /\
  exists st from_pos to_pos,
    ai_search two_movers = Ok st two_movers /\
    best_move st = Some (from_pos, to_pos).
Proof.
  assert ((3, 3) ∈ [(3, 6); (0, 0); (3, 3); (3, 0)]) as Hin
    by (apply list_elem_of_In; vm_compute; tauto).
  assert (_get_valid_moves two_movers (3, 3) <> []) as Hmoves
    by (vm_compute; discriminate).
  split; [exact two_movers_sound|]. split; [reflexivity|].
  split; [exact Hin|]. split; [exact Hmoves|].
  destruct (shallow_search_finds_a_move two_movers
              (mkPlayer "Player 2" "yellow" 26 true 0 [(3, 6); (0, 0); (3, 3); (3, 0)])
              (3, 3) two_movers_sound (or_introl eq_refl) eq_refl Hin Hmoves)
    as (st & a & b & Hrun & Hb & _).
  by exists st, a, b.
Defined.

(** * The distance of the first draft *)

Lemma land_1 r : Z.land r 1 = r mod 2.
Proof. change 1 with (Z.ones 1). by rewrite Z.land_ones. Qed.

Lemma cube_norm_spec a b m :
  Greedy.cube_norm a b <= m <->
  -m <= a <= m /\ -m <= b <= m /\ -m <= a + b <= m.
Proof. unfold Greedy.cube_norm. lia. Qed.

Lemma cube_norm_triangle a b a' b' :
  Greedy.cube_norm (a + a') (b + b') <= Greedy.cube_norm a b + Greedy.cube_norm a' b'.
Proof.
  apply cube_norm_spec.
  pose proof (proj1 (cube_norm_spec a b _) (Z.le_refl _)).
  pose proof (proj1 (cube_norm_spec a' b' _) (Z.le_refl _)).
  lia.
Qed.

Lemma cube_norm_opp a b : Greedy.cube_norm (- a) (- b) = Greedy.cube_norm a b.
Proof.
  apply Z.le_antisymm; apply cube_norm_spec.
  - pose proof (proj1 (cube_norm_spec a b _) (Z.le_refl _)). lia.
  - pose proof (proj1 (cube_norm_spec (- a) (- b) _) (Z.le_refl _)). lia.
Qed.

(** The distance is the largest of the three cube differences. *)
Lemma hex_distance_max r1 c1 r2 c2 :
  Greedy._hex_distance (r1, c1) (r2, c2) =
  Greedy.cube_norm ((c1 - r1 / 2) - (c2 - r2 / 2)) (r1 - r2).
Proof.
  unfold Greedy._hex_distance, Greedy.cube_norm. rewrite !land_1.
  replace ((r1 - r1 mod 2) / 2) with (r1 / 2) by parity.
  replace ((r2 - r2 mod 2) / 2) with (r2 / 2) by parity.
  generalize (c1 - r1 / 2) (c2 - r2 / 2). intros x1 x2.
  symmetry. apply Z.div_unique with (r := 0); lia.
Qed.

(** X14. [_hex_distance] is a distance on the cells: it is never
    negative, it is zero between a cell and itself only, it does not
    depend on the order of its arguments, and it obeys the triangle
    inequality. It is the distance of a layout shifted by rows, while
    the neighbours of the grid are shifted by columns: the south-east
    neighbour of a cell in an even row and an even column is at
    distance 2. *)
Theorem hex_distance_is_a_metric :
  (forall p q, 0 <= Greedy._hex_distance p q) /\
  (forall p q, Greedy._hex_distance p q = 0 <-> p = q) /\
  (forall p q, Greedy._hex_distance p q = Greedy._hex_distance q p) /\
  (forall p q s, Greedy._hex_distance p s <=
                 Greedy._hex_distance p q + Greedy._hex_distance q s) /\
  (forall r c, r mod 2 = 0 -> c mod 2 = 0 ->
     (SE, (r + 1, c + 1)) ∈ _get_hex_neighbors_with_direction r c /\
     Greedy._hex_distance (r, c) (r + 1, c + 1) = 2).
Proof.
  split_and!.
  - intros [r1 c1] [r2 c2]. rewrite hex_distance_max. unfold Greedy.cube_norm. lia.
  - intros [r1 c1] [r2 c2]. rewrite hex_distance_max. split.
    + intros H. assert (Greedy.cube_norm (c1 - r1 / 2 - (c2 - r2 / 2)) (r1 - r2) <= 0)
        as Hle by lia.
      apply cube_norm_spec in Hle. assert (r1 = r2) as -> by lia. f_equal. lia.
    + intros [= -> ->]. replace (c2 - r2 / 2 - (c2 - r2 / 2)) with 0 by lia.
      by rewrite Z.sub_diag.
  - intros [r1 c1] [r2 c2]. rewrite !hex_distance_max, <- cube_norm_opp.
    f_equal; lia.
  - intros [r1 c1] [r2 c2] [r3 c3]. rewrite !hex_distance_max.
    etrans; [|apply cube_norm_triangle]. apply Z.eq_le_incl. f_equal; lia.
  - intros r c Hr Hc. split.
    + unfold _get_hex_neighbors_with_direction. rewrite decide_True by done.
      apply list_elem_of_In. simpl. tauto.
    + rewrite hex_distance_max.
      replace ((r + 1) / 2) with (r / 2) by parity.
      replace (c - r / 2 - (c + 1 - r / 2)) with (-1) by lia.
      replace (r - (r + 1)) with (-1) by lia. reflexivity.
Qed.

(** * The move generator of the first draft *)

Lemma continue_line_Some h dr dc cur next :
  Draft.continue_line h dr dc cur = Some next <->
  next = (cur.1 + dr, cur.2 + dc) /\ next ∈ Draft.get_neighbors h cur.1 cur.2.
Proof.
  unfold Draft.continue_line. split.
  - intros Hhead. apply head_Some_elem_of, list_elem_of_filter in Hhead as [[H1 H2] Hin].
    split; [|done]. destruct next. cbn in *. f_equal; lia.
  - intros [-> Hin].
    destruct (filter _ _) as [|y l] eqn:Hf.
    + assert ((cur.1 + dr, cur.2 + dc) ∈
              filter (fun pos : Z * Z => pos.1 - cur.1 = dr /\ pos.2 - cur.2 = dc)
                     (Draft.get_neighbors h cur.1 cur.2)) as Hin'
        by (apply list_elem_of_filter; split; [cbn; lia|done]).
      rewrite Hf in Hin'. inversion Hin'.
    + assert (y ∈ filter (fun pos : Z * Z => pos.1 - cur.1 = dr /\ pos.2 - cur.2 = dc)
                         (Draft.get_neighbors h cur.1 cur.2)) as Hy
        by (rewrite Hf; by left).
      apply list_elem_of_filter in Hy as [[H1 H2] _]. cbn. f_equal.
      destruct y. cbn in *. f_equal; lia.
Qed.

Lemma shift_S dr dc p k : shift dr dc p (S k) = shift dr dc (p.1 + dr, p.2 + dc) k.
Proof. unfold shift. cbn [fst snd]. f_equal; lia. Qed.

Lemma shift_0 dr dc p : shift dr dc p 0 = p.
Proof. unfold shift. destruct p. cbn. f_equal; lia. Qed.

Lemma follow_sound g dr dc fuel : forall cur c,
  c ∈ Draft.follow g dr dc fuel cur ->
  exists m, c = shift dr dc cur m /\ is_Some (tiles (grid g) !! c) /\
    (forall k, (1 <= k <= m)%nat -> free g (shift dr dc cur k)) /\
    (forall k, (k < m)%nat ->
       shift dr dc cur (S k) ∈
       Draft.get_neighbors (grid g) (shift dr dc cur k).1 (shift dr dc cur k).2).
Proof.
  induction fuel as [|fuel IH]; intros cur c Hin; cbn [Draft.follow] in Hin.
  - inversion Hin.
  - apply elem_of_app in Hin as [Hin|Hin].
    + destruct (decide (is_Some (tiles (grid g) !! cur))) as [Ht|]; [|inversion Hin].
      apply list_elem_of_singleton in Hin as ->.
      exists 0%nat. rewrite shift_0. split; [done|]. split; [done|].
      split; intros k Hk; lia.
    + destruct (Draft.continue_line (grid g) dr dc cur) as [next|] eqn:Hnext;
        [|inversion Hin].
      destruct (decide (is_Some (penguin_positions g !! next))) as [|Hfree];
        [inversion Hin|].
      apply continue_line_Some in Hnext as [-> Hnb].
      destruct (IH _ _ Hin) as (m & -> & Ht & Hall & Hsteps).
      exists (S m). rewrite shift_S. split; [done|]. split; [done|]. split.
      * intros [|k] Hk; [lia|]. rewrite shift_S.
        destruct k as [|k]; [|apply Hall; lia].
        rewrite shift_0. split.
        -- apply get_neighbors_steps in Hnb. tauto.
        -- by apply eq_None_not_Some.
      * intros [|k] Hk.
        -- by rewrite shift_S, !shift_0.
        -- rewrite !(shift_S _ _ cur). apply Hsteps. lia.
Qed.

Lemma follow_complete g dr dc : forall m fuel cur,
  (m < fuel)%nat ->
  is_Some (tiles (grid g) !! cur) ->
  (forall k, (1 <= k <= m)%nat -> free g (shift dr dc cur k)) ->
  (forall k, (k < m)%nat ->
     shift dr dc cur (S k) ∈
     Draft.get_neighbors (grid g) (shift dr dc cur k).1 (shift dr dc cur k).2) ->
  shift dr dc cur m ∈ Draft.follow g dr dc fuel cur.
Proof.
  induction m as [|m IH]; intros fuel cur Hfuel Ht Hall Hsteps;
    (destruct fuel as [|fuel]; [lia|]); cbn [Draft.follow]; apply elem_of_app.
  - left. rewrite shift_0, decide_True by done. by left.
  - right.
    assert (Draft.continue_line (grid g) dr dc cur = Some (cur.1 + dr, cur.2 + dc))
      as ->.
    { apply continue_line_Some. split; [done|].
      specialize (Hsteps 0%nat). rewrite shift_S, !shift_0 in Hsteps.
      apply Hsteps. lia. }
    destruct (Hall 1%nat) as [Ht1 Hp1]; [lia|]. rewrite shift_S, shift_0 in Ht1, Hp1.
    rewrite decide_False by (rewrite Hp1; by intros [? ?]).
    rewrite shift_S. apply IH; [lia|done| |].
    + intros k Hk. rewrite <- shift_S. apply Hall. lia.
    + intros k Hk. rewrite <- !shift_S. apply Hsteps. lia.
Qed.

Lemma slide_1 d p : slide d p 1 = step d p.
Proof. symmetry. apply (line_slide d p 0). Qed.

(** A walk that starts along the row or the column goes on by the same
    label and the same offset. *)
Lemma straight_walk d p k :
  straight d p ->
  shift ((step d p).1 - p.1) ((step d p).2 - p.2) (step d p) k =
    slide d p (Z.of_nat (S k)) /\
  shift ((step d p).1 - p.1) ((step d p).2 - p.2) (step d p) (S k) =
    step d (shift ((step d p).1 - p.1) ((step d p).2 - p.2) (step d p) k).
Proof.
  unfold straight. rewrite slide_1. destruct p as [r c].
  rewrite !step_cases. unfold shift, slide. cbn [fst snd].
  destruct d, (decide (c mod 2 = 0)); cbn [fst snd]; intros [H|H];
    try (exfalso; lia);
    (split; [f_equal; lia|]); rewrite step_cases; cbn [fst snd];
    repeat case_decide; try (exfalso; parity); f_equal; lia.
Qed.

(** A walk that starts sideways finds no neighbour at the same offset
    after its first cell. *)
Lemma sideways_stops d p d' :
  ~ straight d p ->
  ((step d p).1 + ((step d p).1 - p.1), (step d p).2 + ((step d p).2 - p.2)) <>
  step d' (step d p).
Proof.
  unfold straight. rewrite slide_1. destruct p as [r c].
  rewrite !step_cases. cbn [fst snd].
  destruct d, (decide (c mod 2 = 0)); cbn [fst snd]; intros Hns;
    try (exfalso; apply Hns; lia);
    destruct d'; rewrite step_cases; cbn [fst snd];
    repeat case_decide; try (exfalso; parity); intros [= H1 H2]; lia.
Qed.

Lemma draft_get_valid_moves_spec g start c :
  c ∈ Draft._get_valid_moves g start <->
  exists d n, 0 < n /\ c = slide d start n /\
              (forall k, 0 < k <= n -> free g (slide d start k)) /\
              (straight d start \/ n = 1).
Proof.
  unfold Draft._get_valid_moves. rewrite list_elem_of_In, in_flat_map. split.
  - intros (nb & Hnb & Hin). apply list_elem_of_In in Hnb, Hin.
    apply get_neighbors_steps in Hnb as [Ht [d Hd]].
    replace (start.1, start.2) with start in Hd by (by destruct start). subst nb.
    destruct (decide (is_Some (penguin_positions g !! step d start))) as [|Hp];
      [inversion Hin|].
    apply eq_None_not_Some in Hp.
    apply follow_sound in Hin as (m & -> & Htc & Hall & Hsteps).
    assert (free g (slide d start 1)) as Hfirst by (rewrite slide_1; by split).
    destruct (decide ((slide d start 1).1 = start.1 \/ (slide d start 1).2 = start.2))
      as [Hs|Hns].
    + exists d, (Z.of_nat (S m)). split; [lia|].
      split; [apply (straight_walk d start m Hs)|]. split; [|by left].
      intros k Hk. destruct (decide (k = 1)) as [->|Hne]; [done|].
      replace k with (Z.of_nat (S (Z.to_nat (k - 1)))) by lia.
      rewrite <- (proj1 (straight_walk d start _ Hs)). apply Hall. lia.
    + destruct m as [|m].
      * exists d, 1. rewrite shift_0, slide_1. split; [lia|]. split; [done|].
        split; [|by right]. intros k Hk. by replace k with 1 by lia.
      * exfalso. specialize (Hsteps 0%nat). rewrite shift_S, !shift_0 in Hsteps.
        destruct (proj1 (get_neighbors_steps _ _ _ _) (Hsteps ltac:(lia)))
          as [_ [d' Hd']].
        replace ((step d start).1, (step d start).2) with (step d start) in Hd'
          by (by destruct (step d start)).
        exact (sideways_stops d start d' Hns Hd').
  - intros (d & n & Hn & -> & Hall & Hs).
    assert (free g (step d start)) as [Ht Hp] by (rewrite <- slide_1; apply Hall; lia).
    exists (step d start). split.
    { apply list_elem_of_In, get_neighbors_steps. split; [done|]. exists d.
      by destruct start. }
    apply list_elem_of_In. rewrite decide_False by (rewrite Hp; by intros [? ?]).
    destruct (decide (n = 1)) as [->|Hne].
    + rewrite slide_1.
      rewrite <- (shift_0 ((step d start).1 - start.1) ((step d start).2 - start.2)
                    (step d start)) at 1.
      apply follow_complete; [lia|done|intros; lia|intros; lia].
    + destruct Hs as [Hs|?]; [|done].
      replace n with (Z.of_nat (S (Z.to_nat (n - 1)))) by lia.
      rewrite <- (proj1 (straight_walk d start _ Hs)).
      assert (forall k, (k <= Z.to_nat (n - 1))%nat ->
                free g (shift ((step d start).1 - start.1) ((step d start).2 - start.2)
                              (step d start) k)) as Hfree.
      { intros k Hk. rewrite (proj1 (straight_walk d start k Hs)). apply Hall. lia. }
      apply follow_complete; [|done|intros; apply Hfree; lia|].
      * assert (Z.to_nat (n - 1) < size (tiles (grid g)))%nat; [|lia].
        apply (free_line_short g d (step d start)). intros k Hk.
        rewrite <- line_S, line_slide, <- (proj1 (straight_walk d start k Hs)).
        by apply Hfree.
      * intros k Hk. apply get_neighbors_steps.
        split; [apply Hfree; lia|]. exists d.
        rewrite (proj2 (straight_walk d start k Hs)).
        by destruct (shift _ _ _ k).
Qed.

Lemma draft_moves_subset g start c :
  c ∈ Draft._get_valid_moves g start -> c ∈ _get_valid_moves g start.
Proof.
  intros Hin. apply draft_get_valid_moves_spec in Hin as (d & n & Hn & -> & Hall & _).
  apply get_valid_moves_spec. exists d, (Z.to_nat (n - 1)).
  split; [rewrite line_slide; f_equal; lia|].
  intros k Hk. rewrite line_slide. apply Hall. lia.
Qed.

(** X15. The move generator of the first draft, which steps by a fixed
    offset: it offers the cells of the row and of the column of the
    start, up to the first cell that is absent or holds a token, and the
    first cell only of the two lines that leave the column. Every cell
    it offers is offered by the generator of the game, which follows the
    direction labels; the loop ends within the fuel of the model. *)
Theorem draft_moves_are_moves (g : FishGame) (start : Z * Z) :
  (forall c, c ∈ Draft._get_valid_moves g start <->
     exists d n, 0 < n /\ c = slide d start n /\
                 (forall k, 0 < k <= n -> free g (slide d start k)) /\
                 (straight d start \/ n = 1)) /\
  (forall c, c ∈ Draft._get_valid_moves g start -> c ∈ _get_valid_moves g start).
Proof.
  split; [apply draft_get_valid_moves_spec|apply draft_moves_subset].
Qed.

(** * The turn engine of the first draft *)

(** A token has a destination by one generator when it has one by the
    other: both offer the free neighbours. *)
Lemma draft_can_move g pos : Greedy.can_move g pos = can_move g pos.
Proof.
  unfold Greedy.can_move, can_move.
  destruct (Draft._get_valid_moves g pos) as [|x l] eqn:Hd;
    destruct (_get_valid_moves g pos) as [|y l'] eqn:Hl; try done.
  - assert (y ∈ _get_valid_moves g pos) as Hy by (rewrite Hl; by left).
    apply get_valid_moves_spec in Hy as (d & n & _ & Hall).
    assert (slide d pos 1 ∈ Draft._get_valid_moves g pos) as Hin.
    { apply draft_get_valid_moves_spec. exists d, 1. split; [lia|]. split; [done|].
      split; [|by right]. intros k Hk. replace k with 1 by lia.
      rewrite slide_1. apply (Hall 0%nat). lia. }
    rewrite Hd in Hin. inversion Hin.
  - assert (x ∈ Draft._get_valid_moves g pos) as Hx by (rewrite Hd; by left).
    apply draft_get_valid_moves_spec in Hx as (d & n & Hn & -> & Hall & _).
    assert (slide d pos n ∈ _get_valid_moves g pos) as Hin.
    { apply get_valid_moves_spec. exists d, (Z.to_nat (n - 1)).
      split; [rewrite line_slide; f_equal; lia|].
      intros k Hk. rewrite line_slide. apply Hall. lia. }
    rewrite Hl in Hin. inversion Hin.
Qed.

Lemma existsb_draft_can_move g l :
  existsb (Greedy.can_move g) l = existsb (can_move g) l.
Proof. induction l as [|x l IH]; [done|]. cbn. by rewrite IH, draft_can_move. Qed.

(** The loop of the draft and the bounded loop of the game, from a
    player from whom the round ends after [fuel] more turns. *)
Lemma draft_next_turn_loop original : forall fuel g,
  (current_player_index g < length (players g))%nat ->
  (0 < fuel)%nat ->
  ((current_player_index g + fuel) mod length (players g))%nat = original ->
  (forall j, (1 <= j < fuel)%nat ->
     ((current_player_index g + j) mod length (players g))%nat <> original) ->
  Greedy.next_turn_loop original fuel g = next_turn_loop fuel g.
Proof.
  induction fuel as [|fuel IH]; intros g Hcur Hfuel Hend Hbefore; [lia|].
  assert (players g <> []) as Hne by (destruct (players g); cbn in *; [lia|done]).
  cbn [Greedy.next_turn_loop next_turn_loop]. unfold bind, get, player_at.
  rewrite rotate_1 by done.
  set (i' := ((current_player_index g + 1) mod length (players g))%nat).
  assert (i' < length (players g))%nat as Hi' by (apply Nat.mod_upper_bound; lia).
  cbn [current_player_index set_current_player_index players].
  destruct (lookup_lt_is_Some_2 (players g) i' Hi') as [p Hp]. rewrite Hp.
  rewrite existsb_draft_can_move.
  destruct (existsb _ (penguins p)); [done|].
  destruct fuel as [|fuel].
  - rewrite decide_True by (unfold i'; by rewrite <- Hend). done.
  - rewrite decide_False by (apply (Hbefore 1%nat); lia).
    apply IH; cbn [current_player_index set_current_player_index players].
    + done.
    + lia.
    + unfold i'. rewrite Nat.Div0.add_mod_idemp_l. rewrite <- Hend. f_equal. lia.
    + intros j Hj. unfold i'. rewrite Nat.Div0.add_mod_idemp_l.
      replace (current_player_index g + 1 + j)%nat
        with (current_player_index g + S j)%nat by lia.
      apply Hbefore. lia.
Qed.

(** X16. The [while True] loop of [_next_turn] in the first draft ends
    within [len(players)] turns and does what the bounded loop of the
    game does: when the player to move exists, the two versions of
    [_next_turn] give the same game object, though each asks its own
    move generator whether a token can move. *)
Theorem draft_next_turn_agrees (g : FishGame) :
  (current_player_index g < length (players g))%nat ->
  Greedy._next_turn g = _next_turn g /\
  exists g', Greedy._next_turn g = Ok tt g'.
Proof.
  intros Hcur.
  assert (Greedy._next_turn g = _next_turn g) as Heq.
  { unfold Greedy._next_turn, _next_turn. apply draft_next_turn_loop; [done|lia| |].
    - replace (current_player_index g + length (players g))%nat
        with (current_player_index g + 1 * length (players g))%nat by lia.
      rewrite Nat.Div0.mod_add. by apply Nat.mod_small.
    - intros j Hj Heq.
      destruct (decide (current_player_index g + j < length (players g))%nat).
      + rewrite Nat.mod_small in Heq by done. lia.
      + replace (current_player_index g + j)%nat
          with ((current_player_index g + j - length (players g)) +
                1 * length (players g))%nat in Heq by lia.
        rewrite Nat.Div0.mod_add, Nat.mod_small in Heq by lia. lia. }
  split; [done|]. rewrite Heq.
  destruct (next_turn_frame g Hcur) as (g' & Hrun & _). eauto.
Qed.

Lemma draft_next_turn_agrees_witness :
  (current_player_index corridor < length (players corridor))%nat /\
  Greedy._next_turn corridor = _next_turn corridor.
Proof.
  assert (current_player_index corridor < length (players corridor))%nat as H
    by (vm_compute; lia).
  split; [exact H|]. apply (draft_next_turn_agrees corridor H).
Defined.

(** * The computer of the first draft *)

Lemma Qc_nonneg_plus (a b : Qc) : (0 <= a -> 0 <= b -> 0 <= a + b)%Qc.
Proof.
  intros Ha Hb. rewrite <- (Qcplus_0_l 0). by apply Qcplus_le_compat.
Qed.

Lemma Qc_nonneg_mult (a b : Qc) : (0 <= a -> 0 <= b -> 0 <= a * b)%Qc.
Proof.
  intros Ha Hb. rewrite <- (Qcmult_0_l b). by apply Qcmult_le_compat_r.
Qed.

Lemma of_Z_nonneg z : 0 <= z -> (0 <= of_Z z)%Qc.
Proof.
  intros Hz. unfold of_Z, Qcle, Q2Qc. cbn [this]. rewrite !Qred_correct.
  unfold Qle. cbn. lia.
Qed.

Lemma of_nat_nonneg n : (0 <= of_nat n)%Qc.
Proof. apply of_Z_nonneg. lia. Qed.

Lemma Qc_weight_nonneg (a b : positive) : (0 <= Q2Qc (Z.pos a # b))%Qc.
Proof.
  unfold Qcle, Q2Qc. cbn [this]. rewrite !Qred_correct. unfold Qle. cbn. lia.
Qed.

Lemma foldl_nonneg {A} (f : Qc -> A -> Qc) (l : list A) :
  (forall s x, (0 <= s)%Qc -> (0 <= f s x)%Qc) ->
  forall a, (0 <= a)%Qc -> (0 <= foldl f a l)%Qc.
Proof.
  intros Hf. induction l as [|x l IH]; intros a Ha; [done|].
  cbn [foldl]. apply IH. by apply Hf.
Qed.

(** On tiles without negative fish a move of a player that exists is
    valued, and not below zero. *)
Lemma evaluate_move_nonneg g p from_pos to_pos :
  (forall pos tile, tiles (grid g) !! pos = Some tile -> 0 <= fish tile) ->
  players g !! current_player_index g = Some p ->
  exists q, Greedy._evaluate_move from_pos to_pos g = Ok q g /\ (0 <= q)%Qc.
Proof.
  intros Hfish Hp. unfold Greedy._evaluate_move, bind, get, player_at. rewrite Hp.
  match goal with |- context [foldl ?f ?a ?l] => set (score2 := foldl f a l) end.
  assert (0 <= score2)%Qc as H2.
  { unfold score2. apply foldl_nonneg.
    - intros s nb Hs.
      destruct (tiles (grid g) !! nb) as [t|] eqn:Ht; [|done].
      destruct (penguin_positions g !! nb); [done|].
      apply Qc_nonneg_plus; [done|]. apply Qc_nonneg_mult.
      + apply of_Z_nonneg. by eapply Hfish.
      + apply Qc_weight_nonneg.
    - apply Qc_nonneg_plus.
      + apply of_Z_nonneg. destruct (tiles (grid g) !! from_pos) eqn:Ht; [|done].
        by eapply Hfish.
      + apply Qc_nonneg_mult; [apply of_nat_nonneg|apply Qc_weight_nonneg]. }
  destruct (Greedy.min_distance from_pos to_pos (penguins p)) as [m|].
  - eexists. split; [done|]. apply Qc_nonneg_plus; [done|].
    apply Qc_nonneg_mult; [apply of_Z_nonneg; lia|apply Qc_weight_nonneg].
  - eexists. split; [done|]. done.
Qed.

Lemma not_nonneg_le_minus_1 (q : Qc) :
  (0 <= q)%Qc -> Qle_bool q (of_Z (-1)) = false.
Proof.
  intros Hq. destruct (Qle_bool q (of_Z (-1))) eqn:Hle; [|done].
  apply Qle_bool_iff in Hle.
  assert (0 <= of_Z (-1))%Qc as H by (eapply Qcle_trans; [exact Hq|exact Hle]).
  vm_compute in H. done.
Qed.

Lemma greedy_over_moves g p pos :
  (forall pos tile, tiles (grid g) !! pos = Some tile -> 0 <= fish tile) ->
  players g !! current_player_index g = Some p ->
  pos ∈ penguins p ->
  forall moves st,
    (forall m, m ∈ moves -> m ∈ Draft._get_valid_moves g pos) ->
    greedy_ok g p st ->
    exists st', Greedy.over_moves pos moves st g = Ok st' g /\
                greedy_ok g p st' /\
                (st'.1 = None <-> moves = [] /\ st.1 = None).
Proof.
  intros Hfish Hp Hpos. induction moves as [|m moves IH]; intros st Hmoves Hst.
  - exists st. split; [done|]. split; [done|]. tauto.
  - cbn [Greedy.over_moves]. unfold bind.
    destruct (evaluate_move_nonneg g p pos m Hfish Hp) as (q & -> & Hq).
    assert (forall st1, greedy_ok g p st1 -> st1.1 <> None ->
              exists st', Greedy.over_moves pos moves st1 g = Ok st' g /\
                          greedy_ok g p st' /\
                          (st'.1 = None <-> m :: moves = [] /\ st.1 = None)) as Hnext.
    { intros st1 Hst1 Hsome.
      destruct (IH st1) as (st' & Hrun & Hok & Hnone); [|done|].
      { intros m' Hm'. apply Hmoves. by right. }
      exists st'. split; [done|]. split; [done|]. split; [|by intros [? _]].
      intros H. apply Hnone in H as [_ H]. done. }
    destruct (Qle_bool q st.2) eqn:Hle; cbn [negb].
    + apply Hnext; [done|].
      destruct Hst as [[_ Hminus]|(a & b & -> & _)]; [|done].
      rewrite Hminus, not_nonneg_le_minus_1 in Hle; done.
    + apply Hnext; [|done]. right. exists pos, m. split; [done|]. split; [done|].
      split; [done|]. apply Hmoves. by left.
Qed.

Lemma greedy_over_penguins g p :
  (forall pos tile, tiles (grid g) !! pos = Some tile -> 0 <= fish tile) ->
  players g !! current_player_index g = Some p ->
  forall tokens st,
    (forall pos, pos ∈ tokens -> pos ∈ penguins p) ->
    greedy_ok g p st ->
    exists st', Greedy.over_penguins tokens st g = Ok st' g /\
                greedy_ok g p st' /\
                (st'.1 = None <->
                 st.1 = None /\
                 forall pos, pos ∈ tokens -> Draft._get_valid_moves g pos = []).
Proof.
  intros Hfish Hp. induction tokens as [|pos tokens IH]; intros st Hsub Hst.
  - exists st. split; [done|]. split; [done|]. split; [|tauto].
    intros H. split; [done|]. intros pos Hpos. inversion Hpos.
  - cbn [Greedy.over_penguins]. unfold bind, get.
    destruct (greedy_over_moves g p pos Hfish Hp (Hsub pos ltac:(by left))
                (Draft._get_valid_moves g pos) st) as (st1 & -> & Hok1 & Hnone1);
      [done|done|].
    destruct (IH st1) as (st' & Hrun & Hok & Hnone); [|done|].
    { intros pos' Hpos'. apply Hsub. by right. }
    exists st'. split; [done|]. split; [done|]. rewrite Hnone, Hnone1. split.
    + intros [[Hmoves Hst0] Hrest]. split; [done|].
      intros pos' Hpos'. apply elem_of_cons in Hpos' as [->|Hpos']; [done|by apply Hrest].
    + intros [Hst0 Hall]. split; [split; [|done]|].
      * apply Hall. by left.
      * intros pos' Hpos'. apply Hall. by right.
Qed.

Lemma draft_moves_nil g pos :
  Draft._get_valid_moves g pos = [] <-> _get_valid_moves g pos = [].
Proof.
  pose proof (draft_can_move g pos) as H. unfold Greedy.can_move, can_move in H.
  destruct (Draft._get_valid_moves g pos), (_get_valid_moves g pos); done.
Qed.

(** X17. The computer of the first draft moves whenever it can: on a
    board without negative fish counts the choice of [_ai_make_move]
    returns, writes nothing, and ends without a move only when no token
    of the player to move has a destination; the move it ends with is a
    move of a token of that player to a cell that the generator of the
    draft, and so the generator of the game, offers. *)
Theorem greedy_chooses_a_move (g : FishGame) (p : Player) :
  (forall pos tile, tiles (grid g) !! pos = Some tile -> 0 <= fish tile) ->
  players g !! current_player_index g = Some p ->
  exists best,
    Greedy.choose g = Ok best g /\
    (best = None <-> forall pos, pos ∈ penguins p -> _get_valid_moves g pos = []) /\
    (forall from_pos to_pos,
       best = Some (from_pos, to_pos) ->
       from_pos ∈ penguins p /\
       to_pos ∈ Draft._get_valid_moves g from_pos /\
       to_pos ∈ _get_valid_moves g from_pos).
Proof.
  intros Hfish Hp. unfold Greedy.choose, bind, get, player_at. rewrite Hp.
  destruct (greedy_over_penguins g p Hfish Hp (penguins p) (None, of_Z (-1)))
    as (st & -> & Hok & Hnone); [done|by left|].
  exists st.1. split; [done|]. split.
  - rewrite Hnone. split.
    + intros [_ Hall] pos Hpos. apply draft_moves_nil. by apply Hall.
    + intros Hall. split; [done|]. intros pos Hpos. apply draft_moves_nil. by apply Hall.
  - intros a b Hbest. destruct Hok as [[Hnone' _]|(a' & b' & Hsome & _ & Ha & Hb)];
      [congruence|].
    rewrite Hbest in Hsome. injection Hsome as <- <-.
    split; [done|]. split; [done|].
    by apply draft_moves_subset.
Qed.

Lemma greedy_chooses_a_move_witness :
  (forall pos tile, tiles (grid two_movers) !! pos = Some tile -> 0 <= fish tile) /\
  players two_movers !! current_player_index two_movers =
    Some (mkPlayer "Player 2" "yellow" 26 true 0 [(3, 6); (0, 0); (3, 3); (3, 0)]) /\
  exists best, Greedy.choose two_movers = Ok best two_movers /\ best <> None.
Proof.
  assert (forall pos tile, tiles (grid two_movers) !! pos = Some tile -> 0 <= fish tile)
    as Hfish.
  { apply map_Forall_lookup. apply (bool_decide_unpack _). vm_compute. exact I. }
  split; [exact Hfish|]. split; [reflexivity|].
  destruct (greedy_chooses_a_move two_movers _ Hfish eq_refl) as (best & Hrun & Hnone & _).
  exists best. split; [exact Hrun|].
  intros Hb.
  assert ((0, 0) ∈ [(3, 6); (0, 0); (3, 3); (3, 0)]) as Hin
    by (apply list_elem_of_In; vm_compute; tauto).
  pose proof (proj1 Hnone Hb (0, 0) Hin) as Hmoves.
  vm_compute in Hmoves. discriminate.
Defined.

(** * Selection and animation bookkeeping *)

Section Frame.
Variable selected : option (Z * Z).
Variable moves : list (Z * Z).
Variable queue : list ((Z * Z) * (Z * Z) * nat).
Variable animation : option ((Z * Z) * (Z * Z) * nat).
Local Abbreviation F := (with_aux selected moves queue animation).

Lemma frame_rotate k g : rotate k (F g) = lift F (rotate k g).
Proof. unfold rotate. cbn. by destruct (players g). Qed.

Lemma frame_move_penguin from_pos to_pos g :
  _move_penguin from_pos to_pos (F g) = lift F (_move_penguin from_pos to_pos g).
Proof.
  unfold _move_penguin, bind, pop_penguin. cbn.
  destruct (penguin_positions g !! from_pos) as [i|]; [|done].
  unfold grid_remove_tile. cbn.
  destruct (remove_tile from_pos.1 from_pos.2 (grid g)) as [n h].
  unfold add_fish, bind, player_at. cbn.
  destruct (players g !! i) as [p|]; [|done]. cbn.
  unfold modify, relocate, bind, player_at. cbn.
  destruct (<[i:=set_fish_count (fish_count p + n) p]> (players g) !! i) as [q|];
    [|done].
  by destruct (list_remove from_pos (penguins q)).
Qed.

Lemma frame_next_turn_loop k : forall g,
  next_turn_loop k (F g) = lift F (next_turn_loop k g).
Proof.
  induction k as [|k IH]; intros g; cbn [next_turn_loop].
  - unfold _end_game, bind, modify, get. cbn. by destruct (players g).
  - unfold bind. rewrite frame_rotate.
    destruct (rotate 1 g) as [[] g1|]; [|done]. cbn [lift].
    unfold get, player_at. cbn.
    destruct (players g1 !! current_player_index g1) as [p|]; [|done].
    rewrite (existsb_can_move_ext g1 (F g1)) by done.
    destruct (existsb _ _); [done|]. apply IH.
Qed.

Lemma frame_complete_move from_pos to_pos i g :
  _complete_move from_pos to_pos i (F g) = lift F (_complete_move from_pos to_pos i g).
Proof.
  unfold _complete_move, bind. rewrite frame_move_penguin.
  destruct (_move_penguin from_pos to_pos g) as [[] g1|]; [|done]. cbn [lift].
  unfold _next_turn. apply frame_next_turn_loop.
Qed.

Lemma frame_place_penguin_at r c g :
  _place_penguin_at r c (F g) = lift F (_place_penguin_at r c g).
Proof.
  unfold _place_penguin_at, bind, get, modify, player_at. cbn.
  destruct (players g !! current_player_index g) as [p|]; [|done]. cbn.
  unfold rotate. cbn.
  destruct (<[current_player_index g:=set_penguins (penguins p ++ [(r, c)]) p]>
              (players g)); [done|].
  cbn. by destruct (decide _).
Qed.

Lemma frame_handle_penguin_placement r c g :
  _handle_penguin_placement r c (F g) = lift F (_handle_penguin_placement r c g).
Proof.
  unfold _handle_penguin_placement. cbn.
  destruct (tiles (grid g) !! (r, c)); [|done].
  destruct (penguin_positions g !! (r, c)); [done|].
  apply frame_place_penguin_at.
Qed.

Lemma frame_ai_place_penguin choice g :
  _ai_place_penguin choice (F g) = lift F (_ai_place_penguin choice g).
Proof.
  unfold _ai_place_penguin.
  change (available_tiles (F g)) with (available_tiles g).
  destruct (available_tiles g); [done|].
  destruct (take 3 _ !! _) as [[[f r] c]|]; [|done].
  apply frame_place_penguin_at.
Qed.

End Frame.

(** * A turn at the keyboard, a turn of the computer *)

Lemma animation_ends from_pos to_pos i g gm selected moves :
  _complete_move from_pos to_pos i g = Ok tt gm ->
  complete_animation (with_aux selected moves [] (Some (from_pos, to_pos, i)) g) =
  Ok tt (with_aux selected moves [] None gm).
Proof.
  intros Hrun. unfold complete_animation, bind, get. cbn.
  rewrite frame_complete_move, Hrun. done.
Qed.

Lemma clicks_start_the_animation g p from_pos to_pos :
  game_state g = PLAYING ->
  players g !! current_player_index g = Some p ->
  is_ai p = false ->
  current_animation g = None ->
  penguin_positions g !! from_pos = Some (current_player_index g) ->
  to_pos ∈ _get_valid_moves g from_pos ->
  (do on_mouse_press from_pos.1 from_pos.2 then
   on_mouse_press to_pos.1 to_pos.2)%py g =
  Ok tt (with_aux None [] (animation_queue g)
           (Some (from_pos, to_pos, current_player_index g)) g).
Proof.
  intros Hphase Hp Hai Hnone Hfrom Hto.
  pose proof (valid_move_is_free _ _ _ Hto) as [_ Hfree].
  destruct from_pos as [r c], to_pos as [r' c']. cbn [fst snd].
  unfold bind at 1. unfold on_mouse_press at 1. unfold bind, get, player_at.
  rewrite Hp, Hai, Hphase. unfold _handle_gameplay_click at 1.
  rewrite Hfrom, decide_True by done.
  unfold on_mouse_press, bind, get, player_at. cbn. rewrite Hp, Hai, Hphase.
  unfold _handle_gameplay_click. cbn. rewrite Hfree, decide_True by done.
  unfold bind, _start_animation, modify. cbn. rewrite Hfrom, Hnone. done.
Qed.

(** The frame that ends an animation when nothing else waits and the
    computer is not due. *)
Lemma update_ends_animation from_pos to_pos i g gm selected moves due choice p :
  players g !! current_player_index g = Some p ->
  is_ai p && due = false ->
  _complete_move from_pos to_pos i g = Ok tt gm ->
  on_update true due choice
    (with_aux selected moves [] (Some (from_pos, to_pos, i)) g) =
  Ok tt (with_aux selected moves [] None gm).
Proof.
  intros Hp Hdue Hmove. unfold on_update, bind, get, player_at.
  cbn [players current_player_index with_aux].
  rewrite Hp. rewrite (animation_ends _ _ _ _ _ _ _ Hmove). cbn.
  by rewrite Hdue.
Qed.

(** A frame with nothing animated in which the computer is not due. *)
Lemma update_idle choice g :
  (current_player_index g < length (players g))%nat ->
  current_animation g = None ->
  on_update true false choice g = Ok tt g.
Proof.
  intros Hcur Hnone. unfold on_update, bind, get, player_at.
  destruct (lookup_lt_is_Some_2 _ _ Hcur) as [p ->].
  unfold complete_animation, bind, get. rewrite Hnone. cbn. rewrite Hnone.
  by rewrite andb_false_r.
Qed.

(** The frame in which the computer is due and nothing is animated. *)
Lemma update_due choice g p :
  game_state g = PLAYING ->
  players g !! current_player_index g = Some p ->
  is_ai p = true ->
  current_animation g = None ->
  on_update false true choice g = _ai_make_move g.
Proof.
  intros Hphase Hp Hai Hnone. unfold on_update, bind, get, player_at.
  rewrite Hp. cbn. by rewrite Hnone, Hai, Hphase.
Qed.

Lemma next_turn_keeps_animation g :
  (current_player_index g < length (players g))%nat ->
  current_animation (final (_next_turn g)) = current_animation g.
Proof.
  intros Hcur. unfold _next_turn.
  pose proof (next_turn_loop_run g (length (players g)) _ Hcur) as Hrun.
  rewrite set_current_player_index_same in Hrun. rewrite Hrun.
  by destruct (first_movable _ _ _ _).
Qed.

Lemma next_turn_sound g :
  sound g ->
  exists g', _next_turn g = Ok tt g' /\ sound g' /\
             current_animation g' = current_animation g.
Proof.
  intros [(Hc & Hnd & Hcur) Hg].
  destruct (next_turn_frame g Hcur) as (g' & Hrun & Hgrid & Hpp & Hpl & _ & Hcur' & _).
  pose proof (next_turn_keeps_animation g Hcur) as Hkeep.
  rewrite Hrun in Hkeep. cbn in Hkeep.
  exists g'. split; [done|]. split; [|done]. split; [split_and!|].
  - intros pos i. rewrite Hpp, Hpl. apply Hc.
  - intros i p. rewrite Hpl. apply Hnd.
  - by rewrite Hpl.
  - intros pos i. rewrite Hgrid, Hpp. apply Hg.
Qed.

(** X18. A move at the keyboard is a move of the game: in a game object
    that keeps its invariant and in which every token stands on a tile,
    in the playing phase with a human to move and nothing animated, a
    click on a token of that player, a click on a cell the move
    generator offers for it, and the frame that ends the animation
    ([on_update]) do together what [_move_penguin] and [_next_turn] do
    for that move; the selection and the list of valid moves are
    cleared, nothing is raised, the game object keeps its invariant
    with every token on a tile, and it is a state of the program when
    the game object before the clicks was one. *)
Theorem human_move_is_a_move (g : FishGame) (p : Player) (from_pos to_pos : Z * Z) :
  sound g ->
  game_state g = PLAYING ->
  players g !! current_player_index g = Some p ->
  is_ai p = false ->
  current_animation g = None ->
  animation_queue g = [] ->
  penguin_positions g !! from_pos = Some (current_player_index g) ->
  to_pos ∈ _get_valid_moves g from_pos ->
  exists gm,
    _complete_move from_pos to_pos (current_player_index g) g = Ok tt gm /\
    human_move from_pos to_pos g = Ok tt (with_aux None [] [] None gm) /\
    sound (with_aux None [] [] None gm) /\
    (reachable g -> reachable (with_aux None [] [] None gm)).
Proof.
  intros Hs Hphase Hp Hai Hnone Hqueue Hfrom Hto.
  destruct (complete_move_returns g from_pos to_pos (current_player_index g)
              (proj1 Hs) Hfrom) as [gm Hmove].
  exists gm. split; [done|].
  pose proof (clicks_start_the_animation g p from_pos to_pos
                Hphase Hp Hai Hnone Hfrom Hto) as Hclicks.
  rewrite Hqueue in Hclicks.
  assert (is_ai p && false = false) as Hdue by apply andb_false_r.
  pose proof (update_ends_animation from_pos to_pos (current_player_index g) g gm
                None [] false 0%nat p Hp Hdue Hmove) as Hframe.
  unfold bind in Hclicks.
  destruct (on_mouse_press from_pos.1 from_pos.2 g) as [[] g1|] eqn:Hfirst; [|done].
  split; [|split].
  - unfold human_move, bind. by rewrite Hfirst, Hclicks.
  - apply sound_with_aux. by apply (complete_move_sound g from_pos to_pos
                                       (current_player_index g)).
  - intros Hr.
    apply (reach_update _ true false 0%nat _
             (reach_click _ _ _ _ (reach_click _ _ _ _ Hr Hfirst) Hclicks) Hframe).
Qed.

Lemma human_move_is_a_move_witness :
  sound corridor_start /\
  (5, 7) ∈ _get_valid_moves corridor_start (4, 7) /\
  exists gm, human_move (4, 7) (5, 7) corridor_start =
             Ok tt (with_aux None [] [] None gm) /\
             sound (with_aux None [] [] None gm).
Proof.
  assert ((5, 7) ∈ _get_valid_moves corridor_start (4, 7)) as Hto
    by (apply list_elem_of_In; vm_compute; tauto).
  split; [exact corridor_start_sound|]. split; [exact Hto|].
  destruct (human_move_is_a_move corridor_start
              (mkPlayer "Player 1" "red" 25 false 0 [(5, 1); (5, 3); (5, 5); (4, 7)])
              (4, 7) (5, 7) corridor_start_sound eq_refl eq_refl eq_refl
              eq_refl eq_refl eq_refl Hto) as (gm & _ & Hrun & Hs & _).
  by exists gm.
Defined.

(** X19. The turn of the computer is a move of the game: in a game
    object that keeps its invariant and in which every token stands on
    a tile, in the playing phase with the computer to move and nothing
    animated, the frame in which the computer is due ([on_update] calls
    [_ai_make_move]) and the frame that ends the animation return; when
    the search has chosen a move they do together what [_move_penguin]
    and [_next_turn] do for that move, which is legal; when the search
    has chosen none they do what [_next_turn] does. The game object
    keeps its invariant with every token on a tile, and it is a state
    of the program when the game object before was one. *)
Theorem computer_move_is_a_move (g : FishGame) (p : Player) :
  sound g ->
  game_state g = PLAYING ->
  players g !! current_player_index g = Some p ->
  is_ai p = true ->
  current_animation g = None ->
  animation_queue g = [] ->
  exists st g',
    ai_search g = Ok st g /\
    computer_move g = Ok tt g' /\
    sound g' /\
    (reachable g -> reachable g') /\
    match best_move st with
    | Some (from_pos, to_pos) =>
      penguin_positions g !! from_pos = Some (current_player_index g) /\
      to_pos ∈ _get_valid_moves g from_pos /\
      exists gm,
        _complete_move from_pos to_pos (current_player_index g) g = Ok tt gm /\
        g' = with_aux (selected_penguin g) (valid_moves g) [] None gm
    | None => _next_turn g = Ok tt g'
    end.
Proof.
  intros Hs Hphase Hp Hai Hnone Hqueue.
  destruct (ai_search_sound g Hs) as (st & Hrun & [Hlegal _] & _).
  pose proof (update_due 0%nat g p Hphase Hp Hai Hnone) as Hdue.
  exists st.
  destruct (best_move st) as [[a b]|] eqn:Hb.
  - destruct (Hlegal _ eq_refl) as [Ha Hto]. cbn in Ha, Hto.
    destruct (complete_move_returns g a b (current_player_index g)
                (proj1 Hs) Ha) as [gm Hmove].
    exists (with_aux (selected_penguin g) (valid_moves g) [] None gm).
    assert (_ai_make_move g =
            Ok tt (with_aux (selected_penguin g) (valid_moves g) []
                     (Some (a, b, current_player_index g)) g)) as Hstart.
    { unfold _ai_make_move, bind. rewrite Hrun, Hb.
      unfold _start_animation. rewrite Ha, Hnone.
      destruct g; cbn in *; by subst. }
    rewrite Hstart in Hdue.
    assert (is_ai p && false = false) as Hoff by apply andb_false_r.
    pose proof (update_ends_animation a b (current_player_index g) g gm
                  (selected_penguin g) (valid_moves g) false 0%nat p Hp Hoff Hmove)
      as Hframe.
    split; [done|]. split; [|split; [|split]].
    + unfold computer_move, bind. by rewrite Hdue.
    + apply sound_with_aux.
      by apply (complete_move_sound g a b (current_player_index g)).
    + intros Hr.
      apply (reach_update _ true false 0%nat _
               (reach_update _ false true 0%nat _ Hr Hdue) Hframe).
    + split; [done|]. split; [done|]. by exists gm.
  - destruct (next_turn_sound g Hs) as (g' & Hnext & Hs' & Hkeep).
    exists g'.
    assert (_ai_make_move g = Ok tt g') as Hpass
      by (unfold _ai_make_move, bind; by rewrite Hrun, Hb).
    rewrite Hpass in Hdue.
    pose proof Hs' as [(_ & _ & Hcur') _].
    assert (on_update true false 0 g' = Ok tt g') as Hframe
      by (apply update_idle; [done|by rewrite Hkeep]).
    split; [done|]. split; [|split; [done|split; [|done]]].
    + unfold computer_move, bind. by rewrite Hdue.
    + intros Hr.
      apply (reach_update _ true false 0%nat _
               (reach_update _ false true 0%nat _ Hr Hdue) Hframe).
Qed.

Lemma computer_move_is_a_move_witness :
  sound two_movers /\
  exists g', computer_move two_movers = Ok tt g' /\ sound g' /\ reachable g'.
Proof.
  split; [exact two_movers_sound|].
  destruct (computer_move_is_a_move two_movers
              (mkPlayer "Player 2" "yellow" 26 true 0 [(3, 6); (0, 0); (3, 3); (3, 0)])
              two_movers_sound eq_refl eq_refl eq_refl eq_refl eq_refl)
    as (st & g' & Hrun & Hmove & Hs & Hreach & _).
  exists g'. split; [exact Hmove|]. split; [exact Hs|].
  exact (Hreach two_movers_reachable).
Defined.

(** * The landing page *)

Lemma taken_spec c p sel : forall count i,
  (i + count <= length sel)%nat ->
  exists b, Landing.taken c p sel i count = Some b /\
    (b = true <->
     exists j, (i <= j < i + count)%nat /\ j <> p /\ sel !! j = Some (Some c)).
Proof.
  induction count as [|count IH]; intros i Hlen; cbn [Landing.taken].
  - exists false. split; [done|]. split; [done|]. intros (j & Hj & _). lia.
  - destruct (IH (S i)) as (b & Hb & Hspec); [lia|].
    destruct (decide (i <> p)) as [Hne|Heq].
    + destruct (lookup_lt_is_Some_2 sel i) as [chosen Hc]; [lia|]. rewrite Hc.
      destruct (decide (chosen = Some c)) as [->|Hother].
      * exists true. split; [done|]. split; [|done]. intros _. exists i.
        split; [lia|done].
      * exists b. split; [done|]. rewrite Hspec. split.
        -- intros (j & Hj & Hjp & Hsel). exists j. split; [lia|done].
        -- intros (j & Hj & Hjp & Hsel). exists j. split; [|done].
           destruct (decide (j = i)) as [->|]; [congruence|lia].
    + exists b. split; [done|]. rewrite Hspec. split.
      * intros (j & Hj & Hjp & Hsel). exists j. split; [lia|done].
      * intros (j & Hj & Hjp & Hsel). exists j. split; [|done].
        destruct (decide (j = i)) as [->|]; [|lia]. exfalso. apply Hjp.
        by destruct (decide (i = p)); [|exfalso; apply Heq].
Qed.

Lemma shown_tidy v : Landing.shown v -> tidy v.
Proof.
  induction 1 as [|v num _ _ Hnum|v p ci v' _ IH Hp Hci Hrun].
  - split; [done|]. split; [by left|]. split; intros i; intros;
      do 4 (destruct i as [|i]; try done).
  - split; [done|]. split; [done|]. split; intros i; intros;
      do 4 (destruct i as [|i]; try done).
  - destruct IH as (Hlen & Hnum & Hdistinct & Hin).
    revert Hrun. unfold Landing.on_color_select.
    destruct (Landing.player_colors !! ci) as [c|] eqn:Hc; [|done].
    destruct (taken_spec c p (Landing.selected_colors v) (Landing.num_players v) 0)
      as (b & -> & Hspec).
    { rewrite Hlen. cbn. set_unfold. lia. }
    destruct b; [by intros [= <-]|].
    assert (forall j, j <> p -> Landing.selected_colors v !! j <> Some (Some c)) as Hfree.
    { intros j Hj Hsel. assert (false = true); [|done]. apply Hspec. exists j.
      split; [|done]. destruct (Hin j c Hsel). lia. }
    rewrite decide_True by (rewrite Hlen; set_unfold; lia).
    intros [= <-]. unfold tidy. cbn [Landing.selected_colors Landing.num_players].
    split; [by rewrite length_insert|]. split; [done|].
    assert (p < length (Landing.selected_colors v))%nat as Hplen
      by (rewrite Hlen; set_unfold; lia).
    split.
    + intros i j c' Hi Hj.
      destruct (decide (i = p)) as [->|Hip], (decide (j = p)) as [->|Hjp]; [done|..].
      * rewrite list_lookup_insert_eq in Hi by done.
        rewrite list_lookup_insert_ne in Hj by done. simplify_eq. by destruct (Hfree j).
      * rewrite list_lookup_insert_eq in Hj by done.
        rewrite list_lookup_insert_ne in Hi by done. simplify_eq. by destruct (Hfree i).
      * rewrite list_lookup_insert_ne in Hi, Hj by done. by eapply Hdistinct.
    + intros i c' Hi. destruct (decide (i = p)) as [->|Hip].
      * rewrite list_lookup_insert_eq in Hi by done. simplify_eq.
        split; [done|]. by eapply list_elem_of_lookup_2.
      * rewrite list_lookup_insert_ne in Hi by done. by apply Hin.
Qed.

Lemma create_players_spec sel : forall count i,
  Landing.all_selected sel i count = Some true ->
  length (Landing.create_players sel i count) = count /\
  forall k, (k < count)%nat ->
    exists c, sel !! (i + k)%nat = Some (Some c) /\
              Landing.create_players sel i count !! k =
              Some (Landing.new_player (i + k) c).
Proof.
  induction count as [|count IH]; intros i; cbn [Landing.all_selected Landing.create_players].
  - intros _. split; [done|]. intros k Hk. lia.
  - destruct (sel !! i) as [[c|]|] eqn:Hc; [|done..].
    intros Hall. destruct (IH (S i) Hall) as [Hlen Hk]. split; [cbn; by rewrite Hlen|].
    intros [|k] Hlt.
    + exists c. by rewrite Nat.add_0_r.
    + destruct (Hk k) as (c' & Hc' & Hp); [lia|]. exists c'.
      replace (i + S k)%nat with (S i + k)%nat by lia. done.
Qed.

(** A list whose ages grow is left alone by the sort. *)
Lemma sort_by_age_sorted l :
  (forall i j p q, l !! i = Some p -> l !! j = Some q -> (i < j)%nat -> age p <= age q) ->
  Landing.sort_by_age l = l.
Proof.
  induction l as [|p l IH]; intros Hsorted; [done|].
  cbn. fold (Landing.sort_by_age l). rewrite IH.
  - destruct l as [|q l']; [done|]. cbn.
    rewrite decide_True; [done|]. apply (Hsorted 0%nat 1%nat); [done|done|lia].
  - intros i j p' q' Hi Hj Hlt. apply (Hsorted (S i) (S j)); [done|done|lia].
Qed.

(** X20. A game started from the landing page. Whatever buttons were
    clicked before, when START GAME opens the game there are two to four
    players with pairwise different colours of the page, player 0 is at
    the keyboard and all others are computers, the ages grow with the
    index, so the sort of [_setup_game] keeps the order, and the game
    object is the initial state of a game, with no token placed; the
    number of tokens per player that the page shows is the quota
    [6 - len(players)] that [_place_penguin_at] waits for. *)
Theorem game_from_the_landing_page (v : Landing.LandingPageView)
    (ps : list Player) (h : HexGrid) :
  Landing.shown v ->
  Landing.on_start_game v = Some (Some ps) ->
  length ps = Landing.num_players v /\
  (2 <= length ps <= 4)%nat /\
  NoDup (map color ps) /\
  (forall i p, ps !! i = Some p ->
     is_ai p = bool_decide (0 < i)%nat /\ age p = 25 + Z.of_nat i /\
     color p ∈ Landing.player_colors /\ fish_count p = 0 /\ penguins p = []) /\
  players (Landing._setup_game ps h) = ps /\
  initial (Landing._setup_game ps h) /\
  Landing.penguin_counts (length ps) = Some (6 - length ps)%nat.
Proof.
  intros Hshown. destruct (shown_tidy v Hshown) as (Hlen & Hnum & Hdistinct & Hin).
  assert (Landing.num_players v = 2 \/ Landing.num_players v = 3 \/
          Landing.num_players v = 4)%nat as Hnum'
    by (set_unfold in Hnum; tauto).
  unfold Landing.on_start_game.
  destruct (Landing.all_selected _ 0 _) as [[|]|] eqn:Hall; [|done..].
  intros [= <-].
  destruct (create_players_spec _ _ _ Hall) as [Hcount Hlookup].
  set (ps := Landing.create_players (Landing.selected_colors v) 0 (Landing.num_players v))
    in *.
  assert (forall i p, ps !! i = Some p ->
            exists c, Landing.selected_colors v !! i = Some (Some c) /\
                      p = Landing.new_player i c) as Hspec.
  { intros i p Hp. destruct (Hlookup i) as (c & Hc & Hp').
    - rewrite <- Hcount. by eapply lookup_lt_Some.
    - exists c. cbn in Hc, Hp'. split; [done|congruence]. }
  assert (2 <= length ps <= 4)%nat as Hsize by (rewrite Hcount; lia).
  assert (ps <> []) as Hne by (destruct ps; cbn in *; [lia|done]).
  assert (players (Landing._setup_game ps h) = ps) as Hsetup.
  { unfold Landing._setup_game. cbn [players]. destruct ps as [|p0 ps'] eqn:Hps; [done|].
    rewrite <- Hps in *. rewrite sort_by_age_sorted.
    - apply list_eq. intros i. rewrite list_lookup_fmap.
      destruct (ps !! i) as [p|] eqn:Hp; [|done].
      destruct (Hspec i p Hp) as (c & _ & ->). done.
    - intros i j p q Hp Hq Hlt.
      destruct (Hspec i p Hp) as (c & _ & ->), (Hspec j q Hq) as (c' & _ & ->).
      cbn. lia. }
  split; [done|]. split; [done|]. split; [|split; [|split; [done|split]]].
  - apply NoDup_alt. intros i j c. rewrite !list_lookup_fmap.
    destruct (ps !! i) as [p|] eqn:Hp; [|done].
    destruct (ps !! j) as [q|] eqn:Hq; [|done].
    destruct (Hspec i p Hp) as (ci & Hci & ->), (Hspec j q Hq) as (cj & Hcj & ->).
    cbn. intros [= <-] [= <-]. by eapply Hdistinct.
  - intros i p Hp. destruct (Hspec i p Hp) as (c & Hc & ->). cbn.
    split_and!; try done. by destruct (Hin i c Hc).
  - split; [by rewrite Hsetup|]. split; [|done].
    rewrite Hsetup. apply Forall_forall. intros p Hp.
    apply list_elem_of_lookup_1 in Hp as [i Hp].
    by destruct (Hspec i p Hp) as (c & _ & ->).
  - rewrite Hcount. by destruct Hnum' as [->|[->| ->]].
Qed.

Lemma game_from_the_landing_page_witness :
  exists v ps,
    Landing.shown v /\ Landing.on_start_game v = Some (Some ps) /\
    map color ps = ["red"%string; "blue"%string] /\
    initial (Landing._setup_game ps corridor_board).
Proof.
  assert (Landing.shown (Landing.mkLandingPageView 2
            [Some "red"%string; Some "blue"%string; None; None])) as Hshown.
  { apply (Landing.shown_color
             (Landing.mkLandingPageView 2 [Some "red"%string; None; None; None]) 1 2);
      [|cbn; lia|lia|reflexivity].
    apply (Landing.shown_color Landing.__init__ 0 0);
      [apply Landing.shown_init|cbn; lia|lia|reflexivity]. }
  eexists _, _. split; [exact Hshown|]. split; [reflexivity|]. split; [reflexivity|].
  apply (game_from_the_landing_page _ _ corridor_board Hshown eq_refl).
Defined.

Lemma all_selected_returns sel : forall count i,
  (i + count <= length sel)%nat -> is_Some (Landing.all_selected sel i count).
Proof.
  induction count as [|count IH]; intros i Hlen; cbn [Landing.all_selected]; [eauto|].
  destruct (lookup_lt_is_Some_2 sel i) as [[c|] ->]; [lia| |eauto].
  apply IH. lia.
Qed.

(** X21. The buttons of the landing page never raise, and a colour is
    never given twice: on every page shown, the click of player
    [player_idx] on one of the four colours is ignored when another
    player holds that colour and otherwise sets the slot of that player
    and no other; START GAME is ignored or opens the game. *)
Theorem color_select_is_exclusive (v : Landing.LandingPageView)
    (player_idx color_idx : nat) :
  Landing.shown v ->
  (player_idx < Landing.num_players v)%nat ->
  (color_idx < 4)%nat ->
  exists c,
    Landing.player_colors !! color_idx = Some c /\
    ((exists j, j <> player_idx /\ Landing.selected_colors v !! j = Some (Some c)) ->
     Landing.on_color_select player_idx color_idx v = Some v) /\
    ((forall j, j <> player_idx -> Landing.selected_colors v !! j <> Some (Some c)) ->
     Landing.on_color_select player_idx color_idx v =
     Some (Landing.mkLandingPageView (Landing.num_players v)
             (<[player_idx := Some c]> (Landing.selected_colors v)))) /\
    is_Some (Landing.on_start_game v).
Proof.
  intros Hshown Hp Hc. destruct (shown_tidy v Hshown) as (Hlen & Hnum & Hdistinct & Hin).
  assert (Landing.num_players v <= 4)%nat as Hle by (set_unfold in Hnum; lia).
  destruct (lookup_lt_is_Some_2 Landing.player_colors color_idx) as [c Hcol]; [done|].
  exists c. split; [done|]. unfold Landing.on_color_select. rewrite Hcol.
  destruct (taken_spec c player_idx (Landing.selected_colors v)
              (Landing.num_players v) 0) as (b & -> & Hspec); [rewrite Hlen; lia|].
  split; [|split].
  - intros (j & Hj & Hsel). replace b with true; [done|]. symmetry. apply Hspec.
    exists j. split; [|done]. destruct (Hin j c Hsel). lia.
  - intros Hfree. destruct b.
    + destruct (proj1 Hspec eq_refl) as (j & _ & Hj & Hsel). by destruct (Hfree j).
    + rewrite decide_True by lia. done.
  - unfold Landing.on_start_game.
    destruct (all_selected_returns (Landing.selected_colors v) (Landing.num_players v) 0)
      as [[|] ->]; [lia|eauto..].
Qed.

Lemma color_select_is_exclusive_witness :
  Landing.shown (Landing.mkLandingPageView 2 [Some "red"%string; None; None; None]) /\
  Landing.on_color_select 1 0
    (Landing.mkLandingPageView 2 [Some "red"%string; None; None; None]) =
  Some (Landing.mkLandingPageView 2 [Some "red"%string; None; None; None]).
Proof.
  assert (Landing.shown (Landing.mkLandingPageView 2
            [Some "red"%string; None; None; None])) as Hshown.
  { apply (Landing.shown_color Landing.__init__ 0 0);
      [apply Landing.shown_init|cbn; lia|lia|reflexivity]. }
  split; [exact Hshown|].
  destruct (color_select_is_exclusive _ 1 0 Hshown ltac:(cbn; lia) ltac:(lia))
    as (c & Hc & Htaken & _).
  injection Hc as <-. apply Htaken. exists 0%nat. split; [lia|reflexivity].
Defined.

(** * The board *)

Lemma generate_row_lookup draw r : forall cs (m : gmap (Z * Z) Tile) pos,
  foldl (fun tiles c =>
           match draw r c with
           | None => tiles
           | Some fish_count => <[(r, c) := Tile_ r c fish_count]> tiles
           end) m cs !! pos =
  if decide (pos.1 = r /\ pos.2 ∈ cs) then
    match draw pos.1 pos.2 with
    | Some n => Some (Tile_ pos.1 pos.2 n)
    | None => m !! pos
    end
  else m !! pos.
Proof.
  induction cs as [|c cs IH]; intros m [r' c']; cbn [foldl fst snd].
  - rewrite decide_False; [done|]. intros [_ H]. inversion H.
  - rewrite IH. cbn [fst snd].
    destruct (decide (r' = r)) as [->|Hr].
    + destruct (decide (c' = c)) as [->|Hc].
      * rewrite (decide_True (P := r = r /\ c ∈ c :: cs)) by (split; [done|by left]).
        destruct (draw r c) as [n|] eqn:Hd.
        -- case_decide; [done|]. by rewrite lookup_insert_eq.
        -- by case_decide.
      * assert (forall n, <[(r, c) := Tile_ r c n]> m !! (r, c') = m !! (r, c')) as Hins.
        { intros n. apply lookup_insert_ne. congruence. }
        destruct (decide (c' ∈ cs)) as [Hin|Hnin].
        -- rewrite !decide_True by (split; [done|set_solver]).
           destruct (draw r c') as [n|]; [done|].
           destruct (draw r c) as [n0|]; by rewrite ?Hins.
        -- rewrite !decide_False by (intros [_ ?]; set_solver).
           destruct (draw r c) as [n0|]; by rewrite ?Hins.
    + rewrite !decide_False by (by intros [? _]).
      destruct (draw r c) as [n0|]; [|done].
      apply lookup_insert_ne. congruence.
Qed.

Lemma generate_tiles_lookup draw cols : forall rs (m : gmap (Z * Z) Tile) pos,
  foldl (fun tiles r =>
           foldl (fun tiles c =>
                    match draw r c with
                    | None => tiles
                    | Some fish_count => <[(r, c) := Tile_ r c fish_count]> tiles
                    end) tiles (seqZ 0 cols)) m rs !! pos =
  if decide (pos.1 ∈ rs /\ pos.2 ∈ seqZ 0 cols) then
    match draw pos.1 pos.2 with
    | Some n => Some (Tile_ pos.1 pos.2 n)
    | None => m !! pos
    end
  else m !! pos.
Proof.
  induction rs as [|r rs IH]; intros m pos; cbn [foldl].
  - rewrite decide_False; [done|]. intros [H _]. inversion H.
  - rewrite IH, generate_row_lookup.
    destruct (decide (pos.1 = r)) as [Hr|Hr].
    + destruct (decide (pos.2 ∈ seqZ 0 cols)) as [Hc|Hc].
      * rewrite (decide_True (P := pos.1 = r /\ _)) by done.
        rewrite (decide_True (P := pos.1 ∈ r :: rs /\ _)) by (split; [set_solver|done]).
        destruct (draw pos.1 pos.2); [by case_decide|]. by case_decide.
      * rewrite !decide_False by (by intros [_ ?]). done.
    + rewrite (decide_False (P := pos.1 = r /\ _)) by (by intros [? _]).
      destruct (decide (pos.1 ∈ rs /\ pos.2 ∈ seqZ 0 cols)) as [[H1 H2]|Hn].
      * rewrite decide_True by (split; [set_solver|done]). done.
      * rewrite decide_False; [done|]. intros [H1 H2]. apply Hn. split; [|done].
        set_solver.
Qed.

(** X22. The board that [HexGrid(rows, cols)] generates: a cell has a
    tile exactly when it lies inside the [rows] by [cols] rectangle and
    the random generator did not leave it out; the tile carries its own
    coordinates and the fish count that was drawn, so with
    [random.randint(1, 3)] every tile exists, sits at the key it is
    stored under and holds one to three fish. *)
Theorem generated_board (rows cols : Z) (draw : Z -> Z -> option Z) :
  (forall pos tile,
     tiles (HexGrid_ rows cols draw) !! pos = Some tile <->
     0 <= pos.1 < rows /\ 0 <= pos.2 < cols /\
     exists n, draw pos.1 pos.2 = Some n /\ tile = Tile_ pos.1 pos.2 n) /\
  ((forall r c n, draw r c = Some n -> 1 <= n <= 3) ->
   forall pos tile,
     tiles (HexGrid_ rows cols draw) !! pos = Some tile ->
     row tile = pos.1 /\ col tile = pos.2 /\ 1 <= fish tile <= 3 /\
     exists_ tile = true).
Proof.
  assert (forall pos tile,
     tiles (HexGrid_ rows cols draw) !! pos = Some tile <->
     0 <= pos.1 < rows /\ 0 <= pos.2 < cols /\
     exists n, draw pos.1 pos.2 = Some n /\ tile = Tile_ pos.1 pos.2 n) as Hspec.
  { intros pos tile. cbn [tiles HexGrid_]. unfold _generate_tiles.
    rewrite generate_tiles_lookup, lookup_empty.
    case_decide as Hin; rewrite !elem_of_seqZ in Hin.
    - destruct (draw pos.1 pos.2) as [n|].
      + split.
        * intros [= <-]. split; [lia|]. split; [lia|]. by exists n.
        * intros (_ & _ & n' & [= <-] & ->). done.
      + split; [done|]. by intros (_ & _ & n & ? & _).
    - split; [done|]. intros (? & ? & _). lia. }
  split; [exact Hspec|].
  intros Hdraw pos tile Ht. apply Hspec in Ht as (_ & _ & n & Hn & ->).
  cbn. split_and!; try done; by eapply Hdraw.
Qed.

(** * The search on snapshots *)

Lemma shift_on_tiles_short {V} dr dc n : forall (m : gmap (Z * Z) V) p,
  (dr, dc) <> (0, 0) ->
  (forall k, (k <= n)%nat -> is_Some (m !! shift dr dc p k)) -> (n < size m)%nat.
Proof.
  induction n as [|n IH]; intros m p Hd Hon.
  - assert (is_Some (m !! p)) as Hp by (rewrite <- (shift_0 dr dc p); apply Hon; lia).
    pose proof (map_size_ne_0_lookup_2 m p Hp). lia.
  - destruct (Hon O) as [v Hv]; [lia|]. rewrite shift_0 in Hv.
    assert (n < size (delete p m))%nat as Hlt.
    { apply (IH _ (p.1 + dr, p.2 + dc)); [done|]. intros k Hk.
      rewrite <- shift_S, lookup_delete_ne; [apply Hon; lia|].
      unfold shift. destruct p as [r c]. cbn. intros [= H1 H2]. apply Hd.
      f_equal; nia. }
    rewrite map_size_delete, Hv in Hlt. lia.
Qed.

Lemma continue_line_moves h dr dc cur next :
  Draft.continue_line h dr dc cur = Some next -> (dr, dc) <> (0, 0).
Proof.
  intros H. apply continue_line_Some in H as [-> Hin].
  apply get_neighbors_steps in Hin as [_ [d Hd]]. intros [= -> ->].
  replace (cur.1 + 0, cur.2 + 0) with cur in Hd by (destruct cur; cbn; f_equal; lia).
  replace (cur.1, cur.2) with cur in Hd by (by destruct cur).
  exact (line_leaves d cur 0 (eq_sym Hd)).
Qed.

Lemma snapshot_follow_S state grid dr dc fuel cur :
  MinimaxAI.follow state grid dr dc (S fuel) cur =
  (if decide (is_Some (MinimaxAI.tiles state !! cur)) then [cur] else []) ++
  match Draft.continue_line grid dr dc cur with
  | None => []
  | Some next_pos =>
    if decide (is_Some (MinimaxAI.tiles state !! next_pos) /\
               MinimaxAI.od_get next_pos (MinimaxAI.penguin_positions state) = None)
    then MinimaxAI.follow state grid dr dc fuel next_pos
    else []
  end.
Proof. done. Qed.

(** A turn of the loop that the fuel cuts off would need [fuel] tiles of
    the snapshot in a row after the first cell. *)
Lemma snapshot_follow_cut state grid dr dc : forall fuel cur,
  MinimaxAI.follow state grid dr dc (S fuel) cur <>
  MinimaxAI.follow state grid dr dc fuel cur ->
  (0 < fuel)%nat ->
  (dr, dc) <> (0, 0) /\
  forall k, (1 <= k <= fuel)%nat ->
    is_Some (MinimaxAI.tiles state !! shift dr dc cur k).
Proof.
  induction fuel as [|fuel IH]; intros cur Hcut Hpos; [lia|].
  rewrite (snapshot_follow_S _ _ _ _ (S fuel) cur),
          (snapshot_follow_S _ _ _ _ fuel cur) in Hcut.
  destruct (Draft.continue_line grid dr dc cur) as [next|] eqn:Hnext; [|done].
  pose proof (continue_line_moves _ _ _ _ _ Hnext) as Hd.
  apply continue_line_Some in Hnext as [-> _].
  destruct (decide (is_Some (MinimaxAI.tiles state !! (cur.1 + dr, cur.2 + dc)) /\ _))
    as [[Ht _]|]; [|done].
  split; [done|]. intros k Hk.
  destruct (decide (k = 1%nat)) as [->|Hne]; [by rewrite shift_S, shift_0|].
  destruct fuel as [|fuel]; [lia|].
  destruct (IH (cur.1 + dr, cur.2 + dc)) as [_ Hall]; [|lia|].
  { intros Heq. apply Hcut. by rewrite Heq. }
  destruct k as [|k]; [lia|]. rewrite shift_S. apply Hall. lia.
Qed.

Lemma snapshot_follow_fuel state grid dr dc cur fuel :
  (size (MinimaxAI.tiles state) < fuel)%nat ->
  MinimaxAI.follow state grid dr dc fuel cur =
  MinimaxAI.follow state grid dr dc (S (size (MinimaxAI.tiles state))) cur.
Proof.
  intros Hfuel.
  assert (forall extra,
            MinimaxAI.follow state grid dr dc
              (S (size (MinimaxAI.tiles state)) + extra) cur =
            MinimaxAI.follow state grid dr dc (S (size (MinimaxAI.tiles state))) cur)
    as H.
  { induction extra as [|extra IH]; [by rewrite Nat.add_0_r|].
    rewrite <- IH, Nat.add_succ_r.
    match goal with |- ?a = ?b => destruct (decide (a = b)) as [|Hne]; [done|] end.
    destruct (snapshot_follow_cut _ _ _ _ _ _ Hne) as [Hd Hall]; [lia|].
    assert (size (MinimaxAI.tiles state) + extra < size (MinimaxAI.tiles state))%nat;
      [|lia].
    apply (shift_on_tiles_short dr dc _ _ (cur.1 + dr, cur.2 + dc) Hd).
    intros k Hk. rewrite <- shift_S. apply Hall. lia. }
  replace fuel with (S (size (MinimaxAI.tiles state)) +
                     (fuel - S (size (MinimaxAI.tiles state))))%nat by lia.
  apply H.
Qed.

Lemma snapshot_follow_elem state grid dr dc : forall fuel cur c,
  c ∈ MinimaxAI.follow state grid dr dc fuel cur ->
  MinimaxAI.od_get cur (MinimaxAI.penguin_positions state) = None ->
  is_Some (MinimaxAI.tiles state !! c) /\
  MinimaxAI.od_get c (MinimaxAI.penguin_positions state) = None /\
  exists k, c = shift dr dc cur k /\ (k = 0%nat \/ (dr, dc) <> (0, 0)).
Proof.
  induction fuel as [|fuel IH]; intros cur c Hin Hfree; [inversion Hin|].
  rewrite snapshot_follow_S in Hin. apply elem_of_app in Hin as [Hin|Hin].
  - destruct (decide (is_Some (MinimaxAI.tiles state !! cur))); [|inversion Hin].
    apply list_elem_of_singleton in Hin as ->. split; [done|]. split; [done|].
    exists 0%nat. rewrite shift_0. split; [done|by left].
  - destruct (Draft.continue_line grid dr dc cur) as [next|] eqn:Hnext; [|inversion Hin].
    pose proof (continue_line_moves _ _ _ _ _ Hnext) as Hd.
    apply continue_line_Some in Hnext as [-> _].
    destruct (decide _) as [[_ Hp]|]; [|inversion Hin].
    destruct (IH _ _ Hin Hp) as (Ht & Hc & k & -> & _).
    split; [done|]. split; [done|]. exists (S k). rewrite shift_S. split; [done|by right].
Qed.

Lemma snapshot_generator_free state grid start c :
  c ∈ MinimaxAI._get_valid_moves state grid start ->
  is_Some (MinimaxAI.tiles state !! c) /\
  MinimaxAI.od_get c (MinimaxAI.penguin_positions state) = None /\
  c <> start.
Proof.
  intros Hin. unfold MinimaxAI._get_valid_moves in Hin.
  apply list_elem_of_In, in_flat_map in Hin as (nb & Hnb & Hin).
  apply list_elem_of_In in Hnb, Hin.
  destruct (decide _) as [[Hp Ht]|]; [|inversion Hin].
  destruct (snapshot_follow_elem _ _ _ _ _ _ _ Hin Hp) as (Htc & Hpc & k & -> & _).
  split; [done|]. split; [done|].
  apply get_neighbors_steps in Hnb as [_ [d Hd]].
  replace (start.1, start.2) with start in Hd by (by destruct start).
  assert (nb <> start) as Hne by (rewrite Hd; apply (line_leaves d start 0)).
  unfold shift. destruct nb as [r c], start as [r0 c0]. cbn [fst snd].
  intros [= H1 H2]. apply Hne. f_equal; nia.
Qed.

Lemma snapshot_generator_draft state g start :
  snapshot_of g state ->
  MinimaxAI._get_valid_moves state (grid g) start = Draft._get_valid_moves g start.
Proof.
  intros [Htiles Hpos]. unfold MinimaxAI._get_valid_moves, Draft._get_valid_moves.
  rewrite Htiles.
  assert (forall dr dc fuel cur,
            MinimaxAI.follow state (grid g) dr dc fuel cur =
            Draft.follow g dr dc fuel cur) as Hfollow.
  { intros dr dc. induction fuel as [|fuel IH]; intros cur; [done|].
    rewrite snapshot_follow_S. cbn [Draft.follow]. rewrite Htiles. f_equal.
    destruct (Draft.continue_line (grid g) dr dc cur) as [next|] eqn:Hnext; [|done].
    apply continue_line_Some in Hnext as [_ Hnb].
    apply get_neighbors_steps in Hnb as [Ht _].
    rewrite Hpos. destruct (penguin_positions g !! next) as [i|] eqn:Hi.
    - rewrite decide_False by (by intros [_ ?]).
      by rewrite decide_True by eauto.
    - rewrite decide_True by done.
      rewrite decide_False by (by intros [? ?]). apply IH. }
  assert (Forall (fun nb => is_Some (tiles (grid g) !! nb))
                 (Draft.get_neighbors (grid g) start.1 start.2)) as Hall.
  { apply Forall_forall. intros nb Hnb.
    by apply get_neighbors_steps in Hnb as [Ht _]. }
  induction Hall as [|nb l Hnb Hall IH]; [done|]. cbn [flat_map].
  rewrite IH. f_equal. rewrite Hpos, Hfollow.
  destruct (penguin_positions g !! nb) as [i|] eqn:Hi.
  - rewrite decide_False by (by intros [? _]). by rewrite decide_True by eauto.
  - rewrite decide_True by done. by rewrite decide_False by (by intros [? ?]).
Qed.

(** X23. The move generator of the search on snapshots: its loop ends
    within one turn more than the snapshot has tiles (more fuel changes
    nothing); every cell it returns has a tile in the snapshot, holds no
    token there and is not the start; and on a snapshot that copies the
    board and the tokens of the game it returns what the generator of
    the first draft returns, in the same order. *)
Theorem snapshot_moves (state : MinimaxAI.GameStateSnapshot) (g : FishGame)
    (start : Z * Z) :
  (forall dr dc cur fuel,
     (size (MinimaxAI.tiles state) < fuel)%nat ->
     MinimaxAI.follow state (grid g) dr dc fuel cur =
     MinimaxAI.follow state (grid g) dr dc (S (size (MinimaxAI.tiles state))) cur) /\
  (forall c, c ∈ MinimaxAI._get_valid_moves state (grid g) start ->
     is_Some (MinimaxAI.tiles state !! c) /\
     MinimaxAI.od_get c (MinimaxAI.penguin_positions state) = None /\
     c <> start) /\
  (snapshot_of g state ->
   MinimaxAI._get_valid_moves state (grid g) start = Draft._get_valid_moves g start).
Proof.
  split; [intros; by apply snapshot_follow_fuel|]. split.
  - intros c. apply snapshot_generator_free.
  - apply snapshot_generator_draft.
Qed.

(** ** The search on snapshots returns a move *)

Lemma od_get_elem k v : forall d,
  MinimaxAI.od_get k d = Some v -> (k, v) ∈ d.
Proof.
  induction d as [|[k' v'] d IH]; cbn; [done|].
  destruct (decide (k' = k)) as [->|]; [intros [= ->]; left|intros; right; auto].
Qed.

Lemma od_get_is_Some k v : forall d,
  (k, v) ∈ d -> is_Some (MinimaxAI.od_get k d).
Proof.
  induction d as [|[k' v'] d IH]; intros Hin; [inversion Hin|]. cbn.
  destruct (decide (k' = k)); [eauto|].
  apply elem_of_cons in Hin as [[= -> ->]|Hin]; [done|auto].
Qed.

Lemma od_set_elem k v x : forall d,
  x ∈ MinimaxAI.od_set k v d -> x = (k, v) \/ x ∈ d.
Proof.
  induction d as [|[k' v'] d IH]; cbn; intros Hin.
  - apply list_elem_of_singleton in Hin. by left.
  - destruct (decide (k' = k)); apply elem_of_cons in Hin as [->|Hin].
    + by left.
    + right. by right.
    + right. by left.
    + destruct (IH Hin); [by left|right; by right].
Qed.

Lemma py_index_Done (l : list Z) (i : Z) :
  - Z.of_nat (length l) <= i < Z.of_nat (length l) <->
  exists x, MinimaxAI.py_index l i = MinimaxAI.Done x.
Proof.
  unfold MinimaxAI.py_index.
  destruct (decide (i < 0)); (destruct (decide (0 <= _)); [|split; [lia|by intros [? ?]]]).
  - destruct (l !! Z.to_nat (Z.of_nat (length l) + i)) as [x|] eqn:Hx.
    + apply lookup_lt_Some in Hx. split; [eauto|lia].
    + apply lookup_ge_None in Hx. split; [lia|by intros [? ?]].
  - destruct (l !! Z.to_nat i) as [x|] eqn:Hx.
    + apply lookup_lt_Some in Hx. split; [eauto|lia].
    + apply lookup_ge_None in Hx. split; [lia|by intros [? ?]].
Qed.

Lemma evaluate_state_Done ai state :
  snapshot_ok ai state -> exists q, MinimaxAI._evaluate_state state ai = MinimaxAI.Done q.
Proof.
  intros (H2 & Hai & _). unfold MinimaxAI._evaluate_state.
  destruct (proj1 (py_index_Done (MinimaxAI.player_scores state) (Z.of_nat ai)))
    as [own ->]; [lia|].
  destruct (proj1 (py_index_Done (MinimaxAI.player_scores state) (1 - Z.of_nat ai)))
    as [other ->]; [lia|].
  eauto.
Qed.

Lemma apply_move_Done ai state move :
  snapshot_ok ai state ->
  is_Some (MinimaxAI.od_get (MinimaxAI.from_pos move)
             (MinimaxAI.penguin_positions state)) ->
  exists new_state,
    MinimaxAI._apply_move state move = MinimaxAI.Done new_state /\
    snapshot_ok ai new_state.
Proof.
  intros (H2 & Hai & Hown) [player_index Hpi]. unfold MinimaxAI._apply_move.
  rewrite Hpi. pose proof (Hown _ _ (od_get_elem _ _ _ Hpi)) as Hlt.
  destruct (lookup_lt_is_Some_2 _ _ Hlt) as [old ->].
  eexists. split; [done|]. unfold snapshot_ok. cbn. rewrite length_insert.
  split; [done|]. split; [done|]. intros pos p Hin.
  apply od_set_elem in Hin as [[= -> ->]|Hin]; [done|].
  apply list_elem_of_filter in Hin as [_ Hin]. eauto.
Qed.

Lemma all_moves_elem state grid p move :
  move ∈ MinimaxAI._get_all_moves state grid p <->
  (MinimaxAI.from_pos move, p) ∈ MinimaxAI.penguin_positions state /\
  MinimaxAI.to_pos move ∈
    MinimaxAI._get_valid_moves state grid (MinimaxAI.from_pos move) /\
  MinimaxAI.fish_gained move =
    match MinimaxAI.tiles state !! MinimaxAI.from_pos move with
    | Some tile => fish tile
    | None => 0
    end.
Proof.
  unfold MinimaxAI._get_all_moves. rewrite list_elem_of_In, in_flat_map. split.
  - intros (penguin_pos & Hp & Hm). apply list_elem_of_In in Hp, Hm.
    apply list_elem_of_fmap in Hm as (move_pos & -> & Hm). cbn.
    apply list_elem_of_fmap in Hp as ([pos pi] & -> & Hp).
    apply list_elem_of_filter in Hp as [<- Hp]. done.
  - intros (Hp & Hm & Hf). exists (MinimaxAI.from_pos move). split.
    + apply list_elem_of_In, list_elem_of_fmap. exists (MinimaxAI.from_pos move, p).
      split; [done|]. by apply list_elem_of_filter.
    + apply list_elem_of_In, list_elem_of_fmap. exists (MinimaxAI.to_pos move).
      split; [|done]. destruct move. cbn in *. by rewrite Hf.
Qed.

Lemma all_moves_applicable state grid p :
  Forall (fun move => is_Some (MinimaxAI.od_get (MinimaxAI.from_pos move)
                                 (MinimaxAI.penguin_positions state)))
         (MinimaxAI._get_all_moves state grid p).
Proof.
  apply Forall_forall. intros move Hm. apply all_moves_elem in Hm as (Hp & _).
  by eapply od_get_is_Some.
Qed.

Lemma finite_table_insert t k q :
  finite_table t -> finite_table (<[k := fin q]> t).
Proof.
  intros Ht k' v [[_ <-]|[_ Hv]]%lookup_insert_Some; [eauto|by eapply Ht].
Qed.

Lemma score_max_fin a q :
  score_max a (fin q) <> neg_inf /\
  (a <> pos_inf -> score_max a (fin q) <> pos_inf).
Proof. unfold score_max. destruct a; cbn; repeat case_match; by split. Qed.

Lemma score_min_fin a q :
  score_min a (fin q) <> pos_inf /\
  (a <> neg_inf -> score_min a (fin q) <> neg_inf).
Proof. unfold score_min. destruct a; cbn; repeat case_match; by split. Qed.

Lemma score_is_fin v : v <> neg_inf -> v <> pos_inf -> exists q, v = fin q.
Proof. destruct v; [done|eauto|done]. Qed.

Lemma max_loop_Val ai rec state :
  (forall s a b t, snapshot_ok ai s -> finite_table t ->
     exists q t', rec s a b t = MinimaxAI.Val (fin q) t' /\ finite_table t') ->
  snapshot_ok ai state ->
  forall moves max_eval alpha beta t,
    Forall (fun move => is_Some (MinimaxAI.od_get (MinimaxAI.from_pos move)
                                   (MinimaxAI.penguin_positions state))) moves ->
    finite_table t -> max_eval <> pos_inf ->
    exists v t',
      MinimaxAI.max_loop rec state moves max_eval alpha beta t = MinimaxAI.Val v t' /\
      finite_table t' /\ v <> pos_inf /\
      (max_eval <> neg_inf \/ moves <> [] -> v <> neg_inf).
Proof.
  intros Hrec Hok. induction moves as [|move moves IH];
    intros max_eval alpha beta t Hall Ht Hmax; cbn [MinimaxAI.max_loop].
  { exists max_eval, t. split_and!; try done. by intros [?|?]. }
  apply Forall_cons in Hall as [Hmove Hall].
  destruct (apply_move_Done _ _ _ Hok Hmove) as (new_state & -> & Hnew).
  destruct (Hrec new_state alpha beta t Hnew Ht) as (q & t' & -> & Ht').
  destruct (score_max_fin max_eval q) as [Hn Hp]. specialize (Hp Hmax).
  destruct (score_le beta (score_max alpha (fin q))).
  - exists (score_max max_eval (fin q)), t'. by split_and!.
  - destruct (IH (score_max max_eval (fin q)) (score_max alpha (fin q)) beta t'
                Hall Ht' Hp) as (v & t'' & -> & Ht'' & Hv & Hv').
    exists v, t''. split_and!; try done. intros _. apply Hv'. by left.
Qed.

Lemma min_loop_Val ai rec state :
  (forall s a b t, snapshot_ok ai s -> finite_table t ->
     exists q t', rec s a b t = MinimaxAI.Val (fin q) t' /\ finite_table t') ->
  snapshot_ok ai state ->
  forall moves min_eval alpha beta t,
    Forall (fun move => is_Some (MinimaxAI.od_get (MinimaxAI.from_pos move)
                                   (MinimaxAI.penguin_positions state))) moves ->
    finite_table t -> min_eval <> neg_inf ->
    exists v t',
      MinimaxAI.min_loop rec state moves min_eval alpha beta t = MinimaxAI.Val v t' /\
      finite_table t' /\ v <> neg_inf /\
      (min_eval <> pos_inf \/ moves <> [] -> v <> pos_inf).
Proof.
  intros Hrec Hok. induction moves as [|move moves IH];
    intros min_eval alpha beta t Hall Ht Hmin; cbn [MinimaxAI.min_loop].
  { exists min_eval, t. split_and!; try done. by intros [?|?]. }
  apply Forall_cons in Hall as [Hmove Hall].
  destruct (apply_move_Done _ _ _ Hok Hmove) as (new_state & -> & Hnew).
  destruct (Hrec new_state alpha beta t Hnew Ht) as (q & t' & -> & Ht').
  destruct (score_min_fin min_eval q) as [Hp Hn]. specialize (Hn Hmin).
  destruct (score_le (score_min beta (fin q)) alpha).
  - exists (score_min min_eval (fin q)), t'. by split_and!.
  - destruct (IH (score_min min_eval (fin q)) alpha (score_min beta (fin q)) t'
                Hall Ht' Hn) as (v & t'' & -> & Ht'' & Hv & Hv').
    exists v, t''. split_and!; try done. intros _. apply Hv'. by left.
Qed.

Lemma snapshot_minimax_Val grid ai : forall depth state alpha beta is_maximizing t,
  snapshot_ok ai state -> finite_table t ->
  exists q t',
    MinimaxAI._minimax grid ai depth state alpha beta is_maximizing t =
      MinimaxAI.Val (fin q) t' /\
    finite_table t'.
Proof.
  induction depth as [|depth IH]; intros state alpha beta is_maximizing t Hok Ht;
    cbn [MinimaxAI._minimax].
  { destruct (evaluate_state_Done _ _ Hok) as [q ->]. eauto. }
  destruct (t !! MinimaxAI._get_state_key state) as [v|] eqn:Hv.
  { destruct (Ht _ _ Hv) as [q ->]. eauto. }
  pose proof (all_moves_applicable state grid (MinimaxAI.current_player state)) as Hall.
  destruct (MinimaxAI._get_all_moves state grid (MinimaxAI.current_player state))
    as [|move moves] eqn:Hmoves.
  { destruct (evaluate_state_Done _ _ Hok) as [q ->].
    eexists _, _. split; [done|]. by apply finite_table_insert. }
  destruct is_maximizing.
  - destruct (max_loop_Val ai
                (fun s a b => MinimaxAI._minimax grid ai depth s a b false) state
                (fun s a b t => IH s a b false t) Hok (move :: moves)
                neg_inf alpha beta t Hall Ht) as (v & t' & -> & Ht' & Hp & Hn); [done|].
    destruct (score_is_fin v) as [q ->]; [by apply Hn; right|done|].
    eexists _, _. split; [done|]. by apply finite_table_insert.
  - destruct (min_loop_Val ai
                (fun s a b => MinimaxAI._minimax grid ai depth s a b true) state
                (fun s a b t => IH s a b true t) Hok (move :: moves)
                pos_inf alpha beta t Hall Ht) as (v & t' & -> & Ht' & Hn & Hp); [done|].
    destruct (score_is_fin v) as [q ->]; [done|by apply Hp; right|].
    eexists _, _. split; [done|]. by apply finite_table_insert.
Qed.

Lemma best_loop_Val grid player_index depth state :
  snapshot_ok player_index state ->
  forall moves best_move best_score t,
    Forall (fun move => is_Some (MinimaxAI.od_get (MinimaxAI.from_pos move)
                                   (MinimaxAI.penguin_positions state))) moves ->
    finite_table t ->
    (best_move = None -> best_score = neg_inf) ->
    exists best t',
      MinimaxAI.best_loop grid player_index depth state moves best_move best_score t =
        MinimaxAI.Val best t' /\
      finite_table t' /\
      match best with
      | Some move => move ∈ moves \/ best_move = Some move
      | None => moves = [] /\ best_move = None
      end.
Proof.
  intros Hok. induction moves as [|move moves IH];
    intros best_move best_score t Hall Ht Hbest; cbn [MinimaxAI.best_loop].
  { exists best_move, t. split_and!; try done. destruct best_move; [by right|done]. }
  apply Forall_cons in Hall as [Hmove Hall].
  destruct (apply_move_Done _ _ _ Hok Hmove) as (new_state & -> & Hnew).
  destruct (snapshot_minimax_Val grid player_index depth new_state neg_inf pos_inf
              false t Hnew Ht) as (q & t' & -> & Ht').
  destruct (score_lt best_score (fin q)) eqn:Hlt.
  - destruct (IH (Some move) (fin q) t' Hall Ht') as (best & t'' & -> & Ht'' & Hb);
      [done|].
    exists best, t''. split_and!; try done. destruct best as [m|].
    + destruct Hb as [Hb|[= <-]]; left; [by right|by left].
    + by destruct Hb.
  - destruct best_move as [b|]; [|by rewrite Hbest in Hlt].
    destruct (IH (Some b) best_score t' Hall Ht') as (best & t'' & -> & Ht'' & Hb);
      [done|].
    exists best, t''. split_and!; try done. destruct best as [m|].
    + destruct Hb as [Hb|Hb]; [left; by right|by right].
    + by destruct Hb.
Qed.

Lemma get_best_move_Val depth state grid player_index :
  snapshot_ok player_index state ->
  exists best t,
    MinimaxAI.get_best_move depth state grid player_index = MinimaxAI.Val best t /\
    match best with
    | Some move => move ∈ MinimaxAI._get_all_moves state grid player_index
    | None => MinimaxAI._get_all_moves state grid player_index = []
    end.
Proof.
  intros Hok. unfold MinimaxAI.get_best_move.
  pose proof (all_moves_applicable state grid player_index) as Hall.
  destruct (MinimaxAI._get_all_moves state grid player_index) as [|move moves].
  { by exists None, ∅. }
  destruct (best_loop_Val grid player_index depth state Hok (move :: moves)
              None neg_inf ∅ Hall) as (best & t & -> & _ & Hb); [done..|].
  exists best, t. split; [done|]. destruct best as [m|].
  - by destruct Hb.
  - by destruct Hb.
Qed.

(** X24. [get_best_move] on a snapshot with scores for two players or
    more, among them the player to move and the owner of every token:
    the search raises nothing, whatever the depth; it returns [None]
    exactly when no token of the player has a move; and the move it
    returns is a move of a token of the player, to a tile of the
    snapshot without a token, with the fish of the tile it leaves. *)
Theorem get_best_move_finds_a_move (depth : nat)
    (state : MinimaxAI.GameStateSnapshot) (grid : HexGrid) (player_index : nat) :
  snapshot_ok player_index state ->
  exists best t,
    MinimaxAI.get_best_move depth state grid player_index = MinimaxAI.Val best t /\
    (best = None <->
     forall pos, (pos, player_index) ∈ MinimaxAI.penguin_positions state ->
       MinimaxAI._get_valid_moves state grid pos = []) /\
    forall move, best = Some move ->
      (MinimaxAI.from_pos move, player_index) ∈ MinimaxAI.penguin_positions state /\
      MinimaxAI.to_pos move ∈
        MinimaxAI._get_valid_moves state grid (MinimaxAI.from_pos move) /\
      is_Some (MinimaxAI.tiles state !! MinimaxAI.to_pos move) /\
      MinimaxAI.od_get (MinimaxAI.to_pos move) (MinimaxAI.penguin_positions state) = None /\
      MinimaxAI.to_pos move <> MinimaxAI.from_pos move /\
      MinimaxAI.fish_gained move =
        match MinimaxAI.tiles state !! MinimaxAI.from_pos move with
        | Some tile => fish tile
        | None => 0
        end.
Proof.
  intros Hok.
  destruct (get_best_move_Val depth state grid player_index Hok) as (best & t & Hrun & Hb).
  exists best, t. split; [done|]. split.
  - destruct best as [move|].
    + split; [done|]. intros Hnone. apply all_moves_elem in Hb as (Hp & Hm & _).
      rewrite (Hnone _ Hp) in Hm. inversion Hm.
    + split; [|done]. intros _ pos Hp.
      destruct (MinimaxAI._get_valid_moves state grid pos) as [|c l] eqn:Hl; [done|].
      assert (MinimaxAI.mkMove pos c
                match MinimaxAI.tiles state !! pos with
                | Some tile => fish tile
                | None => 0
                end ∈ MinimaxAI._get_all_moves state grid player_index) as Hin.
      { apply all_moves_elem. cbn. rewrite Hl. split_and!; [done|by left|done]. }
      rewrite Hb in Hin. inversion Hin.
  - intros move ->. apply all_moves_elem in Hb as (Hp & Hm & Hf).
    destruct (snapshot_generator_free _ _ _ _ Hm) as (Ht & Hfree & Hne). done.
Qed.

Lemma corridor_snapshot_ok : snapshot_ok 1 corridor_snapshot.
Proof.
  unfold snapshot_ok, corridor_snapshot. cbn. split; [lia|]. split; [lia|].
  intros pos player_index Hin. set_unfold in Hin.
  decompose [or] Hin; simplify_eq; lia.
Qed.

Lemma get_best_move_finds_a_move_witness :
  exists best t,
    MinimaxAI.get_best_move 3 corridor_snapshot corridor_board 1 =
      MinimaxAI.Val best t /\
    (best = None <->
     forall pos, (pos, 1%nat) ∈ MinimaxAI.penguin_positions corridor_snapshot ->
       MinimaxAI._get_valid_moves corridor_snapshot corridor_board pos = []) /\
    forall move, best = Some move ->
      (MinimaxAI.from_pos move, 1%nat) ∈ MinimaxAI.penguin_positions corridor_snapshot /\
      MinimaxAI.to_pos move ∈
        MinimaxAI._get_valid_moves corridor_snapshot corridor_board
          (MinimaxAI.from_pos move) /\
      is_Some (MinimaxAI.tiles corridor_snapshot !! MinimaxAI.to_pos move) /\
      MinimaxAI.od_get (MinimaxAI.to_pos move)
        (MinimaxAI.penguin_positions corridor_snapshot) = None /\
      MinimaxAI.to_pos move <> MinimaxAI.from_pos move /\
      MinimaxAI.fish_gained move =
        match MinimaxAI.tiles corridor_snapshot !! MinimaxAI.from_pos move with
        | Some tile => fish tile
        | None => 0
        end.
Proof.
  apply (get_best_move_finds_a_move 3 corridor_snapshot corridor_board 1).
  exact corridor_snapshot_ok.
Defined.

(** * The game of [fish1.py] *)

Lemma fish1_walk_elem g dr dc : forall fuel cur c,
  c ∈ Fish1.walk g dr dc fuel cur <->
  exists k, (k < fuel)%nat /\ c = shift dr dc cur k /\
            forall j, (j <= k)%nat -> free g (shift dr dc cur j).
Proof.
  induction fuel as [|fuel IH]; intros cur c; cbn [Fish1.walk].
  { split; [intros H; inversion H|intros (k & ? & _); lia]. }
  destruct (decide (is_Some (tiles (grid g) !! cur) /\
                    penguin_positions g !! cur = None)) as [Hfree|Hn].
  - rewrite elem_of_cons. split.
    + intros [->|Hin].
      * exists 0%nat. split; [lia|]. rewrite shift_0. split; [done|].
        intros j Hj. replace j with 0%nat by lia. by rewrite shift_0.
      * destruct (decide (_ \/ _)) as [|Hnext]; [inversion Hin|].
        apply IH in Hin as (k & Hk & -> & Hall). exists (S k). split; [lia|].
        rewrite shift_S. split; [done|].
        intros [|j] Hj; [by rewrite shift_0|]. rewrite shift_S. apply Hall. lia.
    + intros (k & Hk & -> & Hall). destruct k as [|k]; [left; by rewrite shift_0|].
      right. pose proof (Hall 1%nat ltac:(lia)) as [Ht Hp].
      rewrite shift_S, shift_0 in Ht, Hp.
      rewrite decide_False.
      2:{ intros [H|H]; [rewrite H in Ht; by destruct Ht|
                         rewrite Hp in H; by destruct H]. }
      apply IH. exists k. split; [lia|]. rewrite shift_S. split; [done|].
      intros j Hj. rewrite <- shift_S. apply Hall. lia.
  - split; [intros H; inversion H|]. intros (k & _ & _ & Hall). destruct Hn.
    rewrite <- (shift_0 dr dc cur). apply (Hall 0%nat). lia.
Qed.

Lemma shift_from_neighbor (start nb : Z * Z) k :
  shift (nb.1 - start.1) (nb.2 - start.2) nb k =
  shift (nb.1 - start.1) (nb.2 - start.2) start (S k).
Proof. unfold shift. destruct start, nb. cbn [fst snd]. f_equal; lia. Qed.

Lemma fish1_get_valid_moves_spec g start c :
  c ∈ Fish1._get_valid_moves g start <->
  exists d n, (1 <= n)%nat /\
    c = shift ((step d start).1 - start.1) ((step d start).2 - start.2) start n /\
    forall j, (1 <= j <= n)%nat ->
      free g (shift ((step d start).1 - start.1) ((step d start).2 - start.2) start j).
Proof.
  unfold Fish1._get_valid_moves. rewrite list_elem_of_In, in_flat_map. split.
  - intros (nb & Hnb & Hin). apply list_elem_of_In in Hnb, Hin.
    apply get_neighbors_steps in Hnb as [Ht [d Hd]].
    replace (start.1, start.2) with start in Hd by (by destruct start). subst nb.
    destruct (decide (_ \/ _)); [inversion Hin|].
    apply fish1_walk_elem in Hin as (k & _ & -> & Hall).
    exists d, (S k). split; [lia|]. split; [apply shift_from_neighbor|].
    intros [|j] Hj; [lia|]. rewrite <- shift_from_neighbor. apply Hall. lia.
  - intros (d & n & Hn & -> & Hall). destruct n as [|k]; [lia|].
    exists (step d start).
    assert (free g (step d start)) as [Ht Hp].
    { pose proof (Hall 1%nat ltac:(lia)) as H1.
      by rewrite <- shift_from_neighbor, shift_0 in H1. }
    split.
    { apply list_elem_of_In, get_neighbors_steps. split; [done|]. exists d.
      by destruct start. }
    apply list_elem_of_In. rewrite decide_False.
    2:{ intros [H|H]; [rewrite Hp in H; by destruct H|
                       rewrite H in Ht; by destruct Ht]. }
    apply fish1_walk_elem. exists k.
    assert (forall j, (j <= k)%nat ->
              free g (shift ((step d start).1 - start.1) ((step d start).2 - start.2)
                        (step d start) j)) as Hall'.
    { intros j Hj. rewrite shift_from_neighbor. apply Hall. lia. }
    split; [|split; [by rewrite shift_from_neighbor|done]].
    assert (k < size (tiles (grid g)))%nat; [|lia].
    apply (shift_on_tiles_short ((step d start).1 - start.1)
             ((step d start).2 - start.2) k _ (step d start)).
    + intros [= H1 H2]. apply (line_leaves d start 0).
      change (line d start 1) with (step d start).
      destruct (step d start), start. cbn in *. f_equal; lia.
    + intros j Hj. by apply Hall'.
Qed.

Lemma draft_moves_in_fish1 g start c :
  c ∈ Draft._get_valid_moves g start -> c ∈ Fish1._get_valid_moves g start.
Proof.
  intros Hin. apply draft_get_valid_moves_spec in Hin as (d & n & Hn & -> & Hall & Hs).
  apply fish1_get_valid_moves_spec. exists d, (Z.to_nat n). split; [lia|].
  assert (forall j, (1 <= j <= Z.to_nat n)%nat ->
            shift ((step d start).1 - start.1) ((step d start).2 - start.2) start j =
            slide d start (Z.of_nat j)) as Heq.
  { intros [|j] Hj; [lia|]. rewrite <- shift_from_neighbor. destruct Hs as [Hs| ->].
    - by apply straight_walk.
    - replace j with 0%nat by lia. by rewrite shift_0, slide_1. }
  split.
  - rewrite Heq by lia. f_equal. lia.
  - intros j Hj. rewrite Heq by done. apply Hall. lia.
Qed.

Lemma fish1_can_move g pos : Fish1.can_move g pos = can_move g pos.
Proof.
  rewrite <- draft_can_move. unfold Fish1.can_move, Greedy.can_move.
  destruct (Fish1._get_valid_moves g pos) as [|x l] eqn:Hf;
    destruct (Draft._get_valid_moves g pos) as [|y l'] eqn:Hd; try done.
  - assert (y ∈ Draft._get_valid_moves g pos) as Hy by (rewrite Hd; by left).
    apply draft_moves_in_fish1 in Hy. rewrite Hf in Hy. inversion Hy.
  - assert (x ∈ Fish1._get_valid_moves g pos) as Hx by (rewrite Hf; by left).
    apply fish1_get_valid_moves_spec in Hx as (d & n & Hn & _ & Hall).
    assert (slide d pos 1 ∈ Draft._get_valid_moves g pos) as Hin.
    { apply draft_get_valid_moves_spec. exists d, 1. split; [lia|]. split; [done|].
      split; [|by right]. intros k Hk. replace k with 1 by lia.
      pose proof (Hall 1%nat ltac:(lia)) as H1.
      by rewrite <- shift_from_neighbor, shift_0, <- slide_1 in H1. }
    rewrite Hd in Hin. inversion Hin.
Qed.

Lemma existsb_fish1_can_move g l :
  existsb (Fish1.can_move g) l = existsb (can_move g) l.
Proof. induction l as [|x l IH]; [done|]. cbn. by rewrite IH, fish1_can_move. Qed.

Lemma fish1_next_turn_loop original : forall fuel g,
  (current_player_index g < length (players g))%nat ->
  (0 < fuel)%nat ->
  ((current_player_index g + fuel) mod length (players g))%nat = original ->
  (forall j, (1 <= j < fuel)%nat ->
     ((current_player_index g + j) mod length (players g))%nat <> original) ->
  Fish1.next_turn_loop original fuel g = next_turn_loop fuel g.
Proof.
  induction fuel as [|fuel IH]; intros g Hcur Hfuel Hend Hbefore; [lia|].
  assert (players g <> []) as Hne by (destruct (players g); cbn in *; [lia|done]).
  cbn [Fish1.next_turn_loop next_turn_loop]. unfold bind, get, player_at.
  rewrite rotate_1 by done.
  set (i' := ((current_player_index g + 1) mod length (players g))%nat).
  assert (i' < length (players g))%nat as Hi' by (apply Nat.mod_upper_bound; lia).
  cbn [current_player_index set_current_player_index players].
  destruct (lookup_lt_is_Some_2 (players g) i' Hi') as [p Hp]. rewrite Hp.
  rewrite existsb_fish1_can_move.
  destruct (existsb _ (penguins p)); [done|].
  destruct fuel as [|fuel].
  - rewrite decide_True by (unfold i'; by rewrite <- Hend). done.
  - rewrite decide_False by (apply (Hbefore 1%nat); lia).
    apply IH; cbn [current_player_index set_current_player_index players].
    + done.
    + lia.
    + unfold i'. rewrite Nat.Div0.add_mod_idemp_l. rewrite <- Hend. f_equal. lia.
    + intros j Hj. unfold i'. rewrite Nat.Div0.add_mod_idemp_l.
      replace (current_player_index g + 1 + j)%nat
        with (current_player_index g + S j)%nat by lia.
      apply Hbefore. lia.
Qed.

Lemma fish1_next_turn g :
  (current_player_index g < length (players g))%nat ->
  Fish1._next_turn g = _next_turn g.
Proof.
  intros Hcur. unfold Fish1._next_turn, _next_turn.
  apply fish1_next_turn_loop; [done|lia| |].
  - replace (current_player_index g + length (players g))%nat
      with (current_player_index g + 1 * length (players g))%nat by lia.
    rewrite Nat.Div0.mod_add. by apply Nat.mod_small.
  - intros j Hj Heq.
    destruct (decide (current_player_index g + j < length (players g))%nat).
    + rewrite Nat.mod_small in Heq by done. lia.
    + replace (current_player_index g + j)%nat
        with ((current_player_index g + j - length (players g)) +
              1 * length (players g))%nat in Heq by lia.
      rewrite Nat.Div0.mod_add, Nat.mod_small in Heq by lia. lia.
Qed.

(** X25. The move generator of the game in [fish1.py] adds the offset
    of the first step again and again: a cell is returned exactly when
    it is the start plus [n] times the offset to one of the six
    neighbours, for some [n] of 1 or more, and every cell from the first
    step to it has a tile and holds no token. The loop ends for every
    board. *)
Theorem fish1_moves_along_offsets (g : FishGame) (start c : Z * Z) :
  c ∈ Fish1._get_valid_moves g start <->
  exists d n, (1 <= n)%nat /\
    c = shift ((step d start).1 - start.1) ((step d start).2 - start.2) start n /\
    forall j, (1 <= j <= n)%nat ->
      free g (shift ((step d start).1 - start.1) ((step d start).2 - start.2) start j).
Proof. apply fish1_get_valid_moves_spec. Qed.

(** X26. In [fish1.py] the search looks at fewer moves than the game
    allows: on a snapshot of the game every move of the generator of
    the search is a move of the generator of the game, and there is a
    position in which the game offers a cell, two steps along a
    diagonal, that the search does not. *)
Theorem search_sees_fewer_moves :
  (forall g state start c,
     snapshot_of g state ->
     c ∈ MinimaxAI._get_valid_moves state (grid g) start ->
     c ∈ Fish1._get_valid_moves g start) /\
  exists g positions start c,
    lists_tokens positions g /\
    c ∈ Fish1._get_valid_moves g start /\
    c ∉ MinimaxAI._get_valid_moves (Fish1.snapshot positions g) (grid g) start.
Proof.
  split.
  - intros g state start c Hsnap Hin. rewrite snapshot_generator_draft in Hin by done.
    by apply draft_moves_in_fish1.
  - exists diagonal, [((0, 0), 0%nat)], (0, 0), (2, 2). split; [split|split].
    + cbn. apply NoDup_singleton.
    + intros pos. cbn. destruct (decide ((0, 0) = pos)) as [<-|Hne]; [done|].
      symmetry. apply lookup_insert_None. split; [done|done].
    + assert (Fish1._get_valid_moves diagonal (0, 0) = [(1, 1); (2, 2)]) as ->
        by (vm_compute; reflexivity).
      right. left.
    + assert (MinimaxAI._get_valid_moves (Fish1.snapshot [((0, 0), 0%nat)] diagonal)
                (grid diagonal) (0, 0) = [(1, 1)]) as -> by (vm_compute; reflexivity).
      intros Hin. apply list_elem_of_singleton in Hin. done.
Qed.

(** X27. [_next_turn] of [fish1.py] asks its own move generator whether
    a token can move, and yet does what [_next_turn] of the game does:
    when the player to move exists the two give the same game object,
    and the [while True] loop ends within [len(players)] turns. *)
Theorem fish1_next_turn_agrees (g : FishGame) :
  (current_player_index g < length (players g))%nat ->
  Fish1._next_turn g = _next_turn g /\
  exists g', Fish1._next_turn g = Ok tt g'.
Proof.
  intros Hcur. pose proof (fish1_next_turn g Hcur) as Heq. split; [done|].
  rewrite Heq. destruct (next_turn_frame g Hcur) as (g' & Hrun & _). eauto.
Qed.

Lemma fish1_next_turn_agrees_witness :
  (current_player_index corridor < length (players corridor))%nat /\
  Fish1._next_turn corridor = _next_turn corridor.
Proof.
  assert (current_player_index corridor < length (players corridor))%nat as H
    by (vm_compute; lia).
  split; [exact H|]. apply (fish1_next_turn_agrees corridor H).
Defined.

Lemma od_get_NoDup k v : forall d,
  NoDup d.*1 -> (k, v) ∈ d -> MinimaxAI.od_get k d = Some v.
Proof.
  induction d as [|[k' v'] d IH]; cbn; intros Hnd Hin; [inversion Hin|].
  apply NoDup_cons in Hnd as [Hk Hnd]. apply elem_of_cons in Hin as [[= -> ->]|Hin].
  - by rewrite decide_True.
  - rewrite decide_False; [auto|]. intros ->. apply Hk.
    apply list_elem_of_fmap. by exists (k, v).
Qed.

Lemma snapshot_of_game positions g :
  lists_tokens positions g -> snapshot_of g (Fish1.snapshot positions g).
Proof. intros [_ H]. split; [done|exact H]. Qed.

Lemma snapshot_ok_game positions g :
  well_formed g -> (2 <= length (players g))%nat -> lists_tokens positions g ->
  snapshot_ok (current_player_index g) (Fish1.snapshot positions g).
Proof.
  intros (Hc & _ & Hcur) H2 [Hnd Hpos]. unfold snapshot_ok. cbn.
  rewrite length_map. split; [done|]. split; [done|].
  intros pos player_index Hin. apply (od_get_NoDup _ _ _ Hnd) in Hin.
  rewrite Hpos in Hin. apply Hc in Hin as (p & Hp & _). by eapply lookup_lt_Some.
Qed.

Lemma move_penguin_to_free g from_pos to_pos i :
  well_formed g ->
  penguin_positions g !! from_pos = Some i ->
  penguin_positions g !! to_pos = None ->
  exists g', _move_penguin from_pos to_pos g = Ok tt g' /\ well_formed g'.
Proof.
  intros (Hc & Hnd & Hcur) Hfrom Hfree.
  pose proof Hfrom as Hfrom'. apply Hc in Hfrom' as (p & Hp & Hin).
  destruct (list_remove_elem _ _ Hin) as [l Hl].
  rewrite (move_penguin_run g from_pos to_pos i p l) by done.
  eexists. split; [done|].
  destruct (consistent_relocate g
              (set_player i
                 (set_penguins (l ++ [to_pos])
                    (set_fish_count
                       (fish_count p + (remove_tile from_pos.1 from_pos.2 (grid g)).1) p))
                 (set_penguin_positions
                    (<[to_pos := i]> (delete from_pos (penguin_positions g)))
                    (set_grid (remove_tile from_pos.1 from_pos.2 (grid g)).2 g)))
              from_pos to_pos i p l
              (fish_count p + (remove_tile from_pos.1 from_pos.2 (grid g)).1))
    as [Hc' Hnd']; try done.
  split_and!; try done. cbn. by rewrite length_insert.
Qed.

Lemma next_turn_well_formed g :
  well_formed g ->
  exists g', _next_turn g = Ok tt g' /\ well_formed g' /\
    grid g' = grid g /\ penguin_positions g' = penguin_positions g /\
    players g' = players g.
Proof.
  intros (Hc & Hnd & Hcur).
  destruct (next_turn_frame g Hcur) as (g' & Hrun & Hg & Hpp & Hpl & _ & Hcur' & _).
  exists g'. split; [done|]. split; [|done]. split_and!.
  - intros pos i. rewrite Hpp, Hpl. apply Hc.
  - intros i p. rewrite Hpl. apply Hnd.
  - by rewrite Hpl.
Qed.

(** The moves of the search and the test of [_next_turn]. *)
Lemma movable_all_moves positions g :
  well_formed g -> lists_tokens positions g ->
  movable g (current_player_index g) = false <->
  MinimaxAI._get_all_moves (Fish1.snapshot positions g) (grid g)
    (current_player_index g) = [].
Proof.
  intros (Hc & _ & Hcur) Hlists. pose proof (snapshot_of_game _ _ Hlists) as Hsnap.
  destruct Hlists as [Hnd Hpos]. unfold movable.
  destruct (lookup_lt_is_Some_2 _ _ Hcur) as [p Hp]. rewrite Hp. split.
  - intros Hnone.
    destruct (MinimaxAI._get_all_moves _ _ _) as [|move moves] eqn:Hmoves; [done|].
    assert (move ∈ MinimaxAI._get_all_moves (Fish1.snapshot positions g) (grid g)
                     (current_player_index g)) as Hin by (rewrite Hmoves; by left).
    apply all_moves_elem in Hin as (Hfrom & Hto & _).
    apply (od_get_NoDup _ _ _ Hnd) in Hfrom. cbn in Hfrom. rewrite Hpos in Hfrom.
    apply Hc in Hfrom as (p' & Hp' & Hin). rewrite Hp in Hp'. injection Hp' as <-.
    rewrite snapshot_generator_draft in Hto by done.
    assert (existsb (can_move g) (penguins p) = true) as He; [|congruence].
    apply existsb_exists. exists (MinimaxAI.from_pos move).
    split; [by apply list_elem_of_In|]. rewrite <- draft_can_move.
    unfold Greedy.can_move. destruct (Draft._get_valid_moves g _); [inversion Hto|done].
  - intros Hnone. destruct (existsb (can_move g) (penguins p)) eqn:He; [|done].
    apply existsb_exists in He as (pos & Hin & Hcan). apply list_elem_of_In in Hin.
    rewrite <- draft_can_move in Hcan. unfold Greedy.can_move in Hcan.
    destruct (Draft._get_valid_moves g pos) as [|c l] eqn:Hl; [done|].
    assert (MinimaxAI.mkMove pos c
              match tiles (grid g) !! pos with
              | Some tile => fish tile
              | None => 0
              end ∈ MinimaxAI._get_all_moves (Fish1.snapshot positions g) (grid g)
                      (current_player_index g)) as Hmove.
    { apply all_moves_elem. cbn. split_and!; [| |done].
      - apply od_get_elem. rewrite Hpos. apply Hc. eauto.
      - rewrite (snapshot_generator_draft (Fish1.snapshot positions g) g pos) by done.
        rewrite Hl. by left. }
    rewrite Hnone in Hmove. inversion Hmove.
Qed.

(** X28. The turn of the computer in [fish1.py], in a game object that
    keeps its invariant and has two players or more: [_ai_make_move]
    raises nothing. When a token of the player to move has a free
    neighbour, the search at depth 4 returns a move of such a token to a
    cell that the move generator of the game offers too, and the game
    object becomes what [_move_penguin] and [_next_turn] make of it; it
    keeps the invariant. When no token of the player can move, nothing
    changes and the turn does not pass. *)
Theorem fish1_ai_move_is_a_move (g : FishGame) (positions : MinimaxAI.odict) :
  well_formed g ->
  (2 <= length (players g))%nat ->
  lists_tokens positions g ->
  if movable g (current_player_index g) then
    exists from_pos to_pos g1 g2,
      penguin_positions g !! from_pos = Some (current_player_index g) /\
      to_pos ∈ Fish1._get_valid_moves g from_pos /\
      _move_penguin from_pos to_pos g = Ok tt g1 /\
      Fish1._next_turn g1 = Ok tt g2 /\
      Fish1._ai_make_move positions g = Ok tt g2 /\
      well_formed g2
  else Fish1._ai_make_move positions g = Ok tt g.
Proof.
  intros Hwf H2 Hlists.
  pose proof (snapshot_ok_game _ _ Hwf H2 Hlists) as Hok.
  pose proof (snapshot_of_game _ _ Hlists) as Hsnap.
  pose proof (movable_all_moves _ _ Hwf Hlists) as Hmovable.
  destruct (get_best_move_Val 3 _ (grid g) _ Hok) as (best & t & Hrun & Hbest).
  unfold Fish1._ai_make_move. rewrite Hrun.
  destruct best as [move|].
  - destruct (movable g (current_player_index g)) eqn:Hm.
    2:{ rewrite (proj1 Hmovable eq_refl) in Hbest. inversion Hbest. }
    apply all_moves_elem in Hbest as (Hfrom & Hto & _).
    destruct Hlists as [Hnd Hpos].
    apply (od_get_NoDup _ _ _ Hnd) in Hfrom. cbn in Hfrom. rewrite Hpos in Hfrom.
    rewrite snapshot_generator_draft in Hto by done.
    pose proof (draft_moves_in_fish1 _ _ _ Hto) as Hto'.
    assert (penguin_positions g !! MinimaxAI.to_pos move = None) as Hfree.
    { apply draft_get_valid_moves_spec in Hto as (d & n & Hn & -> & Hall & _).
      apply (Hall n). lia. }
    destruct (move_penguin_to_free g _ _ _ Hwf Hfrom Hfree) as (g1 & Hmove & Hwf1).
    destruct (next_turn_well_formed g1 Hwf1) as (g2 & Hnext & Hwf2 & _).
    assert (Fish1._next_turn g1 = Ok tt g2) as Hnext'.
    { rewrite fish1_next_turn; [done|apply Hwf1]. }
    exists (MinimaxAI.from_pos move), (MinimaxAI.to_pos move), g1, g2.
    split_and!; try done. unfold bind. by rewrite Hmove.
  - rewrite (proj2 Hmovable Hbest). done.
Qed.

Lemma od_get_list_to_map pos : forall d,
  MinimaxAI.od_get pos d = (list_to_map d : gmap (Z * Z) nat) !! pos.
Proof.
  induction d as [|[k v] d IH]; cbn; [done|].
  destruct (decide (k = pos)) as [->|Hne].
  - by rewrite lookup_insert_eq.
  - by rewrite lookup_insert_ne.
Qed.

Lemma corridor_tokens_listed g :
  penguin_positions g = penguin_positions corridor_start ->
  lists_tokens corridor_tokens g.
Proof.
  intros Hg. split.
  - apply (bool_decide_unpack _). by vm_compute.
  - intros pos. rewrite od_get_list_to_map, Hg. f_equal.
Qed.

Lemma fish1_ai_move_is_a_move_witness :
  exists from_pos to_pos g1 g2,
    penguin_positions corridor_reply !! from_pos = Some 1%nat /\
    to_pos ∈ Fish1._get_valid_moves corridor_reply from_pos /\
    _move_penguin from_pos to_pos corridor_reply = Ok tt g1 /\
    Fish1._next_turn g1 = Ok tt g2 /\
    Fish1._ai_make_move corridor_tokens corridor_reply = Ok tt g2 /\
    well_formed g2.
Proof.
  assert (well_formed corridor_reply) as Hwf.
  { destruct (proj1 corridor_start_sound) as (Hc & Hnd & _).
    split; [exact Hc|]. split; [exact Hnd|]. cbn. lia. }
  assert (2 <= length (players corridor_reply))%nat as H2 by (cbn; lia).
  pose proof (fish1_ai_move_is_a_move corridor_reply corridor_tokens Hwf H2
                (corridor_tokens_listed corridor_reply eq_refl)) as H.
  assert (movable corridor_reply (current_player_index corridor_reply) = true) as Hm
    by (vm_compute; reflexivity).
  rewrite Hm in H. exact H.
Defined.

(** X29. A move at the keyboard in [fish1.py]: in a game object that
    keeps its invariant, a click on a token of the player to move and a
    click on a cell that the move generator offers for it do together
    what [_move_penguin] and [_next_turn] do for that move; nothing is
    raised, the selection is cleared, and the invariant is kept. *)
Theorem fish1_human_move_is_a_move (g : FishGame) (from_pos to_pos : Z * Z) :
  well_formed g ->
  penguin_positions g !! from_pos = Some (current_player_index g) ->
  to_pos ∈ Fish1._get_valid_moves g from_pos ->
  exists g1 g2,
    _move_penguin from_pos to_pos g = Ok tt g1 /\
    Fish1._next_turn g1 = Ok tt g2 /\
    (do Fish1._handle_gameplay_click from_pos.1 from_pos.2 then
     Fish1._handle_gameplay_click to_pos.1 to_pos.2)%py g =
      Ok tt (with_aux None [] (animation_queue g) (current_animation g) g2) /\
    well_formed g2.
Proof.
  intros Hwf Hfrom Hto.
  assert (free g to_pos) as [_ Hfree].
  { apply fish1_get_valid_moves_spec in Hto as (d & n & Hn & -> & Hall).
    apply (Hall n). lia. }
  destruct (move_penguin_to_free g _ _ _ Hwf Hfrom Hfree) as (g1 & Hmove & Hwf1).
  destruct (next_turn_well_formed g1 Hwf1) as (g2 & Hnext & Hwf2 & _).
  exists g1, g2. split; [done|]. split.
  { rewrite fish1_next_turn; [done|apply Hwf1]. }
  split; [|done].
  destruct from_pos as [r c], to_pos as [r' c']. cbn [fst snd].
  unfold bind. unfold Fish1._handle_gameplay_click at 1.
  rewrite Hfrom, decide_True by done.
  unfold Fish1._handle_gameplay_click. cbn [penguin_positions set_valid_moves
    set_selected_penguin selected_penguin valid_moves].
  rewrite Hfree, decide_True by done.
  change (set_valid_moves (Fish1._get_valid_moves g (r, c))
            (set_selected_penguin (Some (r, c)) g))
    with (with_aux (Some (r, c)) (Fish1._get_valid_moves g (r, c))
            (animation_queue g) (current_animation g) g).
  unfold bind. rewrite frame_move_penguin, Hmove. cbn [lift]. unfold modify.
  change (set_valid_moves [] (set_selected_penguin None
            (with_aux (Some (r, c)) (Fish1._get_valid_moves g (r, c))
               (animation_queue g) (current_animation g) g1)))
    with (with_aux None [] (animation_queue g) (current_animation g) g1).
  rewrite fish1_next_turn by apply Hwf1. unfold _next_turn.
  change (length (players (with_aux None [] (animation_queue g)
                             (current_animation g) g1)))
    with (length (players g1)).
  rewrite frame_next_turn_loop. fold (_next_turn g1). by rewrite Hnext.
Qed.

Lemma fish1_human_move_is_a_move_witness :
  exists g1 g2,
    _move_penguin (4, 7) (5, 7) corridor_start = Ok tt g1 /\
    Fish1._next_turn g1 = Ok tt g2 /\
    (do Fish1._handle_gameplay_click 4 7 then
     Fish1._handle_gameplay_click 5 7)%py corridor_start =
      Ok tt (with_aux None [] [] None g2) /\
    well_formed g2.
Proof.
  apply (fish1_human_move_is_a_move corridor_start (4, 7) (5, 7)).
  - exact (proj1 corridor_start_sound).
  - by vm_compute.
  - assert (Fish1._get_valid_moves corridor_start (4, 7) = [(5, 7)]) as ->
      by (vm_compute; reflexivity).
    by left.
Defined.

Lemma od_get_od_del pos k : forall d,
  MinimaxAI.od_get pos (MinimaxAI.od_del k d) =
  if decide (pos = k) then None else MinimaxAI.od_get pos d.
Proof.
  unfold MinimaxAI.od_del, MinimaxAI.odict. induction d as [|[k' v'] d IH].
  { cbn. by destruct (decide (pos = k)). }
  rewrite filter_cons. cbn [fst]. destruct (decide (k' <> k)) as [Hne|Heq].
  - cbn [MinimaxAI.od_get]. rewrite IH. destruct (decide (k' = pos)) as [->|]; [|done].
    by rewrite decide_False.
  - apply dec_stable in Heq as ->. rewrite IH. cbn [MinimaxAI.od_get].
    destruct (decide (pos = k)) as [->|Hne]; [done|]. by rewrite decide_False.
Qed.

Lemma od_get_od_set pos k v : forall d,
  MinimaxAI.od_get pos (MinimaxAI.od_set k v d) =
  if decide (pos = k) then Some v else MinimaxAI.od_get pos d.
Proof.
  induction d as [|[k' v'] d IH]; cbn.
  { destruct (decide (k = pos)) as [->|]; [by rewrite decide_True|].
    by rewrite decide_False. }
  destruct (decide (k' = k)) as [->|Hne]; cbn.
  - destruct (decide (k = pos)) as [->|]; [by rewrite decide_True|].
    by rewrite decide_False.
  - rewrite IH. destruct (decide (k' = pos)) as [->|]; [|done].
    by rewrite decide_False.
Qed.

(** X30. The search of [fish1.py] treats a move as the game does: when
    the snapshot copies the tiles, the tokens and the scores of a game
    object that keeps its invariant, [_apply_move] for a move of a token
    on the board, with the fish of the tile it leaves, raises nothing
    and returns a snapshot that copies the tiles, the tokens and the
    scores of the game object after [_move_penguin]; the argument is not
    changed. The player to move of the new snapshot is the other of
    players 0 and 1, whatever the game does next. *)
Theorem apply_move_follows_the_game (g : FishGame)
    (state : MinimaxAI.GameStateSnapshot) (move : MinimaxAI.Move) :
  well_formed g ->
  snapshot_of g state ->
  MinimaxAI.player_scores state = map fish_count (players g) ->
  is_Some (penguin_positions g !! MinimaxAI.from_pos move) ->
  MinimaxAI.fish_gained move =
    match MinimaxAI.tiles state !! MinimaxAI.from_pos move with
    | Some tile => fish tile
    | None => 0
    end ->
  exists new_state g',
    MinimaxAI._apply_move state move = MinimaxAI.Done new_state /\
    _move_penguin (MinimaxAI.from_pos move) (MinimaxAI.to_pos move) g = Ok tt g' /\
    snapshot_of g' new_state /\
    MinimaxAI.player_scores new_state = map fish_count (players g') /\
    MinimaxAI.current_player new_state =
      ((MinimaxAI.current_player state + 1) mod 2)%nat.
Proof.
  intros (Hc & _ & _) [Htiles Hpos] Hscores [i Hfrom] Hfish.
  destruct move as [[r c] to_pos fish_gained]. cbn [MinimaxAI.from_pos
    MinimaxAI.to_pos MinimaxAI.fish_gained] in *.
  pose proof Hfrom as Hfrom'. apply Hc in Hfrom' as (p & Hp & Hin).
  destruct (list_remove_elem _ _ Hin) as [l Hl].
  unfold MinimaxAI._apply_move. cbn [MinimaxAI.from_pos MinimaxAI.to_pos
    MinimaxAI.fish_gained]. rewrite Hpos, Hfrom, Hscores, list_lookup_fmap, Hp.
  cbn [fmap option_fmap option_map].
  rewrite (move_penguin_run g (r, c) to_pos i p l) by done.
  eexists _, _. split; [done|]. split; [done|].
  cbn [fst snd]. rewrite Htiles in Hfish. unfold remove_tile.
  split; [split|split]; cbn.
  - rewrite Htiles. destruct (tiles (grid g) !! (r, c)) eqn:Ht; [done|].
    by apply delete_id.
  - intros pos. rewrite od_get_od_set, od_get_od_del, Hpos.
    destruct (decide (pos = to_pos)) as [->|Hne]; [by rewrite lookup_insert_eq|].
    rewrite lookup_insert_ne by done.
    destruct (decide (pos = (r, c))) as [->|Hne']; [by rewrite lookup_delete_eq|].
    by rewrite lookup_delete_ne.
  - rewrite list_fmap_insert. cbn. rewrite Hfish.
    by destruct (tiles (grid g) !! (r, c)).
  - done.
Qed.

Lemma apply_move_follows_the_game_witness :
  exists new_state g',
    MinimaxAI._apply_move (Fish1.snapshot corridor_tokens corridor_reply)
      (MinimaxAI.mkMove (0, 0) (0, 2) 3) = MinimaxAI.Done new_state /\
    _move_penguin (0, 0) (0, 2) corridor_reply = Ok tt g' /\
    snapshot_of g' new_state /\
    MinimaxAI.player_scores new_state = map fish_count (players g') /\
    MinimaxAI.current_player new_state = ((1 + 1) mod 2)%nat.
Proof.
  apply (apply_move_follows_the_game corridor_reply
           (Fish1.snapshot corridor_tokens corridor_reply)
           (MinimaxAI.mkMove (0, 0) (0, 2) 3)).
  - destruct (proj1 corridor_start_sound) as (Hc & Hnd & _).
    split; [exact Hc|]. split; [exact Hnd|]. cbn. lia.
  - apply snapshot_of_game. by apply corridor_tokens_listed.
  - done.
  - exists 1%nat. vm_compute. reflexivity.
  - vm_compute. reflexivity.
Defined.
